(** * FLAME prototype: fragment directory and prioritized transfer engine

    A shallow embedding of [akita/flame/fragment_directory.go] and
    [akita/flame/pm_engine.go], with the properties their specification
    states about them.

    Integers of the Go code are [Z]; the only arithmetic the code does on
    them (the latency computation) has its 64-bit wrap-around written out.
    Go maps are [gmap]s, slices are lists accessed by index, pointers to
    requests are locations of a heap, channels are identified by their
    index in a table of channel states. *)

From Stdlib Require Import ZArith String List Lia Permutation.
From stdpp Require Import base decidable countable sorting gmap fin_maps functions list.

Local Open Scope Z_scope.

(** ** Fragment directory (fragment_directory.go) *)

Module Directory.

(** [FragmentKey]: virtual page number (uint64) and fragment index (uint16). *)
Record FragmentKey := mkKey { VPN : Z; Index : Z }.

#[global] Instance FragmentKey_eq_dec : EqDecision FragmentKey.
Proof. solve_decision. Defined.

#[global] Instance FragmentKey_countable : Countable FragmentKey.
Proof.
  apply (inj_countable' (λ k, (VPN k, Index k)) (λ p, mkKey p.1 p.2)).
  by intros [].
Defined.

(** [FragMapping]: the record stored for one fragment. *)
Record FragMapping := mkMapping {
  NodeID : Z;
  PhysAddr : Z;
  Size : Z;
  Replica : bool;
  LeaseEnds : Z;
  Flags : Z
}.

#[global] Instance FragMapping_eq_dec : EqDecision FragMapping.
Proof. solve_decision. Defined.

(** The zero value [FragMapping{}] that a Go map read yields for an absent key. *)
Definition zero_mapping : FragMapping := mkMapping 0 0 0 false 0 0.

(** [FragmentDirectory]: the field [data]; the lock [mu] makes every method
    below one atomic step, which is how they are modelled. *)
Record FragmentDirectory := mkDir { data : gmap FragmentKey FragMapping }.

Definition NewFragmentDirectory : FragmentDirectory := mkDir ∅.

(** [m, ok := d.data[fk]; return m, ok] *)
Definition Lookup (d : FragmentDirectory) (vpn idx : Z) : FragMapping * bool :=
  let fk := mkKey vpn idx in
  match data d !! fk with
  | Some m => (m, true)
  | None => (zero_mapping, false)
  end.

(** [d.data[fk] = m] *)
Definition Install (d : FragmentDirectory) (vpn idx : Z) (m : FragMapping)
  : FragmentDirectory :=
  let fk := mkKey vpn idx in
  mkDir (<[fk := m]> (data d)).

(** [delete(d.data, fk)] *)
Definition Remove (d : FragmentDirectory) (vpn idx : Z) : FragmentDirectory :=
  let fk := mkKey vpn idx in
  mkDir (delete fk (data d)).

(** [for k, v := range d.data { if v.NodeID == node { out[k] = v } }]
    starting from an empty [out]. *)
Definition ScanForNode (d : FragmentDirectory) (node : Z)
  : gmap FragmentKey FragMapping :=
  map_fold (λ k v out, if decide (NodeID v = node) then <[k := v]> out else out)
           ∅ (data d).

(** The calls that change a directory, and a directory's history. *)
Inductive Op :=
| OpInstall (vpn idx : Z) (m : FragMapping)
| OpRemove (vpn idx : Z).

Definition apply_op (d : FragmentDirectory) (o : Op) : FragmentDirectory :=
  match o with
  | OpInstall vpn idx m => Install d vpn idx m
  | OpRemove vpn idx => Remove d vpn idx
  end.

(** The directory after the calls [ops], oldest first, on a new directory. *)
Definition replay (ops : list Op) : FragmentDirectory :=
  fold_left apply_op ops NewFragmentDirectory.

(** What the history alone says about key [k]: the mapping of the most
    recent [Install] on [k], unless a [Remove] on [k] came after it.
    The list is read newest first. *)
Fixpoint latest (k : FragmentKey) (newest_first : list Op) : option FragMapping :=
  match newest_first with
  | [] => None
  | OpInstall vpn idx m :: older =>
      if decide (mkKey vpn idx = k) then Some m else latest k older
  | OpRemove vpn idx :: older =>
      if decide (mkKey vpn idx = k) then None else latest k older
  end.

Definition most_recently_installed (ops : list Op) (k : FragmentKey)
  : option FragMapping :=
  latest k (rev ops).

End Directory.

(** ** Transfer engine (pm_engine.go) *)

Module Engine.

(** A [*TransferRequest] is a location of the request heap; [nil] is [None]
    where a pointer may be nil. A [chan error] is the index of its state in
    the table of channels. A Go [error] is its message; [nil] is [None]. *)
Definition loc := nat.
Definition chan := nat.
Definition error := string.

Record TransferRequest := mkReq {
  ID : string;
  SrcNode : Z;
  DstNode : Z;
  SizeBytes : Z;          (* uint64 *)
  Priority : Z;           (* int; lower => higher priority *)
  Meta : string;
  Done : option chan      (* chan error; None is the nil channel *)
}.

(** [req.Done = c] *)
Definition set_Done (r : TransferRequest) (c : option chan) : TransferRequest :=
  mkReq (ID r) (SrcNode r) (DstNode r) (SizeBytes r) (Priority r) (Meta r) c.

(** State of a [chan error]: capacity, buffered values (oldest first) and the
    number of goroutines blocked in a receive on it. *)
Record Chan := mkChan {
  cap : nat;
  buf : list (option error);
  receivers : nat
}.

(** [make(chan error, n)] *)
Definition make_chan (n : nat) : Chan := mkChan n [] 0.

(** How a send went through: handed to a blocked receiver, or stored in the
    buffer. *)
Inductive Delivery := Handed | Buffered.

(** A send [ch <- v] that must not wait: [None] when it cannot proceed now
    (no blocked receiver and no room in the buffer), which is when a
    [select] with a [default] case takes the default. *)
Definition try_send (ch : Chan) (v : option error) : option (Chan * Delivery) :=
  if (0 <? receivers ch)%nat then
    Some (mkChan (cap ch) (buf ch) (receivers ch - 1), Handed)
  else if (length (buf ch) <? cap ch)%nat then
    Some (mkChan (cap ch) (buf ch ++ [v]) (receivers ch), Buffered)
  else None.

(** A caller starts [<-ch]: it takes the oldest buffered value if there is
    one, and is blocked on the channel otherwise. *)
Definition recv (ch : Chan) : Chan * option (option error) :=
  match buf ch with
  | v :: rest => (mkChan (cap ch) rest (receivers ch), Some v)
  | [] => (mkChan (cap ch) [] (S (receivers ch)), None)
  end.

(** A blocked caller gives up its receive (its context was cancelled). *)
Definition abandon (ch : Chan) : Chan :=
  mkChan (cap ch) (buf ch) (Nat.pred (receivers ch)).

(** [quit chan struct{}]: only ever closed and polled. *)
Inductive QuitChan := Open | Closed.

(** A [time.Duration] is an int64 count of nanoseconds. *)
Definition wrap64 (z : Z) : Z := (z + 2 ^ 63) mod 2 ^ 64 - 2 ^ 63.
Definition Millisecond : Z := 1000000.
Definition MiB : Z := Z.shiftl 1 20.

Record PMEngine := mkEngine {
  pending : list loc;
  active : bool;
  quit : QuitChan;
  interval : Z
}.

(** The world the engine runs in: the requests the callers own, the channels
    made so far, the engine, whether the goroutine running [loop] is still
    alive, and the completion goroutines that are inside their
    [time.Sleep(l)], each with its arguments [(r, l)]. The mutex [mu] makes
    the critical sections atomic; each is one step here. *)
Record World := mkWorld {
  heap : loc → TransferRequest;
  chans : list Chan;
  eng : PMEngine;
  looping : bool;
  sleepers : list (loc * Z)
}.

(** [NewPMEngine]: the engine value, and the world after [go e.loop()]. *)
Definition NewPMEngine : PMEngine := mkEngine [] false Open (2 * Millisecond).

Definition boot (h : loc → TransferRequest) (cs : list Chan) : World :=
  mkWorld h cs NewPMEngine true [].

(** The insertion loop of [EnqueueTransfer]:
    [for i := len-1; i > 0; i-- { if q[i].Priority < q[i-1].Priority { swap } else { break } }].
    [sift prio i q] is the loop from index [i]. Both indices are in range
    whenever [i < len q], which the caller ensures; the last branch is then
    never taken. *)
Fixpoint sift (prio : loc → Z) (i : nat) (q : list loc) : list loc :=
  match i with
  | O => q
  | S j =>
      match q !! S j, q !! j with
      | Some a, Some b =>
          if prio a <? prio b then sift prio j (<[j := a]> (<[S j := b]> q))
          else q
      | _, _ => q
      end
  end.

(** [EnqueueTransfer(req)]: the world after the call and the pair it returns. *)
Definition EnqueueTransfer (req : option loc) (w : World)
  : World * (option chan * option error) :=
  match req with
  | None => (w, (None, Some "nil request"%string))
  | Some p =>
      let c := length (chans w) in
      let h := <[p := set_Done (heap w p) (Some c)]> (heap w) in
      let q := pending (eng w) ++ [p] in
      let q := sift (λ x, Priority (h x)) (length q - 1) q in
      (mkWorld h (chans w ++ [make_chan 1])
               (mkEngine q (active (eng w)) (quit (eng w)) (interval (eng w)))
               (looping w) (sleepers w),
       (Done (h p), None))
  end.

(** [Stop()]: [close(e.quit)]. Closing a closed channel panics: [None]. *)
Definition Stop (w : World) : option World :=
  match quit (eng w) with
  | Open =>
      Some (mkWorld (heap w) (chans w)
              (mkEngine (pending (eng w)) (active (eng w)) Closed (interval (eng w)))
              (looping w) (sleepers w))
  | Closed => None
  end.

(** The service time computed in [loop] for a request, in nanoseconds:
    [e.interval + time.Duration(req.SizeBytes/(1<<20)) * 1*time.Millisecond],
    then [latency /= 2] when [req.Priority <= 0]. Go's [/] on integers
    truncates towards zero. *)
Definition service_latency (e : PMEngine) (r : TransferRequest) : Z :=
  let latency :=
    wrap64 (interval e
            + wrap64 (wrap64 (wrap64 (SizeBytes r / MiB) * 1) * Millisecond)) in
  if Priority r <=? 0 then Z.quot latency 2 else latency.

(** What the runs of the engine show. *)
Inductive Event :=
| EvSubmitted (p : loc) (c : chan)                 (* EnqueueTransfer returned handle c *)
| EvRejected (e : error)                           (* EnqueueTransfer returned an error *)
| EvDispatched (p : loc) (latency : Z)             (* loop took p off the queue *)
| EvSignalled (p : loc) (c : chan) (d : Delivery)  (* r.Done <- nil went through *)
| EvDropped (p : loc) (c : option chan)            (* the default case was taken *)
| EvReceived (c : chan) (v : option error)         (* a caller got v from c *)
| EvLoopReturned.                                  (* loop saw quit closed *)

(** One iteration of the [for] in [loop]. A loop that has returned does
    nothing more. *)
Definition loop_iter (w : World) : World * list Event :=
  if looping w then
    match quit (eng w) with
    | Closed =>
        (mkWorld (heap w) (chans w) (eng w) false (sleepers w), [EvLoopReturned])
    | Open =>
        match pending (eng w) with
        | [] => (w, [])
        | req :: rest =>
            let latency := service_latency (eng w) (heap w req) in
            (mkWorld (heap w) (chans w)
                     (mkEngine rest (active (eng w)) (quit (eng w)) (interval (eng w)))
                     (looping w) (sleepers w ++ [(req, latency)]),
             [EvDispatched req latency])
        end
    end
  else (w, []).

(** The [i]-th sleeping completion goroutine wakes up and runs
    [select { case r.Done <- nil: default: }]; [r.Done] is read then.
    A send on a nil channel is never ready. (A channel that is not in the
    table does not occur: channels are only ever added.) *)
Definition wake (i : nat) (w : World) : World * list Event :=
  match sleepers w !! i with
  | None => (w, [])
  | Some (r, _) =>
      let rest := delete i (sleepers w) in
      let done := Done (heap w r) in
      let dropped :=
        (mkWorld (heap w) (chans w) (eng w) (looping w) rest, [EvDropped r done]) in
      match done with
      | None => dropped
      | Some c =>
          match chans w !! c with
          | None => dropped
          | Some ch =>
              match try_send ch None with
              | Some (ch', d) =>
                  (mkWorld (heap w) (<[c := ch']> (chans w)) (eng w) (looping w) rest,
                   [EvSignalled r c d])
              | None => dropped
              end
          end
      end
  end.

(** A caller starts to receive on [c], as [SubmitWithContext] does on the
    handle it got. *)
Definition receive (c : chan) (w : World) : World * list Event :=
  match chans w !! c with
  | None => (w, [])
  | Some ch =>
      let '(ch', got) := recv ch in
      (mkWorld (heap w) (<[c := ch']> (chans w)) (eng w) (looping w) (sleepers w),
       match got with Some v => [EvReceived c v] | None => [] end)
  end.

(** A caller blocked on [c] returns because its context is done. *)
Definition cancel (c : chan) (w : World) : World * list Event :=
  match chans w !! c with
  | None => (w, [])
  | Some ch =>
      (mkWorld (heap w) (<[c := abandon ch]> (chans w)) (eng w) (looping w) (sleepers w),
       [])
  end.

(** What can happen next. *)
Inductive Label :=
| LEnqueue (req : option loc)
| LStop
| LLoop
| LWake (i : nat)
| LReceive (c : chan)
| LCancel (c : chan).

#[global] Instance Label_eq_dec : EqDecision Label.
Proof. solve_decision. Defined.

Definition submit_event (req : option loc) (res : option chan * option error)
  : list Event :=
  match req, res with
  | Some p, (Some c, None) => [EvSubmitted p c]
  | _, (_, Some e) => [EvRejected e]
  | _, _ => []
  end.

(** One step; [None] is a panic, which ends the program. *)
Definition step (l : Label) (w : World) : option (World * list Event) :=
  match l with
  | LEnqueue req =>
      let '(w', res) := EnqueueTransfer req w in Some (w', submit_event req res)
  | LStop => match Stop w with Some w' => Some (w', []) | None => None end
  | LLoop => Some (loop_iter w)
  | LWake i => Some (wake i w)
  | LReceive c => Some (receive c w)
  | LCancel c => Some (cancel c w)
  end.

Fixpoint run (ls : list Label) (w : World) : option (World * list Event) :=
  match ls with
  | [] => Some (w, [])
  | l :: ls' =>
      match step l w with
      | None => None
      | Some (w1, e1) =>
          match run ls' w1 with
          | None => None
          | Some (w2, e2) => Some (w2, e1 ++ e2)
          end
      end
  end.

(** Readings of a run. *)
Definition dispatch_order (evs : list Event) : list loc :=
  omap (λ e, match e with EvDispatched p _ => Some p | _ => None end) evs.

(** The requests [EnqueueTransfer] accepted, in the order of the calls. *)
Definition submitted (evs : list Event) : list loc :=
  omap (λ e, match e with EvSubmitted p _ => Some p | _ => None end) evs.

Definition signalled (evs : list Event) : list chan :=
  omap (λ e, match e with EvSignalled _ c _ => Some c | _ => None end) evs.

Definition signals_on (c : chan) (evs : list Event) : nat :=
  length (filter (λ c', c' = c) (signalled evs)).

Definition drops (evs : list Event) : list loc :=
  omap (λ e, match e with EvDropped p _ => Some p | _ => None end) evs.

(** The sends tried so far, whether they went through or not: the request
    and the channel. *)
Definition sends (evs : list Event) : list (loc * chan) :=
  omap (λ e, match e with
             | EvSignalled p c _ | EvDropped p (Some c) => Some (p, c)
             | _ => None
             end) evs.

(** The requests the engine still holds: queued, or dispatched and waiting
    for their latency to elapse. *)
Definition in_engine (w : World) : list loc :=
  pending (eng w) ++ (sleepers w).*1.

(** Callers that never submit a request the engine still holds. *)
Definition submits_once (l : Label) (w : World) : Prop :=
  match l with
  | LEnqueue (Some p) => p ∉ in_engine w
  | _ => True
  end.

(** Callers that never submit a request that is still queued. *)
Definition submits_unqueued (l : Label) (w : World) : Prop :=
  match l with
  | LEnqueue (Some p) => p ∉ pending (eng w)
  | _ => True
  end.

(** [ok] holds of every step of the run of [ls] from [w]. *)
Fixpoint throughout (ok : Label → World → Prop) (ls : list Label) (w : World) : Prop :=
  match ls with
  | [] => True
  | l :: ls' =>
      ok l w ∧ match step l w with
               | Some (w1, _) => throughout ok ls' w1
               | None => True
               end
  end.

#[global] Instance submits_once_dec l w : Decision (submits_once l w).
Proof. destruct l as [[p|]| | | | |]; cbn; apply _. Defined.

#[global] Instance submits_unqueued_dec l w : Decision (submits_unqueued l w).
Proof. destruct l as [[p|]| | | | |]; cbn; apply _. Defined.

#[global] Instance throughout_dec (ok : Label → World → Prop)
  `{∀ l w, Decision (ok l w)} ls w : Decision (throughout ok ls w).
Proof.
  revert w. induction ls as [|l ls IH]; intros w; cbn [throughout]; [apply _|].
  destruct (step l w) as [[w1 e]|]; apply _.
Defined.

(** The world and the events at the end of a run that does not panic. *)
Definition outcome (ls : list Label) (w : World) : World * list Event :=
  default (w, []) (run ls w).

(** The priority the engine reads for a queued request, and queues in
    ascending order of it. *)
Definition prio (w : World) (p : loc) : Z := Priority (heap w p).

Definition ascending (f : loc → Z) (q : list loc) : Prop :=
  StronglySorted (λ a b, f a ≤ f b) q.

(** The requests of [q] with priority [k], in the order they have in [q]. *)
Definition tier (f : loc → Z) (k : Z) (q : list loc) : list loc :=
  filter (λ p, f p = k) q.

(** The callers submit the requests [ps], in this order. *)
Definition submissions (ps : list loc) : list Label :=
  (λ p, LEnqueue (Some p)) <$> ps.

(** The dispatch loop goes round [n] times. *)
Definition iterations (n : nat) : list Label := replicate n LLoop.

(** The number of calls of [Stop] among the labels. *)
Definition stops (ls : list Label) : nat :=
  length (filter (λ l, l = LStop) ls).

(** The service time as the specification words it: the size is rounded up
    to whole MiB. *)
Definition spec_latency (e : PMEngine) (r : TransferRequest) : Z :=
  let t := interval e + ((SizeBytes r + MiB - 1) / MiB) * Millisecond in
  if Priority r <=? 0 then t / 2 else t.

(** A world that a run of a new engine can be in. *)
Definition reachable (w : World) : Prop :=
  ∃ h cs ls evs, run ls (boot h cs) = Some (w, evs).

(** The priorities are the ones of [f], the queue ascends in them, and the
    loop is alive for as long as [quit] is open. *)
Definition queue_ok (f : loc → Z) (w : World) : Prop :=
  (∀ x, prio w x = f x)
  ∧ ascending f (pending (eng w))
  ∧ (quit (eng w) = Open → looping w = true).

(** How many times [q] is in a list of requests. *)
Definition occurrences (q : loc) (l : list loc) : nat :=
  length (filter (λ x, x = q) l).

(** Requests of one priority leave in the order they came: those of
    priority [k] submitted so far are the ones of priority [k] dispatched so
    far, in this order, followed by the ones of priority [k] in the queue. *)
Definition fifo_ok (f : loc → Z) (w : World) (evs : list Event) : Prop :=
  ∀ k, tier f k (submitted evs)
       = tier f k (dispatch_order evs) ++ tier f k (pending (eng w)).

(** After a dispatch of [p], every request of smaller priority value that
    is dispatched or queued has been submitted since, as many times. *)
Definition overtakes_ok (f : loc → Z) (w : World) (evs : list Event) : Prop :=
  ∀ e1 p lat e2 q,
    evs = e1 ++ EvDispatched p lat :: e2 → f q < f p →
    (occurrences q (dispatch_order e2) + occurrences q (pending (eng w))
     ≤ occurrences q (submitted e2))%nat.

(** With [n] channels made before the engine started: every request the
    engine holds carries a channel that [EnqueueTransfer] made and returned
    for it, and every send so far was tried on such a channel. *)
Definition handles_fresh (n : nat) (w : World) (evs : list Event) : Prop :=
  (n ≤ length (chans w))%nat
  ∧ (∀ p, p ∈ in_engine w →
       ∃ c, Done (heap w p) = Some c ∧ (n ≤ c < length (chans w))%nat
            ∧ EvSubmitted p c ∈ evs)
  ∧ (∀ p c, (p, c) ∈ sends evs → (n ≤ c)%nat ∧ EvSubmitted p c ∈ evs).

(** A request the engine holds has its own channel in [Done]: capacity 1,
    nothing buffered, nothing signalled on it yet. *)
Definition held_ok (w : World) (evs : list Event) (p : loc) : Prop :=
  ∃ c ch, Done (heap w p) = Some c ∧ chans w !! c = Some ch
    ∧ cap ch = 1%nat ∧ buf ch = [] ∧ signals_on c evs = 0%nat.

(** The invariant of runs in which no request is submitted while the engine
    holds it. *)
Definition once_ok (w : World) (evs : list Event) : Prop :=
  NoDup (in_engine w)
  ∧ (∀ p, p ∈ in_engine w → held_ok w evs p)
  ∧ (∀ p x, p ∈ in_engine w → x ∈ in_engine w →
       Done (heap w p) = Done (heap w x) → p = x)
  ∧ (∀ c, (signals_on c evs ≤ 1)%nat)
  ∧ (∀ c, (length (chans w) ≤ c)%nat → signals_on c evs = 0%nat)
  ∧ drops evs = []
  ∧ (∀ p c, EvSubmitted p c ∈ evs →
       (p ∈ in_engine w ∧ Done (heap w p) = Some c) ∨ signals_on c evs = 1%nat).

(** Callers that never submit [p] while the engine still holds it; what
    they do with the other requests is open. *)
Definition submits_once_of (p : loc) (l : Label) (w : World) : Prop :=
  l = LEnqueue (Some p) → p ∉ in_engine w.

#[global] Instance submits_once_of_dec p l w : Decision (submits_once_of p l w).
Proof. unfold submits_once_of. apply _. Defined.

(** Every handle [EnqueueTransfer] has returned is a channel of the table,
    no two requests were given the same, and nothing was signalled on a
    channel that is not made yet. *)
Definition handles_unique (w : World) (evs : list Event) : Prop :=
  (∀ p c, EvSubmitted p c ∈ evs → (c < length (chans w))%nat)
  ∧ (∀ p q c, EvSubmitted p c ∈ evs → EvSubmitted q c ∈ evs → p = q)
  ∧ (∀ c, (length (chans w) ≤ c)%nat → signals_on c evs = 0%nat).

(** The invariant of one request [p] in runs in which [p] is not submitted
    while the engine holds it: the engine holds it at most once, then with
    a channel of its own that is empty and unsignalled; each handle it was
    given has had exactly one signal unless the engine still holds [p]
    under it; and no signal of [p] was dropped. *)
Definition own_ok (p : loc) (w : World) (evs : list Event) : Prop :=
  (occurrences p (in_engine w) ≤ 1)%nat
  ∧ (p ∈ in_engine w → held_ok w evs p)
  ∧ (∀ c, EvSubmitted p c ∈ evs →
       (p ∈ in_engine w ∧ Done (heap w p) = Some c) ∨ signals_on c evs = 1%nat)
  ∧ (∀ c, EvDropped p c ∉ evs).

(** ** Worlds and runs used as examples *)

(** A and B are submitted; B is dispatched; B's caller listens, then gives
    up; B's latency elapses; [Stop] is called and the loop returns with A
    still queued. *)
Definition abandon_run : list Label :=
  [LEnqueue (Some 0%nat); LEnqueue (Some 1%nat); LLoop; LReceive 1%nat;
   LCancel 1%nat; LWake 0; LStop; LLoop].

(** The example of the specification: A (priority 5), B (priority 1) and
    C (priority 1), of size 0, at locations 0, 1 and 2. *)
Definition abc_heap : loc → TransferRequest :=
  λ p, match p with
       | 0%nat => mkReq "A" 0 1 0 5 "" None
       | 1%nat => mkReq "B" 0 1 0 1 "" None
       | _ => mkReq "C" 0 1 0 1 "" None
       end.

(** One request with a channel of the caller's already in [Done]. *)
Definition preset_heap : loc → TransferRequest :=
  λ _, mkReq "tx" 0 1 4096 3 "" (Some 0%nat).

End Engine.

(** * Properties of the fragment directory *)

Section directory_facts.
Import Directory.
Implicit Types (d : FragmentDirectory) (m : FragMapping) (k : FragmentKey).

Lemma ScanForNode_filter d node :
  ScanForNode d node = filter (λ kv, NodeID kv.2 = node) (data d).
Proof. reflexivity. Qed.

Lemma lookup_ScanForNode d node k m :
  ScanForNode d node !! k = Some m ↔ data d !! k = Some m ∧ NodeID m = node.
Proof. rewrite ScanForNode_filter. apply map_lookup_filter_Some. Qed.

Lemma data_apply_op d o k :
  data (apply_op d o) !! k =
    match o with
    | OpInstall vpn idx m => if decide (mkKey vpn idx = k) then Some m else data d !! k
    | OpRemove vpn idx => if decide (mkKey vpn idx = k) then None else data d !! k
    end.
Proof.
  destruct o as [vpn idx m|vpn idx]; simpl; case_decide; subst.
  - by rewrite lookup_insert_eq.
  - by rewrite lookup_insert_ne.
  - by rewrite lookup_delete_eq.
  - by rewrite lookup_delete_ne.
Qed.

(** The stored mapping of a key is the one its history says was installed
    last and not removed since. *)
Lemma data_replay ops k :
  data (replay ops) !! k = most_recently_installed ops k.
Proof.
  unfold replay, most_recently_installed.
  induction ops as [|o ops IH] using rev_ind; [done|].
  rewrite fold_left_app, rev_app_distr. simpl.
  rewrite data_apply_op.
  destruct o as [vpn idx m|vpn idx]; simpl; case_decide; try done;
    by rewrite IH.
Qed.

End directory_facts.

(** C8. [Install] then [Lookup] on the same key returns the installed
    mapping and [true], whatever the directory held for the key before;
    [Remove] then [Lookup] returns not-found (with the zero mapping); and
    [Remove] of a key that is absent leaves the directory as it was. *)
Theorem install_lookup_remove
  (d : Directory.FragmentDirectory) (vpn idx : Z) (m : Directory.FragMapping) :
  Directory.Lookup (Directory.Install d vpn idx m) vpn idx = (m, true)
  ∧ Directory.Lookup (Directory.Remove d vpn idx) vpn idx
    = (Directory.zero_mapping, false)
  ∧ ((Directory.Lookup d vpn idx).2 = false → Directory.Remove d vpn idx = d).
Proof.
  unfold Directory.Lookup, Directory.Install, Directory.Remove. simpl.
  rewrite lookup_insert_eq, lookup_delete_eq. split_and!; [done..|].
  destruct d as [dat]. simpl.
  destruct (dat !! _) eqn:E; simpl; [done|].
  intros _. f_equal. by apply delete_id.
Qed.

(** The example of the specification, and a removal of a key that was never
    installed. *)
Lemma install_lookup_remove_witness :
  let d := Directory.NewFragmentDirectory in
  let m := Directory.mkMapping 3 43981 4096 false 0 0 in
  Directory.Lookup (Directory.Install d 4096 2 m) 4096 2 = (m, true)
  ∧ (Directory.Lookup d 4096 2).2 = false
  ∧ Directory.Remove d 4096 2 = d.
Proof.
  pose proof (install_lookup_remove Directory.NewFragmentDirectory 4096 2
                (Directory.mkMapping 3 43981 4096 false 0 0)) as (H1 & _ & H3).
  split; [exact H1|]. split; [reflexivity|]. apply H3. reflexivity.
Defined.

(** C9. For every directory state, [ScanForNode n] holds the pair [(k, m)]
    exactly when the directory maps [k] to [m] and [m]'s node is [n]; and
    after any history of [Install] and [Remove] calls that is exactly when
    [m] is the mapping most recently installed for [k] (and not removed
    since) and [m]'s node is [n]. *)
Theorem scan_for_node_exact
  (d : Directory.FragmentDirectory) (ops : list Directory.Op) (n : Z)
  (k : Directory.FragmentKey) (m : Directory.FragMapping) :
  (Directory.ScanForNode d n !! k = Some m
   ↔ Directory.data d !! k = Some m ∧ Directory.NodeID m = n)
  ∧ (Directory.ScanForNode (Directory.replay ops) n !! k = Some m
     ↔ Directory.most_recently_installed ops k = Some m ∧ Directory.NodeID m = n).
Proof.
  split; [apply lookup_ScanForNode|].
  by rewrite lookup_ScanForNode, data_replay.
Qed.

(** A scan after two installs on one key, on different nodes, and a removal
    of another key. *)
Example scan_for_node_example :
  let ops := [Directory.OpInstall 4096 2 (Directory.mkMapping 3 43981 4096 false 0 0);
              Directory.OpInstall 4096 3 (Directory.mkMapping 3 1 256 false 0 0);
              Directory.OpInstall 4096 2 (Directory.mkMapping 5 43981 4096 false 0 0);
              Directory.OpInstall 8192 0 (Directory.mkMapping 3 2 256 true 9 1);
              Directory.OpRemove 8192 0] in
  map_to_list (Directory.ScanForNode (Directory.replay ops) 3)
  = [(Directory.mkKey 4096 3, Directory.mkMapping 3 1 256 false 0 0)].
Proof. vm_compute. reflexivity. Qed.

(** * Properties of the transfer engine *)

Import Engine.

(** ** The insertion loop *)

Section sift_facts.
Variable f : loc → Z.
Implicit Types (q a b : list loc) (x y p : loc).

(** The loop started at the new element [x] moves it left past the longest
    run of strictly larger priorities, and changes nothing else. *)
Lemma sift_middle q x tl :
  ∃ a b, q = a ++ b
    ∧ sift f (length q) (q ++ x :: tl) = a ++ x :: b ++ tl
    ∧ Forall (λ y, f x < f y) b
    ∧ (∀ a' y, a = a' ++ [y] → f y ≤ f x).
Proof.
  revert tl. induction q as [|y q IH] using rev_ind; intros tl.
  - exists [], []. repeat split; [constructor|]. by intros [] ?.
  - rewrite length_app, Nat.add_1_r. cbn [sift].
    assert (((q ++ [y]) ++ x :: tl) !! S (length q) = Some x) as ->.
    { replace (S (length q)) with (length (q ++ [y]))
        by (rewrite length_app; simpl; lia).
      apply list_lookup_middle. done. }
    rewrite <- app_assoc. cbn [app].
    rewrite (list_lookup_middle q (x :: tl) y (length q) eq_refl).
    destruct (f x <? f y) eqn:E.
    + apply Z.ltb_lt in E.
      rewrite (insert_app_r_alt q _ (S (length q))) by lia.
      replace (S (length q) - length q)%nat with 1%nat by lia. cbn [insert list_insert].
      rewrite (insert_app_r_alt q _ (length q)) by lia.
      rewrite Nat.sub_diag. cbn [insert list_insert].
      destruct (IH (y :: tl)) as (a & b & -> & -> & Hb & Ha).
      exists a, (b ++ [y]). rewrite <- !app_assoc. repeat split; [|done].
      apply Forall_app. split; [done|]. by constructor.
    + apply Z.ltb_ge in E.
      exists (q ++ [y]), []. rewrite <- !app_assoc. repeat split; [constructor|].
      intros a' y' [_ ->]%app_inj_tail. done.
Qed.

End sift_facts.

(** ** What a submission does to the queue *)

Section enqueue_facts.
Implicit Types (w : World) (q a b : list loc) (p x y : loc).

Lemma Priority_set_Done w p c x :
  Priority ((<[p := set_Done (heap w p) c]> (heap w)) x) = prio w x.
Proof.
  unfold prio. destruct (decide (p = x)) as [->|Hne].
  - by rewrite fn_lookup_insert.
  - by rewrite fn_lookup_insert_ne.
Qed.

(** The new queue is the old one with [p] put after every request of lower
    or equal priority and before every request of higher priority value. *)
Lemma EnqueueTransfer_pending w p :
  ∃ a b, pending (eng w) = a ++ b
    ∧ pending (eng (EnqueueTransfer (Some p) w).1) = a ++ p :: b
    ∧ Forall (λ y, prio w p < prio w y) b
    ∧ (∀ a' y, a = a' ++ [y] → prio w y ≤ prio w p).
Proof.
  cbn [EnqueueTransfer fst eng pending].
  rewrite length_app, Nat.add_1_r, Nat.sub_succ, Nat.sub_0_r.
  destruct (sift_middle
              (λ x, Priority ((<[p := set_Done (heap w p) (Some (length (chans w)))]>
                                 (heap w)) x))
              (pending (eng w)) p []) as (a & b & Hq & Hs & Hb & Ha).
  exists a, b. rewrite Hs, app_nil_r. split_and!; [done..| |].
  - eapply Forall_impl; [exact Hb|]. intros y. cbn beta.
    by rewrite !Priority_set_Done.
  - intros a' y E. specialize (Ha a' y E). cbn beta in Ha.
    by rewrite !Priority_set_Done in Ha.
Qed.

(** The handle returned is the channel just made. *)
Lemma EnqueueTransfer_result w p :
  (EnqueueTransfer (Some p) w).2 = (Some (length (chans w)), None).
Proof. cbn [EnqueueTransfer snd]. by rewrite fn_lookup_insert. Qed.

Lemma dispatch_order_submit_event req res :
  dispatch_order (submit_event req res) = [].
Proof. by destruct req, res as [[?|] [?|]]. Qed.

Lemma EnqueueTransfer_heap_prio w p x :
  prio (EnqueueTransfer (Some p) w).1 x = prio w x.
Proof. unfold prio at 1. cbn [EnqueueTransfer fst heap]. apply Priority_set_Done. Qed.

Lemma EnqueueTransfer_perm w p :
  pending (eng (EnqueueTransfer (Some p) w).1) ≡ₚ pending (eng w) ++ [p].
Proof.
  destruct (EnqueueTransfer_pending w p) as (a & b & -> & -> & _).
  rewrite <- app_assoc. apply Permutation_app_head.
  rewrite Permutation_app_comm. done.
Qed.

Lemma EnqueueTransfer_length w p :
  length (pending (eng (EnqueueTransfer (Some p) w).1))
  = S (length (pending (eng w))).
Proof.
  destruct (EnqueueTransfer_pending w p) as (a & b & -> & -> & _).
  rewrite !length_app. simpl. lia.
Qed.

Lemma ascending_all_le f a y x :
  ascending f (a ++ [y]) → f y ≤ f x → ∀ z, z ∈ a ++ [y] → f z ≤ f x.
Proof.
  intros Hs Hy z [Hz|Hz]%elem_of_app.
  - pose proof (StronglySorted_app_1_elem_of _ _ _ z y Hs Hz) as H.
    cbn beta in H. specialize (H ltac:(set_solver)). lia.
  - apply list_elem_of_singleton in Hz as ->. done.
Qed.

Lemma EnqueueTransfer_ascending w p :
  ascending (prio w) (pending (eng w)) →
  ascending (prio w) (pending (eng (EnqueueTransfer (Some p) w).1)).
Proof.
  destruct (EnqueueTransfer_pending w p) as (a & b & -> & -> & Hb & Ha).
  unfold ascending. rewrite !StronglySorted_app, StronglySorted_cons.
  intros (Hab & Hsa & Hsb). split_and!; [|done| |done].
  - intros x1 x2 H1 [->|H2]%elem_of_cons; [|by apply Hab].
    destruct a as [|y a' _] using rev_ind; [set_solver|].
    eapply (ascending_all_le (prio w)); [exact Hsa| |done].
    by eapply Ha.
  - eapply Forall_impl; [exact Hb|]. cbn beta. intros; lia.
Qed.

Lemma EnqueueTransfer_tier w p k :
  tier (prio w) k (pending (eng (EnqueueTransfer (Some p) w).1))
  = tier (prio w) k (pending (eng w) ++ [p]).
Proof.
  destruct (EnqueueTransfer_pending w p) as (a & b & -> & -> & Hb & _).
  unfold tier. rewrite !filter_app, filter_cons, filter_cons, filter_nil.
  case_decide as Hk; [|by rewrite app_nil_r].
  assert (filter (λ x, prio w x = k) b = []) as ->; [|by rewrite app_nil_r].
  induction Hb as [|y b Hy _ IH]; [done|].
  rewrite filter_cons. case_decide; [lia|done].
Qed.

Lemma EnqueueTransfer_NoDup w p :
  p ∉ pending (eng w) → NoDup (pending (eng w)) →
  NoDup (pending (eng (EnqueueTransfer (Some p) w).1)).
Proof.
  intros Hp Hnd. rewrite EnqueueTransfer_perm.
  apply NoDup_app. split_and!; [done| |apply NoDup_singleton].
  intros x Hx ->%list_elem_of_singleton. done.
Qed.

End enqueue_facts.

(** ** Runs and their invariants *)

Section run_facts.
Implicit Types (w : World) (l : Label) (ls : list Label) (evs e : list Event).

Lemma run_app ls1 ls2 w :
  run (ls1 ++ ls2) w =
    match run ls1 w with
    | Some (w1, e1) =>
        match run ls2 w1 with
        | Some (w2, e2) => Some (w2, e1 ++ e2)
        | None => None
        end
    | None => None
    end.
Proof.
  revert w. induction ls1 as [|l ls1 IH]; intros w; cbn [run app].
  - by destruct (run ls2 w) as [[w2 e2]|].
  - destruct (step l w) as [[w1 e1]|]; [|done].
    rewrite IH. destruct (run ls1 w1) as [[w2 e2]|]; [|done].
    destruct (run ls2 w2) as [[w3 e3]|]; [|done].
    by rewrite app_assoc.
Qed.

(** An invariant of the steps that callers satisfying [ok] allow is an
    invariant of their runs; the invariant may speak of the events so far. *)
Lemma run_invariant (ok : Label → World → Prop) (I : World → list Event → Prop) :
  (∀ l w evs w' e, I w evs → ok l w → step l w = Some (w', e) → I w' (evs ++ e)) →
  ∀ ls w evs w' e,
    I w evs → throughout ok ls w → run ls w = Some (w', e) → I w' (evs ++ e).
Proof.
  intros Hstep. induction ls as [|l ls IH]; intros w evs w' e HI Hok Hrun.
  - cbn in Hrun. injection Hrun as <- <-. by rewrite app_nil_r.
  - cbn [run] in Hrun. cbn [throughout] in Hok. destruct Hok as [Hl Hok].
    destruct (step l w) as [[w1 e1]|] eqn:Es; [|done].
    destruct (run ls w1) as [[w2 e2]|] eqn:Er; [|done].
    injection Hrun as <- <-. rewrite app_assoc.
    eapply IH; [|done..]. by eapply Hstep.
Qed.

Lemma throughout_True ls w : throughout (λ _ _, True) ls w.
Proof.
  revert w. induction ls as [|l ls IH]; intros w; cbn; [done|].
  split; [done|]. by destruct (step l w) as [[??]|].
Qed.

Lemma run_invariant_plain (I : World → Prop) :
  (∀ l w w' e, I w → step l w = Some (w', e) → I w') →
  ∀ ls w w' e, I w → run ls w = Some (w', e) → I w'.
Proof.
  intros Hstep ls w w' e HI Hrun.
  eapply (run_invariant (λ _ _, True) (λ w _, I w) (λ l w _ w' e HI _ Hs, Hstep l w w' e HI Hs)
            ls w [] w' e HI (throughout_True ls w) Hrun).
Qed.

End run_facts.

(** ** What each step leaves alone *)

Section frame_facts.
Implicit Types (w : World) (l : Label).

Lemma some_pair_inv {A B} (x : A * B) (a : A) (b : B) :
  Some x = Some (a, b) → a = x.1 ∧ b = x.2.
Proof. by intros [= ->]. Qed.

Lemma step_enqueue req w :
  step (LEnqueue req) w
  = Some ((EnqueueTransfer req w).1, submit_event req (EnqueueTransfer req w).2).
Proof. unfold step. by destruct (EnqueueTransfer req w). Qed.

Lemma wake_frame i w :
  heap (wake i w).1 = heap w ∧ eng (wake i w).1 = eng w
  ∧ looping (wake i w).1 = looping w.
Proof.
  unfold wake. destruct (sleepers w !! i) as [[r lat]|]; [|done].
  destruct (Done (heap w r)) as [c|]; [|done].
  destruct (chans w !! c) as [ch|]; [|done].
  by destruct (try_send ch None) as [[ch' d]|].
Qed.

Lemma receive_frame c w :
  heap (receive c w).1 = heap w ∧ eng (receive c w).1 = eng w
  ∧ looping (receive c w).1 = looping w
  ∧ sleepers (receive c w).1 = sleepers w.
Proof.
  unfold receive. destruct (chans w !! c) as [ch|]; [|done].
  by destruct (recv ch).
Qed.

Lemma cancel_frame c w :
  heap (cancel c w).1 = heap w ∧ eng (cancel c w).1 = eng w
  ∧ looping (cancel c w).1 = looping w
  ∧ sleepers (cancel c w).1 = sleepers w.
Proof. unfold cancel. by destruct (chans w !! c) as [ch|]. Qed.

Lemma loop_iter_heap w : heap (loop_iter w).1 = heap w.
Proof.
  unfold loop_iter. destruct (looping w); [|done].
  destruct (quit (eng w)); [|done]. by destruct (pending (eng w)).
Qed.

(** No step changes the priority of a request. *)
Lemma step_prio l w w' e x : step l w = Some (w', e) → prio w' x = prio w x.
Proof.
  unfold prio. destruct l as [[p|]| | |i|c|c];
    [rewrite step_enqueue..|cbn [step]|cbn [step]|cbn [step]|cbn [step]|cbn [step]].
  - intros [-> _]%some_pair_inv. apply EnqueueTransfer_heap_prio.
  - by intros [-> _]%some_pair_inv.
  - unfold Stop. destruct (quit (eng w)); [|done]. by intros [= <- _].
  - intros [-> _]%some_pair_inv. by rewrite loop_iter_heap.
  - intros [-> _]%some_pair_inv. by destruct (wake_frame i w) as (-> & _).
  - intros [-> _]%some_pair_inv. by destruct (receive_frame c w) as (-> & _).
  - intros [-> _]%some_pair_inv. by destruct (cancel_frame c w) as (-> & _).
Qed.

End frame_facts.

(** ** The queue stays in priority order *)

Section queue_facts.
Variable f : loc → Z.
Implicit Types (w : World) (l : Label).

Lemma ascending_ext (g : loc → Z) q :
  (∀ x, g x = f x) → ascending g q → ascending f q.
Proof.
  intros Hg. unfold ascending. induction 1 as [|x q _ IH Hx]; constructor; [done|].
  eapply Forall_impl; [exact Hx|]. intros y. cbn beta. by rewrite !Hg.
Qed.

Lemma ascending_ext_rev (g : loc → Z) q :
  (∀ x, g x = f x) → ascending f q → ascending g q.
Proof.
  intros Hg. unfold ascending. induction 1 as [|x q _ IH Hx]; constructor; [done|].
  eapply Forall_impl; [exact Hx|]. intros y. cbn beta. by rewrite !Hg.
Qed.

Lemma step_queue_ok l w w' e :
  queue_ok f w → step l w = Some (w', e) → queue_ok f w'.
Proof.
  intros (Hp & Hs & Hl) Hstep.
  assert (∀ x, prio w' x = f x) as Hp'.
  { intros x. by rewrite (step_prio _ _ _ _ x Hstep). }
  split; [done|]. clear Hp'.
  destruct l as [[p|]| | |i|c|c];
    [rewrite step_enqueue in Hstep..|cbn [step] in Hstep|cbn [step] in Hstep
    |cbn [step] in Hstep|cbn [step] in Hstep|cbn [step] in Hstep].
  - apply some_pair_inv in Hstep as [-> _]. split; [|done].
    apply (ascending_ext (prio w)); [done|].
    apply EnqueueTransfer_ascending. by apply ascending_ext_rev.
  - by apply some_pair_inv in Hstep as [-> _].
  - unfold Stop in Hstep. destruct (quit (eng w)); [|done].
    by injection Hstep as <- _.
  - apply some_pair_inv in Hstep as [-> _].
    unfold loop_iter. destruct (looping w) eqn:El; [|cbn; rewrite El; auto].
    destruct (quit (eng w)) eqn:Eq.
    + destruct (pending (eng w)) as [|req rest] eqn:Eq'; cbn.
      * rewrite Eq', El. auto.
      * split; [|done].
        by apply StronglySorted_cons in Hs as [_ ?].
    + cbn. rewrite Eq. split; [done|]. intros; congruence.
  - apply some_pair_inv in Hstep as [-> _].
    by destruct (wake_frame i w) as (_ & -> & ->).
  - apply some_pair_inv in Hstep as [-> _].
    by destruct (receive_frame c w) as (_ & -> & -> & _).
  - apply some_pair_inv in Hstep as [-> _].
    by destruct (cancel_frame c w) as (_ & -> & -> & _).
Qed.

End queue_facts.

(** ** Submitting a batch and draining the queue *)

Section batch_facts.
Variable f : loc → Z.
Implicit Types (w : World) (ps q : list loc).

Lemma tier_ext (g : loc → Z) k q : (∀ x, g x = f x) → tier g k q = tier f k q.
Proof.
  intros Hg. unfold tier. induction q as [|x q IH]; [done|].
  rewrite !filter_cons, IH, Hg. done.
Qed.

Lemma tier_app k q ps : tier f k (q ++ ps) = tier f k q ++ tier f k ps.
Proof. apply filter_app. Qed.

Lemma reachable_queue_ok w : reachable w → queue_ok (prio w) w.
Proof.
  intros (h & cs & ls & evs & Hrun).
  assert (queue_ok (λ x, Priority (h x)) w) as (Hp & Hs & Hl).
  { eapply (run_invariant_plain (queue_ok (λ x, Priority (h x)))); [|..|exact Hrun].
    - intros l w1 w2 e. apply step_queue_ok.
    - split_and!; [done|constructor|done]. }
  split_and!; [done| |done].
  eapply ascending_ext_rev; [|exact Hs]. done.
Qed.

(** Submitting [ps] only changes the queue (and the handles): it dispatches
    nothing, and the queue it leaves holds the old queue and [ps], ascending
    if it was, each priority tier in the order old queue, then [ps]. *)
Lemma run_submissions ps w :
  (∀ x, prio w x = f x) →
  ∃ w' evs,
    run (submissions ps) w = Some (w', evs)
    ∧ dispatch_order evs = []
    ∧ quit (eng w') = quit (eng w) ∧ looping w' = looping w
    ∧ (∀ x, prio w' x = f x)
    ∧ pending (eng w') ≡ₚ pending (eng w) ++ ps
    ∧ (ascending f (pending (eng w)) → ascending f (pending (eng w')))
    ∧ ∀ k, tier f k (pending (eng w')) = tier f k (pending (eng w) ++ ps).
Proof.
  revert w. induction ps as [|p ps IH]; intros w Hp.
  - exists w, []. rewrite app_nil_r. by split_and!.
  - set (w1 := (EnqueueTransfer (Some p) w).1).
    assert (∀ x, prio w1 x = f x) as Hp1.
    { intros x. unfold w1. by rewrite EnqueueTransfer_heap_prio. }
    destruct (IH w1 Hp1) as (w' & evs & Hrun & Hd & Hq & Hl & Hp' & Hperm & Hasc & Htier).
    exists w', (submit_event (Some p) (EnqueueTransfer (Some p) w).2 ++ evs).
    split_and!; [| |by rewrite Hq|by rewrite Hl|done| | |].
    + change (submissions (p :: ps)) with (LEnqueue (Some p) :: submissions ps).
      cbn [run]. rewrite step_enqueue. fold w1. by rewrite Hrun.
    + unfold dispatch_order. rewrite omap_app.
      fold (dispatch_order evs). rewrite Hd, app_nil_r.
      apply dispatch_order_submit_event.
    + rewrite Hperm. unfold w1. rewrite EnqueueTransfer_perm.
      by rewrite <- app_assoc.
    + intros Hs. apply Hasc. unfold w1.
      apply (ascending_ext f (prio w)); [done|].
      apply EnqueueTransfer_ascending.
      by apply (ascending_ext_rev f (prio w)).
    + intros k. rewrite Htier, !tier_app.
      rewrite <- (tier_ext (prio w) k (pending (eng w1)) Hp). unfold w1.
      rewrite EnqueueTransfer_tier, (tier_ext (prio w) k _ Hp), tier_app.
      change (p :: ps) with ([p] ++ ps). by rewrite tier_app, <- app_assoc.
Qed.

(** With [quit] open, as many iterations as the queue is long dispatch the
    queue from its head to its end. *)
Lemma run_iterations q w :
  looping w = true → quit (eng w) = Open → pending (eng w) = q →
  ∃ w' evs,
    run (iterations (length q)) w = Some (w', evs)
    ∧ dispatch_order evs = q ∧ pending (eng w') = [].
Proof.
  revert w. induction q as [|p q IH]; intros w Hl Hq Hpend.
  - exists w, []. done.
  - cbn [length iterations replicate run step].
    unfold loop_iter. rewrite Hl, Hq, Hpend.
    edestruct (IH (mkWorld (heap w) (chans w)
                     (mkEngine q (active (eng w)) Open (interval (eng w)))
                     true (sleepers w ++ [(p, service_latency (eng w) (heap w p))])))
      as (w' & evs & Hrun & Hd & He); [done..|].
    fold (iterations (length q)). rewrite Hrun.
    eexists _, _. split; [done|]. split; [|done].
    change (p :: dispatch_order evs = p :: q). by rewrite Hd.
Qed.

End batch_facts.

(** ** The order of dispatch in any run *)

Section order_facts.
Implicit Types (w : World) (l : Label) (evs e : list Event) (q p : loc).

Lemma submitted_app evs e : submitted (evs ++ e) = submitted evs ++ submitted e.
Proof. apply omap_app. Qed.

Lemma dispatch_order_app evs e :
  dispatch_order (evs ++ e) = dispatch_order evs ++ dispatch_order e.
Proof. apply omap_app. Qed.

Lemma occurrences_app q (a b : list loc) :
  occurrences q (a ++ b) = (occurrences q a + occurrences q b)%nat.
Proof. unfold occurrences. by rewrite filter_app, length_app. Qed.

Lemma occurrences_cons q x (a : list loc) :
  occurrences q (x :: a) = ((if decide (x = q) then 1 else 0) + occurrences q a)%nat.
Proof. unfold occurrences. rewrite filter_cons. by case_decide. Qed.

Lemma occurrences_perm q (a b : list loc) : a ≡ₚ b → occurrences q a = occurrences q b.
Proof. intros H. unfold occurrences. by rewrite H. Qed.

Lemma occurrences_pos q (a : list loc) : q ∈ a ↔ (0 < occurrences q a)%nat.
Proof.
  induction a as [|x a IH]; [by split; [intros ?%elem_of_nil|cbn; lia]|].
  rewrite occurrences_cons, elem_of_cons, IH. case_decide; [|lia].
  split; [lia|]. intros _. by left.
Qed.

(** Where a dispatch event lies when the events are those of a run so far
    followed by those of one more step. *)
Lemma split_at_dispatch evs e e1 p lat e2 :
  evs ++ e = e1 ++ EvDispatched p lat :: e2 →
  (∃ e2', evs = e1 ++ EvDispatched p lat :: e2' ∧ e2 = e2' ++ e)
  ∨ (∃ e0, e1 = evs ++ e0 ∧ e = e0 ++ EvDispatched p lat :: e2).
Proof.
  revert e1. induction evs as [|a evs IH]; intros e1 H.
  - right. by exists e1.
  - destruct e1 as [|a' e1]; cbn in H; injection H as -> H.
    + left. by exists evs.
    + destruct (IH e1 H) as [(e2' & -> & ->)|(e0 & -> & ->)].
      * left. by exists e2'.
      * right. by exists e0.
Qed.

Section with_priorities.
Variable f : loc → Z.

Lemma fifo_ok_silent w w' evs e :
  fifo_ok f w evs → pending (eng w') = pending (eng w) →
  submitted e = [] → dispatch_order e = [] → fifo_ok f w' (evs ++ e).
Proof.
  intros H Hp Hs Hd k.
  by rewrite submitted_app, dispatch_order_app, Hs, Hd, !app_nil_r, Hp.
Qed.

Lemma overtakes_ok_step w w' evs e :
  overtakes_ok f w evs →
  (∀ q, (occurrences q (dispatch_order e) + occurrences q (pending (eng w'))
         ≤ occurrences q (submitted e) + occurrences q (pending (eng w)))%nat) →
  (∀ e0 p lat e2 q, e = e0 ++ EvDispatched p lat :: e2 → f q < f p →
     (occurrences q (dispatch_order e2) + occurrences q (pending (eng w'))
      ≤ occurrences q (submitted e2))%nat) →
  overtakes_ok f w' (evs ++ e).
Proof.
  intros H Hbal Hnew e1 p lat e2 q Heq Hq.
  apply split_at_dispatch in Heq as [(e2' & -> & ->)|(e0 & -> & ->)].
  - rewrite dispatch_order_app, submitted_app, !occurrences_app.
    specialize (H e1 p lat e2' q eq_refl Hq). specialize (Hbal q). lia.
  - by eapply Hnew.
Qed.

Lemma overtakes_ok_silent w w' evs e :
  overtakes_ok f w evs → pending (eng w') = pending (eng w) →
  submitted e = [] → dispatch_order e = [] → overtakes_ok f w' (evs ++ e).
Proof.
  intros H Hp Hs Hd. apply (overtakes_ok_step w); [done|..].
  - intros q. rewrite Hp, Hs, Hd. cbn. lia.
  - intros e0 p lat e2 q ->. rewrite dispatch_order_app in Hd.
    by apply app_eq_nil in Hd as [_ ?].
Qed.

(** What the events of a step that is no submission and no dispatch are. *)
Lemma quiet_steps l w w' e :
  (∀ p, l ≠ LEnqueue (Some p)) → l ≠ LLoop → step l w = Some (w', e) →
  pending (eng w') = pending (eng w) ∧ submitted e = [] ∧ dispatch_order e = [].
Proof.
  intros Hl1 Hl2 Hstep.
  destruct l as [[p|]| | |i|c|c];
    [by destruct (Hl1 p)|rewrite step_enqueue in Hstep|cbn [step] in Hstep
    |done|cbn [step] in Hstep|cbn [step] in Hstep|cbn [step] in Hstep].
  - by apply some_pair_inv in Hstep as [-> ->].
  - unfold Stop in Hstep. destruct (quit (eng w)); [|done].
    by injection Hstep as <- <-.
  - apply some_pair_inv in Hstep as [-> ->].
    destruct (wake_frame i w) as (_ & -> & _). split; [done|].
    unfold wake. destruct (sleepers w !! i) as [[r lat]|]; [|done].
    destruct (Done (heap w r)) as [c|]; [|done].
    destruct (chans w !! c) as [ch|]; [|done].
    by destruct (try_send ch None) as [[ch' d]|].
  - apply some_pair_inv in Hstep as [-> ->].
    destruct (receive_frame c w) as (_ & -> & _). split; [done|].
    unfold receive. destruct (chans w !! c) as [ch|]; [|done].
    by destruct (recv ch) as [ch' [v|]].
  - apply some_pair_inv in Hstep as [-> ->].
    destruct (cancel_frame c w) as (_ & -> & _). split; [done|].
    unfold Engine.cancel. by destruct (chans w !! c).
Qed.

Lemma step_order_ok l w evs w' e :
  queue_ok f w ∧ fifo_ok f w evs ∧ overtakes_ok f w evs →
  step l w = Some (w', e) →
  queue_ok f w' ∧ fifo_ok f w' (evs ++ e) ∧ overtakes_ok f w' (evs ++ e).
Proof.
  intros (HQ & HF & HO) Hstep.
  split; [by eapply step_queue_ok|].
  destruct HQ as (Hp & Hs & _).
  destruct (decide (l = LLoop)) as [->|Hloop].
  - cbn [step] in Hstep. apply some_pair_inv in Hstep as [-> ->].
    unfold loop_iter.
    destruct (looping w); [|by split; [apply (fifo_ok_silent w)|apply (overtakes_ok_silent w)]].
    destruct (quit (eng w));
      [|by split; [apply (fifo_ok_silent w)|apply (overtakes_ok_silent w)]].
    destruct (pending (eng w)) as [|req rest] eqn:E;
      [by split; [apply (fifo_ok_silent w)|apply (overtakes_ok_silent w)]|].
    cbn [fst snd]. split.
    + intros k. specialize (HF k). rewrite E in HF.
      rewrite submitted_app, dispatch_order_app. cbn [eng pending].
      change (submitted [EvDispatched req _]) with (@nil loc).
      change (dispatch_order [EvDispatched req ?lat]) with [req].
      rewrite app_nil_r, HF. unfold tier.
      change (req :: rest) with ([req] ++ rest).
      by rewrite !filter_app, <- app_assoc.
    + apply (overtakes_ok_step w); [done|..]; cbn [eng pending].
      * intros q. rewrite E.
        change (submitted [EvDispatched req _]) with (@nil loc).
        change (dispatch_order [EvDispatched req ?lat]) with [req].
        rewrite !occurrences_cons. cbn. lia.
      * intros e0 p lat e2 q Heq Hq.
        destruct e0 as [|a [|??]]; [|by destruct e2|by destruct e2].
        injection Heq as <- <- <-. cbn.
        assert (q ∉ rest) as Hnot.
        { intros Hin. apply StronglySorted_cons in Hs as [Hhd _].
          pose proof (proj1 (Forall_forall _ _) Hhd q Hin) as Hle.
          cbn beta in Hle. lia. }
        apply (not_iff_compat (occurrences_pos q rest)) in Hnot. lia.
  - destruct l as [[p|]| | |i|c|c];
      [rewrite step_enqueue in Hstep
      |eapply quiet_steps in Hstep as (? & ? & ?); [|done..];
       by split; [apply (fifo_ok_silent w)|apply (overtakes_ok_silent w)]..].
    apply some_pair_inv in Hstep as [-> ->]. cbn [fst snd].
    rewrite EnqueueTransfer_result. cbn [submit_event]. split.
    + intros k. rewrite submitted_app, dispatch_order_app.
      change (submitted [EvSubmitted p _]) with [p].
      change (dispatch_order [EvSubmitted p _]) with (@nil loc).
      rewrite app_nil_r, <- (tier_ext f (prio w) k (pending _) Hp).
      rewrite EnqueueTransfer_tier, (tier_ext f (prio w) k _ Hp).
      rewrite !tier_app, (HF k). by rewrite <- app_assoc.
    + apply (overtakes_ok_step w); [done|..].
      * intros q. rewrite (occurrences_perm q _ _ (EnqueueTransfer_perm w p)).
        rewrite occurrences_app.
        change (submitted [EvSubmitted p _]) with [p].
        change (dispatch_order [EvSubmitted p _]) with (@nil loc). cbn. lia.
      * intros e0 p' lat e2 q Heq.
        destruct e0 as [|a [|??]]; [done|by destruct e2|by destruct e2].
Qed.

End with_priorities.

Lemma run_order_ok h cs ls w evs :
  run ls (boot h cs) = Some (w, evs) →
  queue_ok (λ x, Priority (h x)) w
  ∧ fifo_ok (λ x, Priority (h x)) w evs
  ∧ overtakes_ok (λ x, Priority (h x)) w evs.
Proof.
  intros Hrun.
  apply (run_invariant (λ _ _, True)
           (λ w evs, queue_ok (λ x, Priority (h x)) w
                     ∧ fifo_ok (λ x, Priority (h x)) w evs
                     ∧ overtakes_ok (λ x, Priority (h x)) w evs)
           (λ l w evs w' e HI _, step_order_ok _ l w evs w' e HI)
           ls (boot h cs) [] w evs); [|apply throughout_True|done].
  split_and!.
  - split_and!; [done|constructor|done].
  - intros k. done.
  - intros e1 p lat e2 q Heq. by destruct e1.
Qed.

End order_facts.

(** C1, as the code has it. In every run of a new engine, whatever the
    interleaving of submissions and loop iterations: priorities are the ones
    the callers set; the request the loop removes next is the head of the
    queue, of least priority value among the requests queued at that moment;
    requests of one priority value are dispatched in the order they were
    submitted (those dispatched so far, then those still queued, are the
    ones submitted, in this order); and a request is dispatched after one of
    greater priority value only if it was submitted after that one was
    dispatched. So requests that are in the queue together leave in
    ascending order of priority value, equal ones in submission order: with
    [quit] open, the queued requests followed by any requests [ps] submitted
    next, before the loop goes round again, are dispatched as a permutation
    of them that ascends and has every priority tier in the order
    queued-then-submitted. *)
Theorem dispatch_in_priority_order
  (h : loc → TransferRequest) (cs : list Chan) (ls : list Label)
  (w : World) (evs : list Event) (ps : list loc) :
  run ls (boot h cs) = Some (w, evs) →
  (∀ x, prio w x = Priority (h x))
  ∧ (∀ p lat, (loop_iter w).2 = [EvDispatched p lat] →
       head (pending (eng w)) = Some p
       ∧ ∀ q, q ∈ pending (eng w) → prio w p ≤ prio w q)
  ∧ (∀ k, tier (prio w) k (submitted evs)
          = tier (prio w) k (dispatch_order evs) ++ tier (prio w) k (pending (eng w)))
  ∧ (∀ e1 p lat e2 q,
       evs = e1 ++ EvDispatched p lat :: e2 →
       q ∈ dispatch_order e2 → prio w q < prio w p → q ∈ submitted e2)
  ∧ (quit (eng w) = Open →
     ∃ w' evs',
       run (submissions ps ++ iterations (length (pending (eng w)) + length ps)) w
         = Some (w', evs')
       ∧ dispatch_order evs' ≡ₚ pending (eng w) ++ ps
       ∧ ascending (prio w) (dispatch_order evs')
       ∧ ∀ k, tier (prio w) k (dispatch_order evs')
              = tier (prio w) k (pending (eng w) ++ ps)).
Proof.
  intros Hrun.
  destruct (run_order_ok h cs ls w evs Hrun) as ((Hp & Hs & Hl) & HF & HO).
  apply (ascending_ext_rev _ (prio w) _ Hp) in Hs.
  split_and!; [done| | | |].
  - intros p lat. unfold loop_iter. destruct (looping w); [|done].
    destruct (quit (eng w)); [|by intros [=]].
    destruct (pending (eng w)) as [|hd tl]; [done|]. intros [= <- _].
    split; [done|]. apply StronglySorted_cons in Hs as [Hhd _].
    intros q [->|Hq']%elem_of_cons; [lia|].
    by eapply (proj1 (Forall_forall _ _) Hhd).
  - intros k. rewrite !(tier_ext _ (prio w) k _ Hp). apply HF.
  - intros e1 p lat e2 q Heq Hq Hlt. rewrite !Hp in Hlt.
    specialize (HO e1 p lat e2 q Heq Hlt).
    apply occurrences_pos in Hq. apply occurrences_pos. lia.
  - intros Hq.
    destruct (run_submissions (prio w) ps w (λ x, eq_refl))
      as (w1 & e1 & Hr1 & Hd1 & Hq1 & Hl1 & _ & Hperm & Hasc & Htier).
    destruct (run_iterations (pending (eng w1)) w1) as (w2 & e2 & Hr2 & Hd2 & _);
      [by rewrite Hl1; apply Hl|by rewrite Hq1|done|].
    assert (length (pending (eng w1))
            = (length (pending (eng w)) + length ps)%nat) as Hlen.
    { by rewrite Hperm, length_app. }
    exists w2, (e1 ++ e2). rewrite run_app, Hr1, <- Hlen, Hr2.
    assert (dispatch_order (e1 ++ e2) = pending (eng w1)) as ->.
    { by rewrite dispatch_order_app, Hd1, Hd2. }
    split_and!; [done|done|by apply Hasc|done].
Qed.

Lemma dispatch_in_priority_order_witness :
  dispatch_order
    (outcome [LEnqueue (Some 0%nat); LLoop; LEnqueue (Some 2%nat); LEnqueue (Some 1%nat);
              LLoop; LEnqueue (Some 0%nat)] (boot abc_heap [])).2
  = [0; 2]%nat
  ∧ pending
      (eng (outcome [LEnqueue (Some 0%nat); LLoop; LEnqueue (Some 2%nat);
                     LEnqueue (Some 1%nat); LLoop; LEnqueue (Some 0%nat)]
              (boot abc_heap [])).1)
    = [1; 0]%nat
  ∧ ∀ k,
      tier (prio (outcome [LEnqueue (Some 0%nat); LLoop; LEnqueue (Some 2%nat);
                           LEnqueue (Some 1%nat); LLoop; LEnqueue (Some 0%nat)]
                    (boot abc_heap [])).1) k
        (submitted
           (outcome [LEnqueue (Some 0%nat); LLoop; LEnqueue (Some 2%nat);
                     LEnqueue (Some 1%nat); LLoop; LEnqueue (Some 0%nat)]
              (boot abc_heap [])).2)
      = tier (prio (outcome [LEnqueue (Some 0%nat); LLoop; LEnqueue (Some 2%nat);
                             LEnqueue (Some 1%nat); LLoop; LEnqueue (Some 0%nat)]
                      (boot abc_heap [])).1) k
          (dispatch_order
             (outcome [LEnqueue (Some 0%nat); LLoop; LEnqueue (Some 2%nat);
                       LEnqueue (Some 1%nat); LLoop; LEnqueue (Some 0%nat)]
                (boot abc_heap [])).2)
        ++ tier (prio (outcome [LEnqueue (Some 0%nat); LLoop; LEnqueue (Some 2%nat);
                                LEnqueue (Some 1%nat); LLoop; LEnqueue (Some 0%nat)]
                         (boot abc_heap [])).1) k
             (pending
                (eng (outcome [LEnqueue (Some 0%nat); LLoop; LEnqueue (Some 2%nat);
                               LEnqueue (Some 1%nat); LLoop; LEnqueue (Some 0%nat)]
                        (boot abc_heap [])).1)).
Proof.
  split; [vm_compute; reflexivity|]. split; [vm_compute; reflexivity|].
  refine (proj1 (proj2 (proj2
            (dispatch_in_priority_order abc_heap []
               [LEnqueue (Some 0%nat); LLoop; LEnqueue (Some 2%nat);
                LEnqueue (Some 1%nat); LLoop; LEnqueue (Some 0%nat)]
               (outcome [LEnqueue (Some 0%nat); LLoop; LEnqueue (Some 2%nat);
                         LEnqueue (Some 1%nat); LLoop; LEnqueue (Some 0%nat)]
                  (boot abc_heap [])).1
               (outcome [LEnqueue (Some 0%nat); LLoop; LEnqueue (Some 2%nat);
                         LEnqueue (Some 1%nat); LLoop; LEnqueue (Some 0%nat)]
                  (boot abc_heap [])).2
               [] _)))).
  vm_compute. reflexivity.
Defined.

(** With the loop going round between the submissions, A (priority 5),
    submitted first, is dispatched before B and C (priority 1): the order of
    dispatch over the run is A, B, C, not B, C, A. *)
Lemma dispatch_order_follows_arrival :
  run [LEnqueue (Some 0%nat); LLoop; LEnqueue (Some 1%nat); LEnqueue (Some 2%nat);
       LLoop; LLoop] (boot abc_heap [])
  = Some (outcome [LEnqueue (Some 0%nat); LLoop; LEnqueue (Some 1%nat);
                   LEnqueue (Some 2%nat); LLoop; LLoop] (boot abc_heap []))
  ∧ submitted (outcome [LEnqueue (Some 0%nat); LLoop; LEnqueue (Some 1%nat);
                        LEnqueue (Some 2%nat); LLoop; LLoop] (boot abc_heap [])).2
    = [0; 1; 2]%nat
  ∧ dispatch_order (outcome [LEnqueue (Some 0%nat); LLoop; LEnqueue (Some 1%nat);
                             LEnqueue (Some 2%nat); LLoop; LLoop] (boot abc_heap [])).2
    = [0; 1; 2]%nat
  ∧ Priority (abc_heap 1%nat) < Priority (abc_heap 0%nat).
Proof. split_and!; vm_compute; reflexivity. Qed.

(** Submitting A, B, C in this order yields the dispatch order B, C, A. *)
Example dispatch_order_abc :
  (λ r, dispatch_order r.2)
    <$> run (submissions [0; 1; 2]%nat ++ iterations 3) (boot abc_heap [])
  = Some [1; 2; 0]%nat.
Proof. reflexivity. Qed.

(** ** Submission *)

(** C6. [EnqueueTransfer(nil)] returns the error and no handle and changes
    nothing, the queue included. [EnqueueTransfer] of a request returns no
    error and a completion handle: a channel this call has made (it did not
    exist before, has capacity 1 and is empty), stored in the request's
    [Done], where the completion goroutine will send; nothing else of the
    request and no other request is written. The queue is the old one with
    the request added, so exactly one longer; the rest of the engine and
    the goroutines are as they were. *)
Theorem enqueue_nil_or_one_more (w : World) :
  EnqueueTransfer None w = (w, (None, Some "nil request"%string))
  ∧ ∀ p,
      let c := length (chans w) in
      let w' := (EnqueueTransfer (Some p) w).1 in
      (EnqueueTransfer (Some p) w).2 = (Some c, None)
      ∧ chans w !! c = None
      ∧ chans w' = chans w ++ [make_chan 1]
      ∧ chans w' !! c = Some (mkChan 1 [] 0)
      ∧ heap w' p = set_Done (heap w p) (Some c)
      ∧ (∀ x, x ≠ p → heap w' x = heap w x)
      ∧ pending (eng w') ≡ₚ pending (eng w) ++ [p]
      ∧ length (pending (eng w')) = S (length (pending (eng w)))
      ∧ (active (eng w'), quit (eng w'), interval (eng w'), looping w', sleepers w')
        = (active (eng w), quit (eng w), interval (eng w), looping w, sleepers w).
Proof.
  split; [done|]. intros p c w'. split_and!.
  - apply EnqueueTransfer_result.
  - by apply lookup_ge_None_2.
  - done.
  - unfold w', c. cbn [EnqueueTransfer fst chans].
    by apply list_lookup_middle.
  - unfold w'. cbn [EnqueueTransfer fst heap]. by rewrite fn_lookup_insert.
  - intros x Hx. unfold w'. cbn [EnqueueTransfer fst heap].
    by rewrite fn_lookup_insert_ne.
  - apply EnqueueTransfer_perm.
  - apply EnqueueTransfer_length.
  - done.
Qed.

(** ** Service time *)

Lemma wrap64_small z : - 2 ^ 63 ≤ z < 2 ^ 63 → wrap64 z = z.
Proof. intros Hz. unfold wrap64. rewrite Z.mod_small; lia. Qed.

Lemma MiB_value : MiB = 1048576.
Proof. reflexivity. Qed.

(** C4, as the code has it. For a request of a size within uint64, a base
    latency that is not negative and no overflow of the int64 nanosecond
    count, the service time is the base latency plus one millisecond per
    whole MiB of the size (the size divided by 1 MiB rounded down), and it
    is halved, by integer division, exactly when the priority is at most 0. *)
Theorem service_latency_floor (e : PMEngine) (r : TransferRequest) :
  0 ≤ SizeBytes r < 2 ^ 64 →
  0 ≤ interval e →
  interval e + (SizeBytes r / MiB) * Millisecond < 2 ^ 63 →
  service_latency e r =
    let t := interval e + (SizeBytes r / MiB) * Millisecond in
    if decide (Priority r ≤ 0) then t / 2 else t.
Proof.
  intros Hsize Hbase Hfit. unfold service_latency. cbn zeta.
  assert (0 ≤ SizeBytes r / MiB < 2 ^ 44) as Hq.
  { rewrite MiB_value. split; [apply Z.div_pos; lia|].
    apply Z.div_lt_upper_bound; lia. }
  unfold Millisecond in *.
  rewrite (wrap64_small (SizeBytes r / MiB)) by lia.
  rewrite Z.mul_1_r, (wrap64_small (SizeBytes r / MiB)) by lia.
  rewrite (wrap64_small (SizeBytes r / MiB * 1000000)) by lia.
  rewrite wrap64_small by lia.
  destruct (Z.leb_spec (Priority r) 0); case_decide; try lia.
  apply Z.quot_div_nonneg; lia.
Qed.

Lemma service_latency_floor_witness :
  service_latency NewPMEngine (mkReq "tx" 0 1 (3 * MiB + 1) 0 "" None) = 2500000
  ∧ service_latency NewPMEngine (mkReq "tx" 0 1 (3 * MiB + 1) 7 "" None) = 5000000.
Proof.
  split.
  - apply (service_latency_floor NewPMEngine (mkReq "tx" 0 1 (3 * MiB + 1) 0 "" None));
      vm_compute; try split; congruence.
  - apply (service_latency_floor NewPMEngine (mkReq "tx" 0 1 (3 * MiB + 1) 7 "" None));
      vm_compute; try split; congruence.
Defined.

(** A request of one byte and priority 1 on a new engine is served in the
    base latency of 2 ms; rounding the size up would give 3 ms. *)
Lemma service_latency_not_ceil :
  service_latency NewPMEngine (mkReq "tx" 0 1 1 1 "" None) = 2000000
  ∧ spec_latency NewPMEngine (mkReq "tx" 0 1 1 1 "" None) = 3000000.
Proof. split; reflexivity. Qed.

(** ** Stop *)

Section stop_facts.
Implicit Types (w : World) (l : Label) (ls : list Label).

Lemma loop_iter_quit w : quit (eng (loop_iter w).1) = quit (eng w).
Proof.
  unfold loop_iter. destruct (looping w); [|done].
  destruct (quit (eng w)) eqn:E; [|done]. by destruct (pending (eng w)).
Qed.

(** Only [Stop] touches [quit], and only [Stop] can panic. *)
Lemma step_quit l w :
  l ≠ LStop → ∃ w' e, step l w = Some (w', e) ∧ quit (eng w') = quit (eng w).
Proof.
  intros Hl. destruct l as [req| | |i|c|c]; [|done|..].
  - rewrite step_enqueue. eexists _, _. split; [done|]. by destruct req.
  - eexists _, _. split; [by cbn; rewrite (surjective_pairing (loop_iter w))|].
    apply loop_iter_quit.
  - eexists _, _. split; [by cbn; rewrite (surjective_pairing (wake i w))|].
    by destruct (wake_frame i w) as (_ & -> & _).
  - eexists _, _. split; [by cbn; rewrite (surjective_pairing (receive c w))|].
    by destruct (receive_frame c w) as (_ & -> & _).
  - eexists _, _. split; [by cbn; rewrite (surjective_pairing (cancel c w))|].
    by destruct (cancel_frame c w) as (_ & -> & _).
Qed.

Lemma stops_cons l ls :
  stops (l :: ls) = if decide (l = LStop) then S (stops ls) else stops ls.
Proof. unfold stops. rewrite filter_cons. by case_decide. Qed.

(** A run panics exactly when [Stop] is called on a closed [quit]; a run
    that has not panicked has [quit] closed exactly when [Stop] was called. *)
Lemma run_stops ls w :
  match run ls w with
  | None =>
      match quit (eng w) with Open => 2 ≤ stops ls | Closed => 1 ≤ stops ls end
  | Some (w', _) =>
      match quit (eng w) with
      | Open => (stops ls = 0 ∧ quit (eng w') = Open)
                ∨ (stops ls = 1 ∧ quit (eng w') = Closed)
      | Closed => stops ls = 0 ∧ quit (eng w') = Closed
      end
  end%nat.
Proof.
  revert w. induction ls as [|l ls IH]; intros w.
  - cbn. destruct (quit (eng w)); auto.
  - rewrite stops_cons. cbn [run]. case_decide as Hl.
    + subst l. cbn [step]. unfold Stop. destruct (quit (eng w)) eqn:Eq; [|lia].
      match goal with |- context [run ls ?w1] => specialize (IH w1) end.
      cbn in IH. destruct (run ls _) as [[w' e]|]; [|lia].
      right. destruct IH as [-> ->]. done.
    + destruct (step_quit l w Hl) as (w1 & e1 & -> & Hq).
      specialize (IH w1). rewrite Hq in IH.
      by destruct (run ls w1) as [[w' e]|].
Qed.

End stop_facts.

(** C3, as the code has it. On a new engine the first call of [Stop] closes
    [quit] without a panic, and the next iteration of the dispatch loop then
    returns, dispatching nothing; any further call of [Stop] panics. So a
    run panics exactly when it calls [Stop] twice or more. *)
Theorem stop_once_closes_twice_panics
  (h : loc → TransferRequest) (cs : list Chan) (ls : list Label) :
  (run ls (boot h cs) = None ↔ (2 ≤ stops ls)%nat)
  ∧ ∀ w evs, run ls (boot h cs) = Some (w, evs) →
      (quit (eng w) = Closed ↔ stops ls = 1%nat)
      ∧ (stops ls = 1%nat →
         looping (loop_iter w).1 = false ∧ dispatch_order (loop_iter w).2 = []).
Proof.
  pose proof (run_stops ls (boot h cs)) as H. cbn [boot eng quit NewPMEngine] in H.
  split.
  - destruct (run ls (boot h cs)) as [[w e]|]; [|done].
    split; [done|]. destruct H as [[-> _]|[-> _]]; lia.
  - intros w evs Hrun. rewrite Hrun in H.
    assert (quit (eng w) = Closed ↔ stops ls = 1%nat) as Hq.
    { destruct H as [[-> ->]|[-> ->]]; split; (done || lia). }
    split; [done|]. intros Hs%Hq. unfold loop_iter.
    destruct (looping w) eqn:El; [by rewrite Hs|by cbn].
Qed.

Lemma stop_once_closes_twice_panics_witness :
  run [LEnqueue (Some 0%nat); LStop; LStop] (boot abc_heap []) = None
  ∧ quit (eng (outcome [LEnqueue (Some 0%nat); LStop] (boot abc_heap [])).1) = Closed
  ∧ looping (loop_iter (outcome [LEnqueue (Some 0%nat); LStop] (boot abc_heap [])).1).1
    = false.
Proof.
  split.
  - apply (stop_once_closes_twice_panics abc_heap [] [LEnqueue (Some 0%nat); LStop; LStop]).
    vm_compute. lia.
  - destruct (stop_once_closes_twice_panics abc_heap []
                [LEnqueue (Some 0%nat); LStop]) as [_ H].
    destruct (H (outcome [LEnqueue (Some 0%nat); LStop] (boot abc_heap [])).1
                (outcome [LEnqueue (Some 0%nat); LStop] (boot abc_heap [])).2)
      as [Hq Hl]; [vm_compute; reflexivity|].
    split; [by apply Hq|by apply Hl].
Defined.

(** Calling [Stop] twice on a new engine panics. *)
Lemma stop_twice_panics : run [LStop; LStop] (boot abc_heap []) = None.
Proof. reflexivity. Qed.

(** ** The queue invariant *)

Lemma step_NoDup_pending l w w' e :
  NoDup (pending (eng w)) → submits_unqueued l w → step l w = Some (w', e) →
  NoDup (pending (eng w')).
Proof.
  intros Hnd Hok Hstep.
  destruct l as [[p|]| | |i|c|c];
    [rewrite step_enqueue in Hstep..|cbn [step] in Hstep|cbn [step] in Hstep
    |cbn [step] in Hstep|cbn [step] in Hstep|cbn [step] in Hstep].
  - apply some_pair_inv in Hstep as [-> _]. by apply EnqueueTransfer_NoDup.
  - by apply some_pair_inv in Hstep as [-> _].
  - unfold Stop in Hstep. destruct (quit (eng w)); [|done].
    by injection Hstep as <- _.
  - apply some_pair_inv in Hstep as [-> _]. unfold loop_iter.
    destruct (looping w); [|done]. destruct (quit (eng w)); [|done].
    destruct (pending (eng w)) as [|req rest] eqn:E; cbn; [by rewrite E|].
    by apply NoDup_cons in Hnd as [_ ?].
  - apply some_pair_inv in Hstep as [-> _].
    by destruct (wake_frame i w) as (_ & -> & _).
  - apply some_pair_inv in Hstep as [-> _].
    by destruct (receive_frame c w) as (_ & -> & _).
  - apply some_pair_inv in Hstep as [-> _].
    by destruct (cancel_frame c w) as (_ & -> & _).
Qed.

(** C7, as the code has it. After every step of every run of a new engine
    the head of the queue has a priority value at most that of every other
    queued request; and the queue holds no request twice as long as no
    caller submits a request that is in the queue at that moment. *)
Theorem queue_head_least_no_duplicates
  (h : loc → TransferRequest) (cs : list Chan) (ls : list Label)
  (w : World) (evs : list Event) :
  run ls (boot h cs) = Some (w, evs) →
  (∀ hd tl, pending (eng w) = hd :: tl → Forall (λ q, prio w hd ≤ prio w q) tl)
  ∧ (throughout submits_unqueued ls (boot h cs) → NoDup (pending (eng w))).
Proof.
  intros Hrun. split.
  - intros hd tl E.
    destruct (reachable_queue_ok w) as (_ & Hs & _); [by exists h, cs, ls, evs|].
    rewrite E in Hs. by apply StronglySorted_cons in Hs as [? _].
  - intros Hok.
    eapply (run_invariant submits_unqueued (λ w _, NoDup (pending (eng w)))
              (λ l w _ w' e, step_NoDup_pending l w w' e)
              ls (boot h cs) [] w evs); [constructor|done..].
Qed.

Lemma queue_head_least_no_duplicates_witness :
  NoDup (pending (eng (outcome (submissions [0; 1; 2]%nat ++ [LLoop])
                         (boot abc_heap [])).1))
  ∧ pending (eng (outcome (submissions [0; 1; 2]%nat ++ [LLoop]) (boot abc_heap [])).1)
    = [2; 0]%nat.
Proof.
  split; [|vm_compute; reflexivity].
  apply (queue_head_least_no_duplicates abc_heap []
           (submissions [0; 1; 2]%nat ++ [LLoop])
           (outcome (submissions [0; 1; 2]%nat ++ [LLoop]) (boot abc_heap [])).1
           (outcome (submissions [0; 1; 2]%nat ++ [LLoop]) (boot abc_heap [])).2).
  - vm_compute. reflexivity.
  - refine (bool_decide_unpack _ _). vm_compute. exact I.
Defined.

(** Submitting the same request twice puts it in the queue twice. *)
Lemma queue_holds_request_twice :
  (λ r, pending (eng r.1))
    <$> run [LEnqueue (Some 0%nat); LEnqueue (Some 0%nat)] (boot abc_heap [])
  = Some [0; 0]%nat.
Proof. reflexivity. Qed.

(** ** What the engine holds, step by step *)

Section held_facts.
Implicit Types (w : World) (l : Label) (p x r : loc) (c : chan).

Lemma in_engine_enqueue w p :
  in_engine (EnqueueTransfer (Some p) w).1 ≡ₚ p :: in_engine w.
Proof.
  unfold in_engine. rewrite EnqueueTransfer_perm. cbn [EnqueueTransfer fst sleepers].
  rewrite <- app_assoc. cbn [app]. by rewrite <- Permutation_middle.
Qed.

Lemma Done_enqueue w p x :
  Done (heap (EnqueueTransfer (Some p) w).1 x)
  = if decide (p = x) then Some (length (chans w)) else Done (heap w x).
Proof.
  cbn [EnqueueTransfer fst heap]. case_decide as E.
  - subst. by rewrite fn_lookup_insert.
  - by rewrite fn_lookup_insert_ne.
Qed.

Lemma chans_enqueue w p :
  chans (EnqueueTransfer (Some p) w).1 = chans w ++ [make_chan 1].
Proof. done. Qed.

Lemma in_engine_loop_iter w : in_engine (loop_iter w).1 ≡ₚ in_engine w.
Proof.
  unfold loop_iter. destruct (looping w); [|done].
  destruct (quit (eng w)); [|done].
  unfold in_engine. destruct (pending (eng w)) as [|req rest] eqn:E; cbn; [by rewrite E|].
  rewrite fmap_app. cbn. rewrite app_assoc, <- Permutation_cons_append. done.
Qed.

Lemma loop_iter_chans w : chans (loop_iter w).1 = chans w.
Proof.
  unfold loop_iter. destruct (looping w); [|done].
  destruct (quit (eng w)); [|done]. by destruct (pending (eng w)).
Qed.

(** An iteration of the loop sends nothing. *)
Lemma loop_iter_silent w :
  sends (loop_iter w).2 = [] ∧ signalled (loop_iter w).2 = []
  ∧ drops (loop_iter w).2 = []
  ∧ ∀ p c, EvSubmitted p c ∉ (loop_iter w).2.
Proof.
  unfold loop_iter. destruct (looping w); [|by split_and!; [..|intros ??; apply not_elem_of_nil]].
  destruct (quit (eng w)).
  - destruct (pending (eng w)); split_and!; try done; intros ??.
    + apply not_elem_of_nil.
    + by intros ?%list_elem_of_singleton.
  - split_and!; try done. intros ??. by intros ?%list_elem_of_singleton.
Qed.

(** What a waking completion goroutine does: nothing if there is no such
    goroutine; else it leaves the sleepers and either its send goes through
    on the channel its request holds at that moment, or no send is
    possible there and the signal is dropped. *)
Lemma wake_cases i w :
  (sleepers w !! i = None ∧ wake i w = (w, []))
  ∨ ∃ r lat,
      sleepers w !! i = Some (r, lat)
      ∧ sleepers (wake i w).1 = delete i (sleepers w)
      ∧ ((∃ c ch ch' d,
            Done (heap w r) = Some c ∧ chans w !! c = Some ch
            ∧ try_send ch None = Some (ch', d)
            ∧ chans (wake i w).1 = <[c := ch']> (chans w)
            ∧ (wake i w).2 = [EvSignalled r c d])
         ∨ (chans (wake i w).1 = chans w
            ∧ (wake i w).2 = [EvDropped r (Done (heap w r))]
            ∧ ∀ c ch, Done (heap w r) = Some c → chans w !! c = Some ch →
                try_send ch None = None)).
Proof.
  unfold wake. destruct (sleepers w !! i) as [[r lat]|]; [right|by left].
  exists r, lat. split; [done|].
  destruct (Done (heap w r)) as [c|] eqn:Ed; [|by split; [|right]].
  destruct (chans w !! c) as [ch|] eqn:Ec.
  - destruct (try_send ch None) as [[ch' d]|] eqn:Es.
    + split; [done|]. left. by exists c, ch, ch', d.
    + split; [done|]. right. split_and!; [done..|].
      intros c' ch' [= <-] E. rewrite Ec in E. by injection E as <-.
  - split; [done|]. right. split_and!; [done..|].
    intros c' ch' [= <-] E. by rewrite Ec in E.
Qed.

Lemma in_engine_wake i w x : x ∈ in_engine (wake i w).1 → x ∈ in_engine w.
Proof.
  unfold in_engine. destruct (wake_frame i w) as (_ & -> & _).
  destruct (wake_cases i w) as [[_ ->]|(r & lat & _ & -> & _)]; [done|].
  rewrite !elem_of_app. intros [?|Hx]; [by left|right].
  apply list_elem_of_fmap in Hx as (y & -> & Hy).
  apply list_elem_of_fmap. exists y. split; [done|].
  by eapply list_elem_of_delete_inv.
Qed.

Lemma receive_chans c w :
  chans (receive c w).1 = chans w
  ∨ ∃ ch, chans w !! c = Some ch ∧ chans (receive c w).1 = <[c := (recv ch).1]> (chans w).
Proof.
  unfold receive. destruct (chans w !! c) as [ch|]; [right|by left].
  exists ch. by destruct (recv ch).
Qed.

Lemma cancel_chans c w :
  chans (cancel c w).1 = chans w
  ∨ ∃ ch, chans w !! c = Some ch ∧ chans (cancel c w).1 = <[c := abandon ch]> (chans w).
Proof.
  unfold cancel. destruct (chans w !! c) as [ch|]; [right|by left]. by exists ch.
Qed.

(** Callers' receives and cancellations send nothing. *)
Lemma receive_silent c w :
  sends (receive c w).2 = [] ∧ signalled (receive c w).2 = []
  ∧ drops (receive c w).2 = []
  ∧ ∀ p c', EvSubmitted p c' ∉ (receive c w).2.
Proof.
  unfold receive. destruct (chans w !! c) as [ch|];
    [|by split_and!; [..|intros ??; apply not_elem_of_nil]].
  destruct (recv ch) as [ch' [v|]]; split_and!; try done; intros ??.
  - by intros ?%list_elem_of_singleton.
  - apply not_elem_of_nil.
Qed.

Lemma cancel_silent c w : (cancel c w).2 = [].
Proof. unfold cancel. by destruct (chans w !! c). Qed.

End held_facts.

(** ** Signals only go to channels the engine made *)

Section fresh_handles.
Variable n : nat.
Implicit Types (w : World) (l : Label) (evs e : list Event).

Lemma sends_app evs e : sends (evs ++ e) = sends evs ++ sends e.
Proof. apply omap_app. Qed.

Lemma handles_fresh_silent w w' evs e :
  handles_fresh n w evs →
  length (chans w') = length (chans w) → heap w' = heap w →
  (∀ x, x ∈ in_engine w' → x ∈ in_engine w) → sends e = [] →
  handles_fresh n w' (evs ++ e).
Proof.
  intros (Hn & Hheld & Hatt) Hlen Hheap Hin He. unfold handles_fresh.
  rewrite sends_app, He, app_nil_r, Hlen, Hheap. split_and!; [done| |].
  - intros p Hp. destruct (Hheld p (Hin p Hp)) as (c & ? & ? & ?).
    exists c. split_and!; try done; try lia. apply elem_of_app. by left.
  - intros p c Hpc. destruct (Hatt p c Hpc). split; [done|].
    apply elem_of_app. by left.
Qed.

Lemma step_handles_fresh l w evs w' e :
  handles_fresh n w evs → step l w = Some (w', e) → handles_fresh n w' (evs ++ e).
Proof.
  intros HJ Hstep.
  destruct l as [[p|]| | |i|c|c];
    [rewrite step_enqueue in Hstep..|cbn [step] in Hstep|cbn [step] in Hstep
    |cbn [step] in Hstep|cbn [step] in Hstep|cbn [step] in Hstep].
  - apply some_pair_inv in Hstep as [-> ->]. destruct HJ as (Hn & Hheld & Hatt).
    cbn [fst snd]. rewrite EnqueueTransfer_result. unfold handles_fresh.
    rewrite sends_app, app_nil_r, chans_enqueue, length_app. cbn [length].
    split_and!; [lia| |].
    + intros x Hx. rewrite in_engine_enqueue in Hx. rewrite Done_enqueue.
      case_decide as E.
      { subst x. exists (length (chans w)). split_and!; try done; try lia.
        apply elem_of_app. right. apply list_elem_of_singleton. done. }
      apply elem_of_cons in Hx as [->|Hx]; [done|].
      destruct (Hheld x Hx) as (c & Hc & Hb & Hsub). exists c.
      split_and!; try done; try lia. apply elem_of_app. by left.
    + intros x c Hxc. destruct (Hatt x c Hxc). split; [done|].
      apply elem_of_app. by left.
  - apply some_pair_inv in Hstep as [-> ->]. by apply (handles_fresh_silent w).
  - unfold Stop in Hstep. destruct (quit (eng w)); [|done].
    injection Hstep as <- <-. by apply (handles_fresh_silent w).
  - apply some_pair_inv in Hstep as [-> ->].
    apply (handles_fresh_silent w);
      [done|by rewrite loop_iter_chans|apply loop_iter_heap| |].
    + intros x. by rewrite in_engine_loop_iter.
    + apply loop_iter_silent.
  - apply some_pair_inv in Hstep as [-> ->].
    destruct (wake_cases i w) as [[_ ->]|(r & lat & Hi & _ & Hsend)];
      [by apply (handles_fresh_silent w)|].
    destruct HJ as (Hn & Hheld & Hatt).
    assert (r ∈ in_engine w) as Hr.
    { unfold in_engine. apply elem_of_app. right. apply list_elem_of_fmap.
      exists (r, lat). split; [done|]. by eapply list_elem_of_lookup_2. }
    destruct (Hheld r Hr) as (c & Hc & Hb & Hsub).
    assert (length (chans (wake i w).1) = length (chans w)) as Hlen.
    { destruct Hsend as [(c' & ch & ch' & d & _ & _ & _ & -> & _)|(-> & _)];
        [apply length_insert|done]. }
    assert (sends (wake i w).2 = [(r, c)]) as Hev.
    { destruct Hsend as [(c' & ch & ch' & d & Hc' & _ & _ & _ & ->)|(_ & -> & _)].
      - rewrite Hc in Hc'. by injection Hc' as <-.
      - by rewrite Hc. }
    unfold handles_fresh. rewrite sends_app, Hev, Hlen.
    destruct (wake_frame i w) as (-> & _). split_and!; [done| |].
    + intros x Hx. destruct (Hheld x (in_engine_wake i w x Hx)) as (c' & ? & ? & ?).
      exists c'. split_and!; try done; try lia. apply elem_of_app. by left.
    + intros x c' [Hxc|Hxc]%elem_of_app.
      * destruct (Hatt x c' Hxc). split; [done|]. apply elem_of_app. by left.
      * apply list_elem_of_singleton in Hxc as [= -> ->].
        split; [lia|]. apply elem_of_app. by left.
  - apply some_pair_inv in Hstep as [-> ->].
    destruct (receive_frame c w) as (Hh & He & _ & Hs).
    apply (handles_fresh_silent w); [done| |done| |apply receive_silent].
    + destruct (receive_chans c w) as [->|(ch & _ & ->)]; [done|apply length_insert].
    + unfold in_engine. by rewrite He, Hs.
  - apply some_pair_inv in Hstep as [-> ->].
    destruct (cancel_frame c w) as (Hh & He & _ & Hs).
    apply (handles_fresh_silent w); [done| |done| |by rewrite cancel_silent].
    + destruct (cancel_chans c w) as [->|(ch & _ & ->)]; [done|apply length_insert].
    + unfold in_engine. by rewrite He, Hs.
Qed.

End fresh_handles.

(** C10. In every world a run of a new engine reaches, [EnqueueTransfer] of
    a request makes a channel that did not exist, buffered with capacity 1
    and empty, stores it in the request's [Done] whatever was there, and
    returns it with no error. And every send the engine has tried for a
    request was on a channel that [EnqueueTransfer] made and returned for
    that request, never on a channel that existed before the engine. *)
Theorem enqueue_installs_fresh_handle
  (h : loc → TransferRequest) (cs : list Chan) (ls : list Label)
  (w : World) (evs : list Event) :
  run ls (boot h cs) = Some (w, evs) →
  (∀ p, let c := length (chans w) in
        let w' := (EnqueueTransfer (Some p) w).1 in
        (EnqueueTransfer (Some p) w).2 = (Some c, None)
        ∧ Done (heap w' p) = Some c
        ∧ chans w !! c = None
        ∧ chans w' !! c = Some (make_chan 1))
  ∧ (∀ p c, (p, c) ∈ sends evs → EvSubmitted p c ∈ evs ∧ cs !! c = None).
Proof.
  intros Hrun. split.
  - intros p c w'. split_and!.
    + apply EnqueueTransfer_result.
    + unfold w'. rewrite Done_enqueue. by case_decide.
    + by apply lookup_ge_None_2.
    + unfold w'. rewrite chans_enqueue. by apply list_lookup_middle.
  - intros p c Hpc.
    assert (handles_fresh (length cs) w ([] ++ evs)) as (_ & _ & Hs).
    { eapply (run_invariant (λ _ _, True) (handles_fresh (length cs))
                (λ l w evs w' e HJ _, step_handles_fresh (length cs) l w evs w' e HJ));
        [|apply throughout_True|exact Hrun].
      split_and!; [done| |]; intros ?; [|intros ?]; by intros ?%elem_of_nil. }
    destruct (Hs p c Hpc). split; [done|]. by apply lookup_ge_None_2.
Qed.

Lemma enqueue_installs_fresh_handle_witness :
  sends (outcome [LEnqueue (Some 7%nat); LLoop; LWake 0]
           (boot preset_heap [make_chan 1])).2 = [(7, 1)]%nat
  ∧ ∀ p c,
      (p, c) ∈ sends (outcome [LEnqueue (Some 7%nat); LLoop; LWake 0]
                        (boot preset_heap [make_chan 1])).2 →
      EvSubmitted p c ∈ (outcome [LEnqueue (Some 7%nat); LLoop; LWake 0]
                           (boot preset_heap [make_chan 1])).2
      ∧ [make_chan 1] !! c = None.
Proof.
  split; [vm_compute; reflexivity|].
  apply (enqueue_installs_fresh_handle preset_heap [make_chan 1]
           [LEnqueue (Some 7%nat); LLoop; LWake 0]
           (outcome [LEnqueue (Some 7%nat); LLoop; LWake 0]
              (boot preset_heap [make_chan 1])).1).
  vm_compute. reflexivity.
Defined.

(** ** Requests submitted once *)

Section once_facts.
Implicit Types (w : World) (l : Label) (evs e : list Event) (p x r : loc) (c : chan).

Lemma signals_on_app c evs e :
  signals_on c (evs ++ e) = (signals_on c evs + signals_on c e)%nat.
Proof.
  unfold signals_on, signalled. by rewrite omap_app, filter_app, length_app.
Qed.

Lemma signals_on_silent c evs e :
  signalled e = [] → signals_on c (evs ++ e) = signals_on c evs.
Proof. intros He. rewrite signals_on_app. unfold signals_on at 2. rewrite He. cbn. lia. Qed.

Lemma signals_on_signal c evs r c' d :
  signals_on c (evs ++ [EvSignalled r c' d])
  = (signals_on c evs + if decide (c' = c) then 1 else 0)%nat.
Proof.
  rewrite signals_on_app. f_equal. unfold signals_on.
  change (signalled [EvSignalled r c' d]) with [c'].
  rewrite filter_cons, filter_nil. by case_decide.
Qed.

Lemma drops_app evs e : drops (evs ++ e) = drops evs ++ drops e.
Proof. apply omap_app. Qed.

(** A send on an empty channel of capacity 1 goes through: to a blocked
    receiver if there is one, into the buffer otherwise. *)
Lemma try_send_empty ch v :
  cap ch = 1%nat → buf ch = [] →
  try_send ch v =
    Some (if (0 <? receivers ch)%nat
          then (mkChan 1 [] (receivers ch - 1), Handed)
          else (mkChan 1 [v] (receivers ch), Buffered)).
Proof.
  intros Hc Hb. unfold try_send. rewrite Hc, Hb.
  by destruct (0 <? receivers ch)%nat.
Qed.

Lemma in_engine_wake_perm i w r lat :
  sleepers w !! i = Some (r, lat) → in_engine w ≡ₚ r :: in_engine (wake i w).1.
Proof.
  intros Hi. unfold in_engine. destruct (wake_frame i w) as (_ & -> & _).
  destruct (wake_cases i w) as [[E _]|(r' & lat' & _ & -> & _)]; [congruence|].
  rewrite delete_take_drop.
  transitivity (pending (eng w)
                ++ (take i (sleepers w) ++ (r, lat) :: drop (S i) (sleepers w)).*1).
  { by rewrite take_drop_middle. }
  rewrite !fmap_app, fmap_cons. cbn [fst].
  by rewrite <- !Permutation_middle.
Qed.

Lemma sleeper_in_engine i w r lat : sleepers w !! i = Some (r, lat) → r ∈ in_engine w.
Proof.
  intros Hi. unfold in_engine. apply elem_of_app. right. apply list_elem_of_fmap.
  exists (r, lat). split; [done|]. by eapply list_elem_of_lookup_2.
Qed.

End once_facts.

Section once_invariant.
Implicit Types (w : World) (l : Label) (evs e : list Event) (p x r : loc) (c : chan).

Lemma once_ok_silent w w' evs e :
  once_ok w evs →
  heap w' = heap w → in_engine w' ≡ₚ in_engine w →
  length (chans w') = length (chans w) →
  (∀ c ch, chans w !! c = Some ch →
     ∃ ch', chans w' !! c = Some ch' ∧ cap ch' = cap ch ∧ (buf ch = [] → buf ch' = [])) →
  signalled e = [] → drops e = [] → (∀ p c, EvSubmitted p c ∉ e) →
  once_ok w' (evs ++ e).
Proof.
  intros (K1 & K2 & K3 & K4 & K5 & K6 & K7) Hheap Hin Hlen Hch Hsig Hdr Hsub.
  unfold once_ok, held_ok. rewrite Hheap, Hlen, drops_app, K6, Hdr.
  setoid_rewrite (λ c, signals_on_silent c evs e Hsig). setoid_rewrite Hin.
  split_and!; try done.
  - intros p Hp. destruct (K2 p Hp) as (c & ch & Hd & Hc & Hcap & Hbuf & Hs).
    destruct (Hch c ch Hc) as (ch' & Hc' & Hcap' & Hbuf').
    exists c, ch'. split_and!; [done|done|congruence|auto|done].
  - intros p c [Hpc|Hpc]%elem_of_app; [by apply K7|by apply Hsub in Hpc].
Qed.

Lemma once_ok_enqueue w evs p :
  once_ok w evs → p ∉ in_engine w →
  once_ok (EnqueueTransfer (Some p) w).1
          (evs ++ [EvSubmitted p (length (chans w))]).
Proof.
  intros (K1 & K2 & K3 & K4 & K5 & K6 & K7) Hp.
  assert (∀ x c, x ∈ in_engine w → Done (heap w x) = Some c →
            (c < length (chans w))%nat) as Hbound.
  { intros x c Hx Hd. destruct (K2 x Hx) as (c' & ch' & Hd' & Hc' & _).
    rewrite Hd in Hd'. injection Hd' as <-. by eapply lookup_lt_Some. }
  unfold once_ok, held_ok. rewrite drops_app, K6.
  setoid_rewrite (λ c, signals_on_silent c evs [EvSubmitted p (length (chans w))] eq_refl).
  setoid_rewrite in_engine_enqueue. setoid_rewrite Done_enqueue.
  rewrite chans_enqueue, length_app. cbn [length].
  split_and!; try done.
  - by apply NoDup_cons.
  - intros x [->|Hx]%elem_of_cons.
    + exists (length (chans w)), (make_chan 1). rewrite decide_True by done.
      split_and!; try done; [by apply list_lookup_middle|apply K5; lia].
    + rewrite decide_False by (intros ->; contradiction).
      destruct (K2 x Hx) as (c & ch & Hd & Hc & Hcap & Hbuf & Hs).
      exists c, ch. split_and!; try done. by apply lookup_app_l_Some.
  - intros x y Hx Hy E. repeat case_decide; subst; try done.
    + apply elem_of_cons in Hy as [->|Hy]; [done|].
      symmetry in E. apply (Hbound y _ Hy) in E. lia.
    + apply elem_of_cons in Hx as [->|Hx]; [done|].
      apply (Hbound x _ Hx) in E. lia.
    + apply elem_of_cons in Hx as [->|Hx]; [done|].
      apply elem_of_cons in Hy as [->|Hy]; [done|]. by apply K3.
  - intros c Hc. apply K5. lia.
  - intros x c [Hxc|Hxc]%elem_of_app.
    + destruct (K7 x c Hxc) as [[Hx Hd]|Hs]; [left|by right].
      split; [by right|]. by rewrite decide_False by (intros ->; contradiction).
    + apply list_elem_of_singleton in Hxc as [= -> ->]. left.
      split; [by left|]. by rewrite decide_True.
Qed.

(** A completion goroutine of such a run always gets its signal through. *)
Lemma once_ok_wake_sends w evs i r lat :
  once_ok w evs → sleepers w !! i = Some (r, lat) →
  ∃ c ch,
    Done (heap w r) = Some c ∧ chans w !! c = Some ch
    ∧ cap ch = 1%nat ∧ buf ch = [] ∧ signals_on c evs = 0%nat
    ∧ chans (wake i w).1
      = <[c := if (0 <? receivers ch)%nat then mkChan 1 [] (receivers ch - 1)
               else mkChan 1 [None] (receivers ch)]> (chans w)
    ∧ (wake i w).2
      = [EvSignalled r c (if (0 <? receivers ch)%nat then Handed else Buffered)].
Proof.
  intros (_ & K2 & _) Hi.
  destruct (K2 r (sleeper_in_engine i w r lat Hi)) as (c & ch & Hd & Hc & Hcap & Hbuf & Hs).
  exists c, ch. split_and!; try done.
  - unfold wake. rewrite Hi, Hd, Hc, (try_send_empty ch None Hcap Hbuf).
    by destruct (0 <? receivers ch)%nat.
  - unfold wake. rewrite Hi, Hd, Hc, (try_send_empty ch None Hcap Hbuf).
    by destruct (0 <? receivers ch)%nat.
Qed.

Lemma once_ok_wake w evs i r lat :
  once_ok w evs → sleepers w !! i = Some (r, lat) →
  once_ok (wake i w).1 (evs ++ (wake i w).2).
Proof.
  intros HK Hi.
  destruct (once_ok_wake_sends w evs i r lat HK Hi)
    as (c & ch & Hd & Hc & Hcap & Hbuf & Hs & Hch & ->).
  destruct HK as (K1 & K2 & K3 & K4 & K5 & K6 & K7).
  pose proof (in_engine_wake_perm i w r lat Hi) as Hperm.
  pose proof (sleeper_in_engine i w r lat Hi) as Hr.
  rewrite Hperm in K1. apply NoDup_cons in K1 as [Hr' K1].
  assert (∀ x, x ∈ in_engine (wake i w).1 → x ∈ in_engine w ∧ x ≠ r) as Hsub.
  { intros x Hx. split; [rewrite Hperm; by right|by intros ->]. }
  unfold once_ok, held_ok. rewrite drops_app, K6, Hch, length_insert.
  destruct (wake_frame i w) as (-> & _).
  setoid_rewrite signals_on_signal.
  split_and!; try done.
  - intros x Hx. destruct (Hsub x Hx) as [Hx' Hne].
    destruct (K2 x Hx') as (c' & ch' & Hd' & Hc' & Hcap' & Hbuf' & Hs').
    assert (c ≠ c') as Hcc.
    { intros <-. apply Hne, K3; [done..|congruence]. }
    exists c', ch'. rewrite decide_False by done.
    split_and!; try done; [by rewrite list_lookup_insert_ne|lia].
  - intros x y Hx Hy. apply K3; by apply Hsub.
  - intros c'. case_decide as E; [subst c'; lia|]. specialize (K4 c'). lia.
  - intros c' Hc'. rewrite decide_False.
    + rewrite K5 by done. done.
    + intros ->. apply lookup_lt_Some in Hc. lia.
  - intros x c' [Hxc|Hxc]%elem_of_app; [|by apply list_elem_of_singleton in Hxc].
    destruct (K7 x c' Hxc) as [[Hx Hdx]|Hsx].
    + destruct (decide (x = r)) as [->|Hne].
      * right. rewrite Hd in Hdx. injection Hdx as <-.
        rewrite decide_True by done. lia.
      * left. split; [|done]. rewrite Hperm in Hx.
        by apply elem_of_cons in Hx as [?|?].
    + right. rewrite decide_False; [lia|]. intros ->. lia.
Qed.

End once_invariant.

Section once_runs.
Implicit Types (w : World) (l : Label) (ls : list Label) (evs e : list Event).

Lemma chans_unchanged w c (ch : Chan) :
  chans w !! c = Some ch →
  ∃ ch', chans w !! c = Some ch' ∧ cap ch' = cap ch ∧ (buf ch = [] → buf ch' = []).
Proof. intros H. by exists ch. Qed.

Lemma chans_updated w c0 (f : Chan → Chan) ch0 c (ch : Chan) :
  chans w !! c0 = Some ch0 →
  cap (f ch0) = cap ch0 → (buf ch0 = [] → buf (f ch0) = []) →
  chans w !! c = Some ch →
  ∃ ch', <[c0 := f ch0]> (chans w) !! c = Some ch' ∧ cap ch' = cap ch
         ∧ (buf ch = [] → buf ch' = []).
Proof.
  intros H0 Hcap Hbuf H. destruct (decide (c0 = c)) as [->|Hne].
  - exists (f ch0). rewrite list_lookup_insert_eq by (by eapply lookup_lt_Some).
    rewrite H0 in H. injection H as <-. done.
  - exists ch. by rewrite list_lookup_insert_ne.
Qed.

Lemma step_once_ok l w evs w' e :
  once_ok w evs → submits_once l w → step l w = Some (w', e) →
  once_ok w' (evs ++ e).
Proof.
  intros HK Hok Hstep.
  destruct l as [[p|]| | |i|c|c];
    [rewrite step_enqueue in Hstep..|cbn [step] in Hstep|cbn [step] in Hstep
    |cbn [step] in Hstep|cbn [step] in Hstep|cbn [step] in Hstep].
  - apply some_pair_inv in Hstep as [-> ->]. cbn [fst snd].
    rewrite EnqueueTransfer_result. by apply once_ok_enqueue.
  - apply some_pair_inv in Hstep as [-> ->].
    apply (once_ok_silent w); try done.
    + apply chans_unchanged.
    + intros p c. by intros ?%list_elem_of_singleton.
  - unfold Stop in Hstep. destruct (quit (eng w)); [|done].
    injection Hstep as <- <-.
    apply (once_ok_silent w); try done.
    + cbn [chans]. apply chans_unchanged.
    + intros p c. apply not_elem_of_nil.
  - apply some_pair_inv in Hstep as [-> ->].
    destruct (loop_iter_silent w) as (_ & Hs & Hd & Hsub).
    apply (once_ok_silent w); try done.
    + apply loop_iter_heap.
    + apply in_engine_loop_iter.
    + by rewrite loop_iter_chans.
    + rewrite loop_iter_chans. apply chans_unchanged.
  - apply some_pair_inv in Hstep as [-> ->].
    destruct (sleepers w !! i) as [[r lat]|] eqn:Hi; [by eapply once_ok_wake|].
    destruct (wake_cases i w) as [[_ ->]|(r & lat & Hi' & _)]; [|congruence].
    apply (once_ok_silent w); try done.
    + apply chans_unchanged.
    + intros p c. apply not_elem_of_nil.
  - apply some_pair_inv in Hstep as [-> ->].
    destruct (receive_frame c w) as (Hh & He & _ & Hs).
    destruct (receive_silent c w) as (_ & Hsig & Hd & Hsub).
    apply (once_ok_silent w); try done.
    + unfold in_engine. by rewrite He, Hs.
    + destruct (receive_chans c w) as [->|(ch & _ & ->)]; [done|apply length_insert].
    + destruct (receive_chans c w) as [->|(ch & Hc & ->)]; [apply chans_unchanged|].
      intros c' ch'. apply (chans_updated w c (λ ch, (recv ch).1) ch c' ch' Hc).
      * unfold recv. by destruct (buf ch).
      * unfold recv. by intros ->.
  - apply some_pair_inv in Hstep as [-> ->].
    destruct (cancel_frame c w) as (Hh & He & _ & Hs).
    apply (once_ok_silent w); try done.
    + unfold in_engine. by rewrite He, Hs.
    + destruct (cancel_chans c w) as [->|(ch & _ & ->)]; [done|apply length_insert].
    + destruct (cancel_chans c w) as [->|(ch & Hc & ->)]; [apply chans_unchanged|].
      intros c' ch'. by apply (chans_updated w c abandon ch c' ch' Hc).
    + by rewrite cancel_silent.
    + by rewrite cancel_silent.
    + rewrite cancel_silent. intros p c'. apply not_elem_of_nil.
Qed.

Lemma boot_once_ok h cs : once_ok (boot h cs) [].
Proof.
  split_and!; try done.
  - constructor.
  - intros p. by intros ?%elem_of_nil.
  - intros p x. by intros ?%elem_of_nil.
  - intros c. cbn. lia.
  - intros p c. by intros ?%elem_of_nil.
Qed.

Lemma run_once_ok h cs ls w evs :
  run ls (boot h cs) = Some (w, evs) → throughout submits_once ls (boot h cs) →
  once_ok w evs.
Proof.
  intros Hrun Hok.
  apply (run_invariant submits_once once_ok step_once_ok ls (boot h cs) [] w evs
           (boot_once_ok h cs) Hok Hrun).
Qed.

(** Once the loop has returned and no completion goroutine is left, nothing
    is dispatched or signalled any more, whatever the callers do. *)
Lemma dead_engine_silent ls w w' evs :
  looping w = false → sleepers w = [] → run ls w = Some (w', evs) →
  signalled evs = [] ∧ dispatch_order evs = [].
Proof.
  intros Hl Hs Hrun.
  assert (looping w' = false ∧ sleepers w' = []
          ∧ signalled ([] ++ evs) = [] ∧ dispatch_order ([] ++ evs) = []) as (_ & _ & H);
    [|done].
  eapply (run_invariant (λ _ _, True)
            (λ w evs, looping w = false ∧ sleepers w = []
                      ∧ signalled evs = [] ∧ dispatch_order evs = []));
    [|done|apply throughout_True|exact Hrun].
  clear. intros l w evs w' e (Hl & Hs & Hsig & Hd) _ Hstep.
  unfold signalled, dispatch_order in *. rewrite !omap_app, Hsig, Hd.
  destruct l as [[p|]| | |i|c|c];
    [rewrite step_enqueue in Hstep..|cbn [step] in Hstep|cbn [step] in Hstep
    |cbn [step] in Hstep|cbn [step] in Hstep|cbn [step] in Hstep].
  - apply some_pair_inv in Hstep as [-> ->]. cbn [fst snd].
    by rewrite EnqueueTransfer_result.
  - by apply some_pair_inv in Hstep as [-> ->].
  - unfold Stop in Hstep. destruct (quit (eng w)); [|done].
    by injection Hstep as <- <-.
  - apply some_pair_inv in Hstep as [-> ->]. unfold loop_iter. by rewrite Hl.
  - apply some_pair_inv in Hstep as [-> ->]. unfold wake. by rewrite Hs.
  - apply some_pair_inv in Hstep as [-> ->].
    destruct (receive_frame c w) as (_ & _ & -> & ->).
    destruct (receive_silent c w) as (_ & Hsig' & _).
    unfold signalled in Hsig'. rewrite Hsig'. split_and!; try done.
    unfold receive. destruct (chans w !! c) as [ch|]; [|done].
    by destruct (recv ch) as [ch' [v|]].
  - apply some_pair_inv in Hstep as [-> ->].
    destruct (cancel_frame c w) as (_ & _ & -> & ->). by rewrite cancel_silent.
Qed.

End once_runs.

Section abandoned_facts.
Implicit Types (w : World) (l : Label) (ls : list Label) (evs e : list Event).

Lemma throughout_app ok ls1 ls2 w w1 e1 :
  throughout ok ls1 w → run ls1 w = Some (w1, e1) → throughout ok ls2 w1 →
  throughout ok (ls1 ++ ls2) w.
Proof.
  revert w e1. induction ls1 as [|l ls1 IH]; intros w e1 H1 Hrun H2.
  - cbn in Hrun. by injection Hrun as <- _.
  - cbn [app throughout run] in *. destruct H1 as [Hl H1]. split; [done|].
    destruct (step l w) as [[w0 e0]|]; [|done].
    destruct (run ls1 w0) as [[w3 e3]|] eqn:E; [|done].
    injection Hrun as -> _. by eapply IH.
Qed.

(** Once the loop has returned, a queued request stays queued, with the
    channel it has, as long as it is not submitted again. *)
Lemma queued_stays ls w w' evs p c :
  looping w = false → p ∈ pending (eng w) → Done (heap w p) = Some c →
  throughout submits_once ls w → run ls w = Some (w', evs) →
  p ∈ pending (eng w') ∧ Done (heap w' p) = Some c.
Proof.
  intros Hl Hp Hd Hok Hrun.
  assert (looping w' = false ∧ p ∈ pending (eng w') ∧ Done (heap w' p) = Some c)
    as (_ & ? & ?); [|done].
  eapply (run_invariant submits_once
            (λ w _, looping w = false ∧ p ∈ pending (eng w) ∧ Done (heap w p) = Some c)
            _ ls w [] w' evs); [done..|exact Hrun].
  Unshelve. clear. intros l w _ w' e (Hl & Hp & Hd) Hok Hstep.
  destruct l as [[q|]| | |i|c'|c'];
    [rewrite step_enqueue in Hstep..|cbn [step] in Hstep|cbn [step] in Hstep
    |cbn [step] in Hstep|cbn [step] in Hstep|cbn [step] in Hstep].
  - apply some_pair_inv in Hstep as [-> _]. cbn [fst].
    assert (q ≠ p) as Hne.
    { intros ->. apply Hok. unfold in_engine. apply elem_of_app. by left. }
    split_and!; [done| |by rewrite Done_enqueue, decide_False].
    rewrite EnqueueTransfer_perm. apply elem_of_app. by left.
  - by apply some_pair_inv in Hstep as [-> _].
  - unfold Stop in Hstep. destruct (quit (eng w)); [|done].
    by injection Hstep as <- _.
  - apply some_pair_inv in Hstep as [-> _]. unfold loop_iter. by rewrite Hl.
  - apply some_pair_inv in Hstep as [-> _].
    by destruct (wake_frame i w) as (-> & -> & ->).
  - apply some_pair_inv in Hstep as [-> _].
    by destruct (receive_frame c' w) as (-> & -> & -> & _).
  - apply some_pair_inv in Hstep as [-> _].
    by destruct (cancel_frame c' w) as (-> & -> & -> & _).
Qed.

End abandoned_facts.

(** ** One request submitted once, among others *)

Section own_facts.
Variable n : nat.
Variable p : loc.
Implicit Types (w : World) (l : Label) (ls : list Label) (evs e : list Event)
  (x r q : loc) (c : chan).

(** What every step but an accepted submission leaves alone. *)
Lemma not_enqueue_frame l w w' e :
  (∀ q, l ≠ LEnqueue (Some q)) → step l w = Some (w', e) →
  heap w' = heap w ∧ length (chans w') = length (chans w)
  ∧ (∀ q c, EvSubmitted q c ∉ e).
Proof.
  intros Hl Hstep.
  destruct l as [[q|]| | |i|c|c];
    [by destruct (Hl q)|rewrite step_enqueue in Hstep|cbn [step] in Hstep
    |cbn [step] in Hstep|cbn [step] in Hstep|cbn [step] in Hstep|cbn [step] in Hstep].
  - apply some_pair_inv in Hstep as [-> ->]. split_and!; [done..|].
    intros q c. by intros ?%list_elem_of_singleton.
  - unfold Stop in Hstep. destruct (quit (eng w)); [|done].
    injection Hstep as <- <-. split_and!; [done..|].
    intros q c. apply not_elem_of_nil.
  - apply some_pair_inv in Hstep as [-> ->].
    split_and!; [apply loop_iter_heap|by rewrite loop_iter_chans|apply loop_iter_silent].
  - apply some_pair_inv in Hstep as [-> ->].
    destruct (wake_frame i w) as (-> & _). split; [done|].
    destruct (wake_cases i w) as [[_ ->]|(r & lat & _ & _ & Hsend)].
    { split; [done|]. intros q c. apply not_elem_of_nil. }
    destruct Hsend as [(c & ch & ch' & d & _ & _ & _ & -> & ->)|(-> & -> & _)].
    + split; [apply length_insert|]. intros q c'. by intros ?%list_elem_of_singleton.
    + split; [done|]. intros q c'. by intros ?%list_elem_of_singleton.
  - apply some_pair_inv in Hstep as [-> ->].
    destruct (receive_frame c w) as (-> & _). split_and!; [done| |apply receive_silent].
    destruct (receive_chans c w) as [->|(ch & _ & ->)]; [done|apply length_insert].
  - apply some_pair_inv in Hstep as [-> ->].
    destruct (cancel_frame c w) as (-> & _). rewrite cancel_silent.
    split_and!; [done| |intros q c'; apply not_elem_of_nil].
    destruct (cancel_chans c w) as [->|(ch & _ & ->)]; [done|apply length_insert].
Qed.

Lemma signals_on_one c r c' d :
  signals_on c [EvSignalled r c' d] = if decide (c' = c) then 1%nat else 0%nat.
Proof. apply (signals_on_signal c [] r c' d). Qed.

Lemma drops_nil_no_event x oc e : drops e = [] → EvDropped x oc ∉ e.
Proof.
  intros He Hin. assert (x ∈ drops e) as Hx; [|rewrite He in Hx; by apply elem_of_nil in Hx].
  unfold drops. apply list_elem_of_omap. by exists (EvDropped x oc).
Qed.

(** A signal is only ever put on a channel of the table. *)
Lemma step_signals_in_table l w w' e c :
  step l w = Some (w', e) → (length (chans w) ≤ c)%nat → signals_on c e = 0%nat.
Proof.
  intros Hstep Hc.
  destruct l as [[q|]| | |i|c'|c'];
    [rewrite step_enqueue in Hstep..|cbn [step] in Hstep|cbn [step] in Hstep
    |cbn [step] in Hstep|cbn [step] in Hstep|cbn [step] in Hstep].
  - apply some_pair_inv in Hstep as [_ ->]. by rewrite EnqueueTransfer_result.
  - by apply some_pair_inv in Hstep as [_ ->].
  - destruct (Stop w); [|done]. by injection Hstep as _ <-.
  - apply some_pair_inv in Hstep as [_ ->].
    destruct (loop_iter_silent w) as (_ & Hs & _). unfold signals_on. by rewrite Hs.
  - apply some_pair_inv in Hstep as [_ ->].
    destruct (wake_cases i w) as [[_ ->]|(r & lat & _ & _ & Hsend)]; [done|].
    destruct Hsend as [(c0 & ch & ch' & d & _ & Hc0 & _ & _ & ->)|(_ & -> & _)]; [|done].
    apply lookup_lt_Some in Hc0.
    rewrite signals_on_one. rewrite decide_False by lia. done.
  - apply some_pair_inv in Hstep as [_ ->].
    destruct (receive_silent c' w) as (_ & Hs & _). unfold signals_on. by rewrite Hs.
  - apply some_pair_inv in Hstep as [_ ->]. by rewrite cancel_silent.
Qed.

Lemma step_handles_unique l w evs w' e :
  handles_unique w evs → step l w = Some (w', e) → handles_unique w' (evs ++ e).
Proof.
  intros (U1 & U2 & U3) Hstep.
  assert (∀ c, (length (chans w) ≤ c)%nat → signals_on c (evs ++ e) = 0%nat) as U3'.
  { intros c Hc. rewrite signals_on_app, (U3 c Hc).
    by rewrite (step_signals_in_table l w w' e c Hstep Hc). }
  destruct l as [[q|]| | |i|c|c].
  1: { rewrite step_enqueue in Hstep. apply some_pair_inv in Hstep as [-> ->].
       cbn [fst snd] in *. rewrite EnqueueTransfer_result in *. cbn [submit_event] in *.
       unfold handles_unique. rewrite chans_enqueue, length_app. cbn [length].
       split_and!.
       - intros x c [Hx|Hx]%elem_of_app; [apply U1 in Hx; lia|].
         apply list_elem_of_singleton in Hx as [= _ ->]. lia.
       - intros x y c [Hx|Hx]%elem_of_app [Hy|Hy]%elem_of_app.
         + by eapply U2.
         + apply list_elem_of_singleton in Hy as [= _ ->]. apply U1 in Hx. lia.
         + apply list_elem_of_singleton in Hx as [= _ ->]. apply U1 in Hy. lia.
         + apply list_elem_of_singleton in Hx as [= -> _].
           by apply list_elem_of_singleton in Hy as [= -> _].
       - intros c Hc. apply U3'. lia. }
  all: edestruct not_enqueue_frame as (_ & Hlen & Hsub); [|exact Hstep|]; [done|].
  all: unfold handles_unique; rewrite Hlen; split_and!;
    [intros x c' [Hx|Hx]%elem_of_app; [by apply U1 in Hx|by apply Hsub in Hx]
    |intros x y c' [Hx|Hx]%elem_of_app [Hy|Hy]%elem_of_app;
       [by apply (U2 x y c')|by apply Hsub in Hy|by apply Hsub in Hx|by apply Hsub in Hx]
    |done].
Qed.

(** A step that neither touches [p] nor signals on a handle of [p]. *)
Lemma own_ok_frame w w' evs e :
  handles_fresh n w evs → own_ok p w evs →
  heap w' p = heap w p →
  occurrences p (in_engine w') = occurrences p (in_engine w) →
  (p ∈ in_engine w → ∀ c ch, Done (heap w p) = Some c → chans w !! c = Some ch →
     ∃ ch', chans w' !! c = Some ch' ∧ cap ch' = cap ch ∧ (buf ch = [] → buf ch' = [])) →
  (∀ c, EvSubmitted p c ∈ evs → signals_on c e = 0%nat) →
  (∀ c, EvSubmitted p c ∉ e) → (∀ oc, EvDropped p oc ∉ e) →
  own_ok p w' (evs ++ e).
Proof.
  intros (_ & Hheld & _) (O1 & O2 & O3 & O4) Hheap Hocc Hch Hsig Hsub Hdrop.
  assert (p ∈ in_engine w' ↔ p ∈ in_engine w) as Hin.
  { by rewrite !occurrences_pos, Hocc. }
  unfold own_ok. rewrite Hocc. split_and!; [done| | |].
  - intros Hp%Hin. destruct (O2 Hp) as (c & ch & Hd & Hc & Hcap & Hbuf & Hs).
    destruct (Hch Hp c ch Hd Hc) as (ch' & Hc' & Hcap' & Hbuf').
    destruct (Hheld p Hp) as (c' & Hd' & _ & Hev).
    rewrite Hd in Hd'. injection Hd' as <-.
    exists c, ch'. rewrite Hheap, signals_on_app, Hs, (Hsig c Hev).
    split_and!; [done|done|congruence|auto|done].
  - intros c [Hc|Hc]%elem_of_app; [|by apply Hsub in Hc].
    rewrite Hheap, Hin, signals_on_app, (Hsig c Hc), Nat.add_0_r. by apply O3.
  - intros c [Hc|Hc]%elem_of_app; [by apply O4 in Hc|by apply Hdrop in Hc].
Qed.

Lemma step_own_ok l w evs w' e :
  handles_fresh n w evs → handles_unique w evs → own_ok p w evs →
  submits_once_of p l w → step l w = Some (w', e) →
  own_ok p w' (evs ++ e).
Proof.
  intros HF HU HO Hok Hstep.
  pose proof HF as (_ & Hheld & _). pose proof HU as (U1 & U2 & U3).
  destruct l as [[q|]| | |i|c|c];
    [rewrite step_enqueue in Hstep..|cbn [step] in Hstep|cbn [step] in Hstep
    |cbn [step] in Hstep|cbn [step] in Hstep|cbn [step] in Hstep].
  - apply some_pair_inv in Hstep as [-> ->]. cbn [fst snd].
    rewrite EnqueueTransfer_result. cbn [submit_event].
    destruct (decide (q = p)) as [->|Hne].
    + specialize (Hok eq_refl). destruct HO as (O1 & O2 & O3 & O4).
      assert (occurrences p (in_engine w) = 0%nat) as Hzero.
      { apply (not_iff_compat (occurrences_pos p (in_engine w))) in Hok. lia. }
      unfold own_ok, held_ok.
      rewrite (occurrences_perm p _ _ (in_engine_enqueue w p)), occurrences_cons, Hzero.
      rewrite decide_True by done.
      setoid_rewrite (λ c, signals_on_silent c evs [EvSubmitted p (length (chans w))] eq_refl).
      setoid_rewrite Done_enqueue. rewrite decide_True by done.
      setoid_rewrite in_engine_enqueue. rewrite chans_enqueue.
      split_and!; [done| | |].
      * intros _. exists (length (chans w)), (make_chan 1).
        split_and!; [done|by apply list_lookup_middle|done|done|by apply U3].
      * intros c [Hc|Hc]%elem_of_app.
        -- destruct (O3 c Hc) as [[Hp _]|Hs]; [done|by right].
        -- apply list_elem_of_singleton in Hc as [= ->]. left. split; [by left|done].
      * intros c [Hc|Hc]%elem_of_app; [by apply O4 in Hc|].
        by apply list_elem_of_singleton in Hc.
    + apply (own_ok_frame w); [done|done| | | |done| |].
      * cbn [EnqueueTransfer fst heap]. by rewrite fn_lookup_insert_ne.
      * rewrite (occurrences_perm p _ _ (in_engine_enqueue w q)), occurrences_cons.
        by rewrite decide_False.
      * intros _ c ch _ Hc. exists ch. rewrite chans_enqueue.
        split_and!; [by apply lookup_app_l_Some|done|done].
      * intros c. intros [= ? _]%list_elem_of_singleton. done.
      * intros c. by intros ?%list_elem_of_singleton.
  - apply some_pair_inv in Hstep as [-> ->].
    apply (own_ok_frame w); [done..| | | |].
    + intros _ c ch _ Hc. by exists ch.
    + done.
    + intros c. by intros ?%list_elem_of_singleton.
    + intros c. by intros ?%list_elem_of_singleton.
  - unfold Stop in Hstep. destruct (quit (eng w)); [|done]. injection Hstep as <- <-.
    apply (own_ok_frame w); [done..| | | |].
    + intros _ c ch _ Hc. by exists ch.
    + done.
    + intros c. apply not_elem_of_nil.
    + intros c. apply not_elem_of_nil.
  - apply some_pair_inv in Hstep as [-> ->].
    destruct (loop_iter_silent w) as (_ & Hs & Hd & Hsub).
    apply (own_ok_frame w); [done|done| | | | | |].
    + by rewrite loop_iter_heap.
    + by rewrite (occurrences_perm p _ _ (in_engine_loop_iter w)).
    + intros _ c ch _ Hc. exists ch. by rewrite loop_iter_chans.
    + intros c _. unfold signals_on. by rewrite Hs.
    + done.
    + intros oc. by apply drops_nil_no_event.
  - apply some_pair_inv in Hstep as [-> ->].
    destruct (wake_cases i w) as [[_ ->]|(r & lat & Hi & _ & Hsend)].
    { apply (own_ok_frame w); [done..| | | |].
      - intros _ c ch _ Hc. by exists ch.
      - done.
      - intros c. apply not_elem_of_nil.
      - intros c. apply not_elem_of_nil. }
    pose proof (in_engine_wake_perm i w r lat Hi) as Hperm.
    pose proof (sleeper_in_engine i w r lat Hi) as Hr.
    destruct (wake_frame i w) as (Hheap & _).
    destruct (decide (r = p)) as [->|Hne].
    + destruct HO as (O1 & O2 & O3 & O4).
      destruct (O2 Hr) as (c & ch & Hd & Hc & Hcap & Hbuf & Hs).
      assert ((wake i w).2
              = [EvSignalled p c (if (0 <? receivers ch)%nat then Handed else Buffered)])
        as Hev.
      { unfold wake. rewrite Hi, Hd, Hc, (try_send_empty ch None Hcap Hbuf).
        by destruct (0 <? receivers ch)%nat. }
      assert (p ∉ in_engine (wake i w).1) as Hout.
      { rewrite (occurrences_perm p _ _ Hperm), occurrences_cons in O1.
        rewrite decide_True in O1 by done.
        intros Hin%occurrences_pos. lia. }
      rewrite Hev. unfold own_ok. split_and!.
      * apply (not_iff_compat (occurrences_pos p _)) in Hout. lia.
      * done.
      * intros c' [Hc'|Hc']%elem_of_app; [|by apply list_elem_of_singleton in Hc'].
        right. rewrite signals_on_signal.
        destruct (O3 c' Hc') as [[_ Hd']|Hs'].
        -- rewrite Hd in Hd'. injection Hd' as <-. rewrite decide_True by done. lia.
        -- rewrite decide_False; [lia|]. intros ->. lia.
      * intros c' [Hc'|Hc']%elem_of_app; [by apply O4 in Hc'|].
        by apply list_elem_of_singleton in Hc'.
    + destruct (Hheld r Hr) as (cr & Hdr & _ & Hsubr).
      assert (∀ c, EvSubmitted p c ∈ evs → c ≠ cr) as Hother.
      { intros c Hc ->. apply Hne. by eapply U2. }
      apply (own_ok_frame w); [done|done|by rewrite Hheap| | | | |].
      * rewrite (occurrences_perm p _ _ Hperm), occurrences_cons.
        by rewrite decide_False.
      * intros Hp c ch Hd Hc.
        destruct (Hheld p Hp) as (c' & Hd' & _ & Hsubp).
        rewrite Hd in Hd'. injection Hd' as <-.
        destruct Hsend as [(c0 & ch0 & ch' & d & Hd0 & _ & _ & -> & _)|(-> & _)];
          [|by exists ch].
        rewrite Hdr in Hd0. injection Hd0 as <-.
        exists ch. rewrite list_lookup_insert_ne; [done|].
        intros ->. by apply (Hother c).
      * intros c Hc.
        destruct Hsend as [(c0 & ch0 & ch' & d & Hd0 & _ & _ & _ & ->)|(_ & -> & _)];
          [|done].
        rewrite Hdr in Hd0. injection Hd0 as <-.
        rewrite signals_on_one. rewrite decide_False; [done|].
        intros ->. by apply (Hother c).
      * intros c.
        destruct Hsend as [(c0 & ch0 & ch' & d & _ & _ & _ & _ & ->)|(_ & -> & _)];
          by intros ?%list_elem_of_singleton.
      * intros c.
        destruct Hsend as [(c0 & ch0 & ch' & d & _ & _ & _ & _ & ->)|(_ & -> & _)];
          intros Hin%list_elem_of_singleton; [done|].
        injection Hin as ? _. by apply Hne.
  - apply some_pair_inv in Hstep as [-> ->].
    destruct (receive_frame c w) as (Hh & He & _ & Hs).
    destruct (receive_silent c w) as (_ & Hsig & Hd & Hsub).
    apply (own_ok_frame w); [done|done|by rewrite Hh| | | | |].
    + unfold in_engine. by rewrite He, Hs.
    + intros _ c' ch' _ Hc'.
      destruct (receive_chans c w) as [->|(ch & Hc & ->)]; [by exists ch'|].
      apply (chans_updated w c (λ ch, (recv ch).1) ch c' ch' Hc); [| |done].
      * unfold recv. by destruct (buf ch).
      * unfold recv. by intros ->.
    + intros c' _. unfold signals_on. by rewrite Hsig.
    + done.
    + intros oc. by apply drops_nil_no_event.
  - apply some_pair_inv in Hstep as [-> ->].
    destruct (cancel_frame c w) as (Hh & He & _ & Hs). rewrite cancel_silent.
    apply (own_ok_frame w); [done|done|by rewrite Hh| | | | |].
    + unfold in_engine. by rewrite He, Hs.
    + intros _ c' ch' _ Hc'.
      destruct (cancel_chans c w) as [->|(ch & Hc & ->)]; [by exists ch'|].
      by apply (chans_updated w c abandon ch c' ch' Hc).
    + done.
    + intros c'. apply not_elem_of_nil.
    + intros c'. apply not_elem_of_nil.
Qed.

(** Once the loop has returned, [p], if queued, stays queued with the
    channel it has, as long as [p] itself is not submitted again. *)
Lemma queued_stays_of ls w w' evs c :
  looping w = false → p ∈ pending (eng w) → Done (heap w p) = Some c →
  throughout (submits_once_of p) ls w → run ls w = Some (w', evs) →
  p ∈ pending (eng w') ∧ Done (heap w' p) = Some c.
Proof.
  intros Hl Hp Hd Hok Hrun.
  assert (looping w' = false ∧ p ∈ pending (eng w') ∧ Done (heap w' p) = Some c)
    as (_ & ? & ?); [|done].
  eapply (run_invariant (submits_once_of p)
            (λ w _, looping w = false ∧ p ∈ pending (eng w) ∧ Done (heap w p) = Some c)
            _ ls w [] w' evs); [done..|exact Hrun].
  Unshelve. clear. intros l w _ w' e (Hl & Hp & Hd) Hok Hstep.
  destruct l as [[q|]| | |i|c'|c'];
    [rewrite step_enqueue in Hstep..|cbn [step] in Hstep|cbn [step] in Hstep
    |cbn [step] in Hstep|cbn [step] in Hstep|cbn [step] in Hstep].
  - apply some_pair_inv in Hstep as [-> _]. cbn [fst].
    assert (q ≠ p) as Hne.
    { intros ->. apply (Hok eq_refl). unfold in_engine. apply elem_of_app. by left. }
    split_and!; [done| |by rewrite Done_enqueue, decide_False].
    rewrite EnqueueTransfer_perm. apply elem_of_app. by left.
  - by apply some_pair_inv in Hstep as [-> _].
  - unfold Stop in Hstep. destruct (quit (eng w)); [|done].
    by injection Hstep as <- _.
  - apply some_pair_inv in Hstep as [-> _]. unfold loop_iter. by rewrite Hl.
  - apply some_pair_inv in Hstep as [-> _].
    by destruct (wake_frame i w) as (-> & -> & ->).
  - apply some_pair_inv in Hstep as [-> _].
    by destruct (receive_frame c' w) as (-> & -> & -> & _).
  - apply some_pair_inv in Hstep as [-> _].
    by destruct (cancel_frame c' w) as (-> & -> & -> & _).
Qed.

End own_facts.

Lemma run_own_ok h cs ls w evs p :
  run ls (boot h cs) = Some (w, evs) →
  throughout (submits_once_of p) ls (boot h cs) →
  handles_fresh (length cs) w evs ∧ handles_unique w evs ∧ own_ok p w evs.
Proof.
  intros Hrun Hok.
  apply (run_invariant (submits_once_of p)
           (λ w evs, handles_fresh (length cs) w evs ∧ handles_unique w evs
                     ∧ own_ok p w evs)) with (ls := ls) (w := boot h cs) (evs := []);
    [|clear|done..].
  - intros l w1 e1 w2 e2 (HF & HU & HO) Hl Hstep. split_and!.
    + by eapply step_handles_fresh.
    + by eapply step_handles_unique.
    + by eapply step_own_ok.
  - split_and!.
    + split_and!; [done| |]; intros ?; [|intros ?]; by intros ?%elem_of_nil.
    + split_and!; [intros x c|intros x q c|done]; by intros ?%elem_of_nil.
    + split_and!; [cbn; lia| |intros c|intros c]; by intros ?%elem_of_nil.
Qed.

(** ** Completion signals *)

(** A sleeping completion goroutine of a request that the engine holds
    with an empty channel of its own gets its signal through. *)
Lemma held_ok_wake_sends (w : World) (evs : list Event) (i : nat) (r : loc) (lat : Z) :
  held_ok w evs r → sleepers w !! i = Some (r, lat) →
  ∃ c ch,
    Done (heap w r) = Some c ∧ chans w !! c = Some ch
    ∧ chans (wake i w).1
      = <[c := if (0 <? receivers ch)%nat then mkChan 1 [] (receivers ch - 1)
               else mkChan 1 [None] (receivers ch)]> (chans w)
    ∧ (wake i w).2
      = [EvSignalled r c (if (0 <? receivers ch)%nat then Handed else Buffered)].
Proof.
  intros (c & ch & Hd & Hc & Hcap & Hbuf & Hs) Hi.
  exists c, ch. split_and!; try done.
  - unfold wake. rewrite Hi, Hd, Hc, (try_send_empty ch None Hcap Hbuf).
    by destruct (0 <? receivers ch)%nat.
  - unfold wake. rewrite Hi, Hd, Hc, (try_send_empty ch None Hcap Hbuf).
    by destruct (0 <? receivers ch)%nat.
Qed.

(** C2, as the code has it. Let [p] be a request that, in a run of a new
    engine, is never submitted while the engine still holds it; the callers
    may receive and cancel as they like, and the other requests may be
    submitted at any time, also while the engine holds them. Then every
    handle that [EnqueueTransfer] returned for [p] has got exactly one
    signal as soon as the engine no longer holds [p] under it (it was
    dispatched and its latency elapsed) and none before, so never two,
    whoever sends. And if [p] is still queued when the loop has returned
    after [Stop], its channel never gets a signal, however the run goes
    on. *)
Theorem one_signal_unless_abandoned
  (h : loc → TransferRequest) (cs : list Chan) (ls : list Label)
  (w : World) (evs : list Event) (p : loc) :
  run ls (boot h cs) = Some (w, evs) →
  throughout (submits_once_of p) ls (boot h cs) →
  (∀ c, EvSubmitted p c ∈ evs →
     (signals_on c evs ≤ 1)%nat
     ∧ signals_on c evs
       = if decide (p ∈ in_engine w ∧ Done (heap w p) = Some c) then 0%nat else 1%nat)
  ∧ (∀ c, looping w = false → p ∈ pending (eng w) → Done (heap w p) = Some c →
       ∀ ls' w' evs',
         throughout (submits_once_of p) ls' w → run ls' w = Some (w', evs') →
         signals_on c (evs ++ evs') = 0%nat).
Proof.
  intros Hrun Hok.
  destruct (run_own_ok h cs ls w evs p Hrun Hok) as (_ & _ & _ & O2 & O3 & _).
  split.
  - intros c Hsub. case_decide as E.
    + destruct E as [Hp Hd]. destruct (O2 Hp) as (c' & ch & Hd' & _ & _ & _ & Hs).
      rewrite Hd in Hd'. injection Hd' as <-. rewrite Hs. split; [lia|done].
    + destruct (O3 c Hsub) as [? | ->]; [done|]. split; [lia|done].
  - intros c Hl Hp Hd ls' w' evs' Hok' Hrun'.
    destruct (queued_stays_of p ls' w w' evs' c Hl Hp Hd Hok' Hrun') as [Hp' Hd'].
    destruct (run_own_ok h cs (ls ++ ls') w' (evs ++ evs') p)
      as (_ & _ & _ & O2' & _).
    { by rewrite run_app, Hrun, Hrun'. }
    { by eapply throughout_app. }
    destruct O2' as (c' & ch & Hd'' & _ & _ & _ & Hs).
    { unfold in_engine. apply elem_of_app. by left. }
    congruence.
Qed.

Lemma one_signal_unless_abandoned_witness :
  (signals_on 0%nat
     (outcome [LEnqueue (Some 1%nat); LEnqueue (Some 0%nat); LEnqueue (Some 0%nat);
               LLoop; LWake 0] (boot abc_heap [])).2 = 1%nat
   ∧ pending
       (eng (outcome [LEnqueue (Some 1%nat); LEnqueue (Some 0%nat);
                      LEnqueue (Some 0%nat); LLoop; LWake 0] (boot abc_heap [])).1)
     = [0; 0]%nat)
  ∧ ∀ c,
      EvSubmitted 1%nat c
      ∈ (outcome [LEnqueue (Some 1%nat); LEnqueue (Some 0%nat); LEnqueue (Some 0%nat);
                  LLoop; LWake 0] (boot abc_heap [])).2 →
      (signals_on c
         (outcome [LEnqueue (Some 1%nat); LEnqueue (Some 0%nat); LEnqueue (Some 0%nat);
                   LLoop; LWake 0] (boot abc_heap [])).2 ≤ 1)%nat
      ∧ signals_on c
          (outcome [LEnqueue (Some 1%nat); LEnqueue (Some 0%nat); LEnqueue (Some 0%nat);
                    LLoop; LWake 0] (boot abc_heap [])).2
        = if decide
               (1%nat
                ∈ in_engine
                    (outcome [LEnqueue (Some 1%nat); LEnqueue (Some 0%nat);
                              LEnqueue (Some 0%nat); LLoop; LWake 0]
                       (boot abc_heap [])).1
                ∧ Done
                    (heap
                       (outcome [LEnqueue (Some 1%nat); LEnqueue (Some 0%nat);
                                 LEnqueue (Some 0%nat); LLoop; LWake 0]
                          (boot abc_heap [])).1 1%nat)
                  = Some c)
          then 0%nat else 1%nat.
Proof.
  split; [split; vm_compute; reflexivity|].
  refine (proj1 (one_signal_unless_abandoned abc_heap []
                   [LEnqueue (Some 1%nat); LEnqueue (Some 0%nat); LEnqueue (Some 0%nat);
                    LLoop; LWake 0]
                   (outcome [LEnqueue (Some 1%nat); LEnqueue (Some 0%nat);
                             LEnqueue (Some 0%nat); LLoop; LWake 0]
                      (boot abc_heap [])).1
                   (outcome [LEnqueue (Some 1%nat); LEnqueue (Some 0%nat);
                             LEnqueue (Some 0%nat); LLoop; LWake 0]
                      (boot abc_heap [])).2
                   1%nat _ _)).
  - vm_compute. reflexivity.
  - refine (bool_decide_unpack _ _). vm_compute. exact I.
Defined.

(** A request submitted and still queued when [Stop] is called and the loop
    returns gets no completion signal, however the run goes on. *)
Lemma queued_at_stop_never_signalled :
  run [LEnqueue (Some 0%nat); LStop; LLoop] (boot abc_heap [])
  = Some (outcome [LEnqueue (Some 0%nat); LStop; LLoop] (boot abc_heap []))
  ∧ (outcome [LEnqueue (Some 0%nat); LStop; LLoop] (boot abc_heap [])).2
    = [EvSubmitted 0%nat 0%nat; EvLoopReturned]
  ∧ pending (eng (outcome [LEnqueue (Some 0%nat); LStop; LLoop] (boot abc_heap [])).1)
    = [0%nat]
  ∧ ∀ ls' w' evs',
      run ls' (outcome [LEnqueue (Some 0%nat); LStop; LLoop] (boot abc_heap [])).1
      = Some (w', evs') →
      signalled ((outcome [LEnqueue (Some 0%nat); LStop; LLoop] (boot abc_heap [])).2
                 ++ evs') = [].
Proof.
  split_and!; [vm_compute; reflexivity..|].
  intros ls' w' evs' Hrun.
  eapply dead_engine_silent in Hrun as [Hs _]; [|vm_compute; reflexivity..].
  unfold signalled in *. rewrite omap_app, Hs. vm_compute. reflexivity.
Qed.

(** C5, as the code has it. Let [p] be a request that, in a run of a new
    engine, is never submitted while the engine still holds it, whatever is
    done with the other requests. When the latency of [p] has elapsed its
    completion goroutine finishes in one step, whatever the state of the
    channel. If no caller is waiting on the channel of [p] the signal is
    put in the channel's buffer, which has one slot and is empty, and the
    next receive on the channel gets it; if a caller is waiting it is
    handed over. No signal of [p] is ever dropped. The dispatch loop itself
    never sends. *)
Theorem signal_buffered_not_dropped
  (h : loc → TransferRequest) (cs : list Chan) (ls : list Label)
  (w : World) (evs : list Event) (i : nat) (p : loc) (lat : Z) :
  run ls (boot h cs) = Some (w, evs) →
  throughout (submits_once_of p) ls (boot h cs) →
  sleepers w !! i = Some (p, lat) →
  (∃ c ch,
     Done (heap w p) = Some c ∧ chans w !! c = Some ch
     ∧ (receivers ch = 0%nat →
          step (LWake i) w = Some ((wake i w).1, [EvSignalled p c Buffered])
          ∧ chans (wake i w).1 !! c = Some (mkChan 1 [None] 0)
          ∧ (receive c (wake i w).1).2 = [EvReceived c None])
     ∧ (receivers ch ≠ 0%nat →
          step (LWake i) w = Some ((wake i w).1, [EvSignalled p c Handed])))
  ∧ (∀ oc, EvDropped p oc ∉ evs)
  ∧ sends (loop_iter w).2 = [].
Proof.
  intros Hrun Hok Hi.
  destruct (run_own_ok h cs ls w evs p Hrun Hok) as (_ & _ & _ & O2 & _ & O4).
  destruct (held_ok_wake_sends w evs i p lat (O2 (sleeper_in_engine i w p lat Hi)) Hi)
    as (c & ch & Hd & Hc & Hch & Hev).
  split_and!; [|done|apply loop_iter_silent].
  exists c, ch. split_and!; [done..| |].
  - intros Hr. rewrite Hr in Hch, Hev. cbn in Hch, Hev.
    assert (chans (wake i w).1 !! c = Some (mkChan 1 [None] 0)) as Hc'.
    { rewrite Hch. apply list_lookup_insert_eq. by eapply lookup_lt_Some. }
    split_and!; [|done|].
    + cbn [step]. by rewrite (surjective_pairing (wake i w)), Hev.
    + unfold receive. by rewrite Hc'.
  - intros Hr. cbn [step]. rewrite (surjective_pairing (wake i w)), Hev.
    destruct (receivers ch); done.
Qed.

Lemma signal_buffered_not_dropped_witness :
  step (LWake 0)
    (outcome [LEnqueue (Some 1%nat); LEnqueue (Some 0%nat); LEnqueue (Some 0%nat); LLoop]
       (boot abc_heap [])).1
  = Some ((wake 0 (outcome [LEnqueue (Some 1%nat); LEnqueue (Some 0%nat);
                            LEnqueue (Some 0%nat); LLoop] (boot abc_heap [])).1).1,
          [EvSignalled 1%nat 0%nat Buffered])
  ∧ chans (wake 0 (outcome [LEnqueue (Some 1%nat); LEnqueue (Some 0%nat);
                            LEnqueue (Some 0%nat); LLoop] (boot abc_heap [])).1).1
    !! 0%nat = Some (mkChan 1 [None] 0)
  ∧ pending (eng (outcome [LEnqueue (Some 1%nat); LEnqueue (Some 0%nat);
                           LEnqueue (Some 0%nat); LLoop] (boot abc_heap [])).1)
    = [0; 0]%nat.
Proof.
  destruct (signal_buffered_not_dropped abc_heap []
              [LEnqueue (Some 1%nat); LEnqueue (Some 0%nat); LEnqueue (Some 0%nat); LLoop]
              (outcome [LEnqueue (Some 1%nat); LEnqueue (Some 0%nat);
                        LEnqueue (Some 0%nat); LLoop] (boot abc_heap [])).1
              (outcome [LEnqueue (Some 1%nat); LEnqueue (Some 0%nat);
                        LEnqueue (Some 0%nat); LLoop] (boot abc_heap [])).2
              0%nat 1%nat 2000000)
    as ((c & ch & Hd & Hc & Hbuffered & _) & _ & _).
  - vm_compute. reflexivity.
  - refine (bool_decide_unpack _ _). vm_compute. exact I.
  - vm_compute. reflexivity.
  - assert (c = 0%nat) as -> by (vm_compute in Hd; congruence).
    assert (ch = mkChan 1 [] 0) as -> by (vm_compute in Hc; congruence).
    destruct (Hbuffered eq_refl) as (H1 & H2 & _).
    split_and!; [done|done|vm_compute; reflexivity].
Defined.

(** With no caller listening when the latency has elapsed, the signal is not
    dropped: it is in the channel's buffer afterwards, and a receive that
    starts only then gets it. *)
Lemma unheard_signal_is_buffered :
  (λ r, (r.2, chans r.1))
    <$> run [LEnqueue (Some 0%nat); LLoop; LWake 0; LReceive 0%nat] (boot abc_heap [])
  = Some ([EvSubmitted 0%nat 0%nat; EvDispatched 0%nat 2000000;
           EvSignalled 0%nat 0%nat Buffered; EvReceived 0%nat None],
          [mkChan 1 [] 0]).
Proof. reflexivity. Qed.

(** * Further properties of the fragment directory *)

Section directory_more.
Import Directory.
Implicit Types (d : FragmentDirectory) (m : FragMapping) (k : FragmentKey).

Lemma mkKey_ne vpn idx vpn' idx' :
  (vpn, idx) ≠ (vpn', idx') → mkKey vpn idx ≠ mkKey vpn' idx'.
Proof. intros Hne [= -> ->]. by apply Hne. Qed.

End directory_more.

(** X1. [Install] and [Remove] on one key leave what [Lookup] returns for
    every other key as it was. *)
Theorem directory_other_keys_untouched
  (d : Directory.FragmentDirectory) (vpn idx vpn' idx' : Z)
  (m : Directory.FragMapping) :
  (vpn, idx) ≠ (vpn', idx') →
  Directory.Lookup (Directory.Install d vpn idx m) vpn' idx'
  = Directory.Lookup d vpn' idx'
  ∧ Directory.Lookup (Directory.Remove d vpn idx) vpn' idx'
    = Directory.Lookup d vpn' idx'.
Proof.
  intros Hne%mkKey_ne. unfold Directory.Lookup, Directory.Install, Directory.Remove.
  cbn [Directory.data]. by rewrite lookup_insert_ne, lookup_delete_ne.
Qed.

Lemma directory_other_keys_untouched_witness :
  let m := Directory.mkMapping 3 43981 4096 false 0 0 in
  let d := Directory.Install Directory.NewFragmentDirectory 4096 2 m in
  Directory.Lookup (Directory.Install d 4096 3 Directory.zero_mapping) 4096 2
  = (m, true)
  ∧ Directory.Lookup (Directory.Remove d 8192 2) 4096 2 = (m, true).
Proof.
  split.
  - rewrite (proj1 (directory_other_keys_untouched _ 4096 3 4096 2 _ ltac:(congruence))).
    reflexivity.
  - rewrite (proj2 (directory_other_keys_untouched _ 8192 2 4096 2
                      Directory.zero_mapping ltac:(congruence))).
    reflexivity.
Defined.

(** X2. On one key the last call decides: an [Install] overwrites whatever
    an earlier [Install] or [Remove] left, a [Remove] undoes any earlier
    [Install], and a second [Remove] changes nothing. *)
Theorem directory_last_call_wins
  (d : Directory.FragmentDirectory) (vpn idx : Z) (m m' : Directory.FragMapping) :
  Directory.Install (Directory.Install d vpn idx m) vpn idx m'
  = Directory.Install d vpn idx m'
  ∧ Directory.Install (Directory.Remove d vpn idx) vpn idx m'
    = Directory.Install d vpn idx m'
  ∧ Directory.Remove (Directory.Install d vpn idx m) vpn idx
    = Directory.Remove d vpn idx
  ∧ Directory.Remove (Directory.Remove d vpn idx) vpn idx
    = Directory.Remove d vpn idx.
Proof.
  unfold Directory.Install, Directory.Remove. cbn [Directory.data].
  by rewrite insert_insert_eq, insert_delete_eq, delete_insert_eq, delete_delete_eq.
Qed.

(** X3. Calls on different keys commute: the directory they leave does not
    depend on which of them took the lock first. *)
Theorem directory_calls_commute
  (d : Directory.FragmentDirectory) (vpn idx vpn' idx' : Z)
  (m m' : Directory.FragMapping) :
  (vpn, idx) ≠ (vpn', idx') →
  Directory.Install (Directory.Install d vpn idx m) vpn' idx' m'
  = Directory.Install (Directory.Install d vpn' idx' m') vpn idx m
  ∧ Directory.Remove (Directory.Install d vpn idx m) vpn' idx'
    = Directory.Install (Directory.Remove d vpn' idx') vpn idx m
  ∧ Directory.Remove (Directory.Remove d vpn idx) vpn' idx'
    = Directory.Remove (Directory.Remove d vpn' idx') vpn idx.
Proof.
  intros Hne%mkKey_ne. unfold Directory.Install, Directory.Remove.
  cbn [Directory.data]. split_and!; f_equal.
  - by apply insert_insert_ne.
  - by rewrite delete_insert_ne.
  - apply delete_delete.
Qed.

Lemma directory_calls_commute_witness :
  let m := Directory.mkMapping 3 43981 4096 false 0 0 in
  let d := Directory.NewFragmentDirectory in
  Directory.Install (Directory.Install d 4096 2 m) 4096 3 Directory.zero_mapping
  = Directory.Install (Directory.Install d 4096 3 Directory.zero_mapping) 4096 2 m.
Proof.
  apply (directory_calls_commute Directory.NewFragmentDirectory 4096 2 4096 3).
  congruence.
Defined.

(** X4. Round trips: installing a key that was absent and removing it again
    gives back the directory; installing again the mapping that [Lookup]
    found changes nothing. *)
Theorem directory_round_trips
  (d : Directory.FragmentDirectory) (vpn idx : Z) (m : Directory.FragMapping) :
  ((Directory.Lookup d vpn idx).2 = false →
     Directory.Remove (Directory.Install d vpn idx m) vpn idx = d)
  ∧ (Directory.Lookup d vpn idx = (m, true) → Directory.Install d vpn idx m = d).
Proof.
  destruct d as [dat]. unfold Directory.Lookup, Directory.Install, Directory.Remove.
  cbn [Directory.data]. destruct (dat !! _) as [m0|] eqn:E; split; try done.
  - intros [= ->]. f_equal. by apply insert_id.
  - intros _. f_equal. by rewrite delete_insert_eq, delete_id.
Qed.

Lemma directory_round_trips_witness :
  let m := Directory.mkMapping 3 43981 4096 false 0 0 in
  let d := Directory.Install Directory.NewFragmentDirectory 4096 2 m in
  Directory.Remove (Directory.Install d 4096 3 m) 4096 3 = d
  ∧ Directory.Install d 4096 2 m = d.
Proof.
  split.
  - apply (directory_round_trips _ 4096 3). reflexivity.
  - apply (directory_round_trips _ 4096 2). reflexivity.
Defined.

(** X5. How a scan follows the directory: after [Install] of [m] on a key,
    the scan for [m]'s node has the key with [m] and the scan for any other
    node has lost the key; after [Remove] no scan has the key; all other
    keys stay in the scans they were in. *)
Theorem scan_follows_install_and_remove
  (d : Directory.FragmentDirectory) (vpn idx n : Z) (m : Directory.FragMapping) :
  Directory.ScanForNode (Directory.Install d vpn idx m) n
  = (if decide (Directory.NodeID m = n)
     then <[Directory.mkKey vpn idx := m]> (Directory.ScanForNode d n)
     else delete (Directory.mkKey vpn idx) (Directory.ScanForNode d n))
  ∧ Directory.ScanForNode (Directory.Remove d vpn idx) n
    = delete (Directory.mkKey vpn idx) (Directory.ScanForNode d n).
Proof.
  rewrite !ScanForNode_filter. unfold Directory.Install, Directory.Remove.
  cbn [Directory.data]. rewrite map_filter_insert, map_filter_delete. done.
Qed.

(** X6. The scans split the directory by node: a scan holds only entries of
    the directory, scans for different nodes share no key, and every entry
    of the directory is in the scan for its mapping's node. A scan of a new
    directory is empty. *)
Theorem scans_partition_directory
  (d : Directory.FragmentDirectory) (n n' : Z) :
  Directory.ScanForNode d n ⊆ Directory.data d
  ∧ (n ≠ n' → Directory.ScanForNode d n ##ₘ Directory.ScanForNode d n')
  ∧ (∀ k m, Directory.data d !! k = Some m →
       Directory.ScanForNode d (Directory.NodeID m) !! k = Some m)
  ∧ Directory.ScanForNode Directory.NewFragmentDirectory n = ∅.
Proof.
  split_and!.
  - rewrite ScanForNode_filter. apply map_filter_subseteq.
  - intros Hne. apply map_disjoint_spec. intros k m1 m2.
    rewrite !lookup_ScanForNode. intros [H1 <-] [H2 <-]. congruence.
  - intros k m Hk. by apply lookup_ScanForNode.
  - reflexivity.
Qed.

(** X7. [Lookup] agrees with the history of the directory: after any calls
    of [Install] and [Remove] on a new directory it returns the mapping most
    recently installed for the key and [true], or the zero mapping and
    [false] if the key was never installed or was removed since. *)
Theorem lookup_follows_history (ops : list Directory.Op) (vpn idx : Z) :
  Directory.Lookup (Directory.replay ops) vpn idx
  = match Directory.most_recently_installed ops (Directory.mkKey vpn idx) with
    | Some m => (m, true)
    | None => (Directory.zero_mapping, false)
    end.
Proof. unfold Directory.Lookup. cbn zeta. by rewrite data_replay. Qed.

(** * Further properties of the transfer engine *)

From stdpp Require Import pretty.

Local Open Scope Z_scope.

(** ** More of the code, and more readings of a run *)

(** [Stats()]: [fmt.Sprintf("PMEngine: pending=%d", len(e.pending))]. The
    length is not negative, so [%d] prints its decimal digits. *)
Definition Stats (w : World) : string :=
  "PMEngine: pending=" +:+ pretty (length (pending (eng w))).

(** The requests whose completion goroutine has run its [select], whether
    the send went through or not. *)
Definition completed (evs : list Event) : list loc :=
  omap (λ e, match e with
             | EvSignalled p _ _ | EvDropped p _ => Some p
             | _ => None
             end) evs.

(** The values callers got from a channel. *)
Definition received_on (c : chan) (evs : list Event) : list (option error) :=
  omap (λ e, match e with
             | EvReceived c' v => if decide (c' = c) then Some v else None
             | _ => None
             end) evs.

(** ** Nothing is lost between submission and completion *)

Section conservation.
Implicit Types (w : World) (l : Label) (evs e : list Event).

(** Submitted requests are queued or dispatched; dispatched requests have a
    completion goroutine that sleeps or is done. *)
Definition accounted (w : World) (evs : list Event) : Prop :=
  submitted evs ≡ₚ pending (eng w) ++ dispatch_order evs
  ∧ dispatch_order evs ≡ₚ (sleepers w).*1 ++ completed evs.

Lemma accounted_silent w w' evs e :
  accounted w evs →
  pending (eng w') = pending (eng w) → sleepers w' = sleepers w →
  submitted e = [] → dispatch_order e = [] → completed e = [] →
  accounted w' (evs ++ e).
Proof.
  intros [H1 H2] Hp Hs He1 He2 He3. unfold accounted, submitted, dispatch_order, completed in *.
  rewrite !omap_app, He1, He2, He3, !app_nil_r, Hp, Hs. done.
Qed.

Lemma step_accounted l w evs w' e :
  accounted w evs → step l w = Some (w', e) → accounted w' (evs ++ e).
Proof.
  intros HA Hstep.
  destruct l as [[p|]| | |i|c|c];
    [rewrite step_enqueue in Hstep..|cbn [step] in Hstep|cbn [step] in Hstep
    |cbn [step] in Hstep|cbn [step] in Hstep|cbn [step] in Hstep].
  - apply some_pair_inv in Hstep as [-> ->]. cbn [fst snd].
    rewrite EnqueueTransfer_result. destruct HA as [H1 H2].
    unfold accounted, submitted, dispatch_order, completed in *.
    rewrite !omap_app. cbn [omap]. rewrite !app_nil_r, EnqueueTransfer_perm.
    split; [|done]. rewrite H1.
    rewrite <- !app_assoc. apply Permutation_app_head, Permutation_app_comm.
  - apply some_pair_inv in Hstep as [-> ->]. by apply (accounted_silent w).
  - unfold Stop in Hstep. destruct (quit (eng w)); [|done].
    injection Hstep as <- <-. by apply (accounted_silent w).
  - apply some_pair_inv in Hstep as [-> ->]. unfold loop_iter.
    destruct (looping w); [|by apply (accounted_silent w)].
    destruct (quit (eng w)); [|by apply (accounted_silent w)].
    destruct (pending (eng w)) as [|req rest] eqn:E;
      [by apply (accounted_silent w)|].
    destruct HA as [H1 H2]. rewrite E in H1.
    unfold accounted, submitted, dispatch_order, completed in *.
    cbn [fst snd eng pending sleepers]. rewrite !omap_app. cbn [omap].
    rewrite !app_nil_r, fmap_app. cbn [fmap list_fmap fst]. split.
    + rewrite H1. cbn [app]. rewrite app_assoc. apply Permutation_cons_append.
    + rewrite H2. rewrite <- !app_assoc. apply Permutation_app_head.
      apply Permutation_app_comm.
  - apply some_pair_inv in Hstep as [-> ->].
    destruct (sleepers w !! i) as [[r lat]|] eqn:Hi.
    + destruct HA as [H1 H2].
      pose proof (in_engine_wake_perm i w r lat Hi) as Hperm. unfold in_engine in Hperm.
      destruct (wake_frame i w) as (_ & He & _). rewrite He in Hperm.
      rewrite (Permutation_middle (pending (eng w)) _ r) in Hperm.
      apply Permutation_app_inv_l in Hperm.
      assert (submitted (wake i w).2 = [] ∧ dispatch_order (wake i w).2 = []
              ∧ completed (wake i w).2 = [r]) as (E1 & E2 & E3).
      { destruct (wake_cases i w) as [[E _]|(r' & lat' & Hi' & _ & Hsend)]; [congruence|].
        rewrite Hi in Hi'. injection Hi' as <- <-.
        by destruct Hsend as [(c & ch & ch' & d & _ & _ & _ & _ & ->)|(_ & -> & _)]. }
      unfold accounted, submitted, dispatch_order, completed in *.
      rewrite !omap_app, E1, E2, E3, !app_nil_r, He. split; [done|].
      rewrite H2, Hperm. cbn [app].
      rewrite app_assoc. apply Permutation_cons_append.
    + destruct (wake_cases i w) as [[_ ->]|(r & lat & Hi' & _)]; [|congruence].
      by apply (accounted_silent w).
  - apply some_pair_inv in Hstep as [-> ->].
    destruct (receive_frame c w) as (_ & He & _ & Hs).
    apply (accounted_silent w); [done|by rewrite He|done|..];
      unfold receive; (destruct (chans w !! c) as [ch|]; [|done]);
      by destruct (recv ch) as [ch' [v|]].
  - apply some_pair_inv in Hstep as [-> ->].
    destruct (cancel_frame c w) as (_ & He & _ & Hs).
    apply (accounted_silent w); [done|by rewrite He|done|..]; by rewrite cancel_silent.
Qed.

Lemma run_accounted h cs ls w evs :
  run ls (boot h cs) = Some (w, evs) → accounted w evs.
Proof.
  intros Hrun.
  apply (run_invariant (λ _ _, True) accounted
           (λ l w evs w' e HA _, step_accounted l w evs w' e HA)
           ls (boot h cs) [] w evs); [done|apply throughout_True|done].
Qed.

End conservation.

(** X8. In every run of a new engine the requests [EnqueueTransfer] has
    accepted are, counted with repetitions, exactly the ones still queued
    together with the ones dispatched; and the dispatched ones are exactly
    those whose completion goroutine is still sleeping together with those
    whose goroutine has run. No request is lost, served twice or served
    without having been submitted. *)
Theorem engine_accounts_for_requests
  (h : loc → TransferRequest) (cs : list Chan) (ls : list Label)
  (w : World) (evs : list Event) :
  run ls (boot h cs) = Some (w, evs) →
  submitted evs ≡ₚ pending (eng w) ++ dispatch_order evs
  ∧ dispatch_order evs ≡ₚ (sleepers w).*1 ++ completed evs.
Proof. apply run_accounted. Qed.

Lemma engine_accounts_for_requests_witness :
  submitted (outcome abandon_run (boot abc_heap [])).2
  ≡ₚ pending (eng (outcome abandon_run (boot abc_heap [])).1)
     ++ dispatch_order (outcome abandon_run (boot abc_heap [])).2
  ∧ pending (eng (outcome abandon_run (boot abc_heap [])).1) = [0%nat]
  ∧ dispatch_order (outcome abandon_run (boot abc_heap [])).2 = [1%nat].
Proof.
  split; [|split; vm_compute; reflexivity].
  apply (engine_accounts_for_requests abc_heap [] abandon_run
           (outcome abandon_run (boot abc_heap [])).1
           (outcome abandon_run (boot abc_heap [])).2).
  vm_compute. reflexivity.
Defined.

(** ** Stats *)

Lemma Stats_inj w w' :
  Stats w = Stats w' → length (pending (eng w)) = length (pending (eng w')).
Proof.
  unfold Stats. cbn [String.append]. intros H.
  repeat (injection H as H). by apply (inj pretty).
Qed.

(** X9. In every run of a new engine [Stats] prints the number of accepted
    submissions minus the number of dispatches so far, in decimal after
    "PMEngine: pending="; and worlds with different queue lengths never
    print the same. *)
Theorem stats_counts_undispatched
  (h : loc → TransferRequest) (cs : list Chan) (ls : list Label)
  (w : World) (evs : list Event) :
  run ls (boot h cs) = Some (w, evs) →
  Stats w = "PMEngine: pending="
            +:+ pretty (length (submitted evs) - length (dispatch_order evs))%nat
  ∧ ∀ w', Stats w' = Stats w → length (pending (eng w')) = length (pending (eng w)).
Proof.
  intros Hrun. split; [|intros w'; apply Stats_inj].
  destruct (run_accounted h cs ls w evs Hrun) as [H _].
  unfold Stats. do 2 f_equal. rewrite H, length_app. lia.
Qed.

Lemma stats_counts_undispatched_witness :
  Stats (outcome abandon_run (boot abc_heap [])).1 = "PMEngine: pending=1"%string
  ∧ length (submitted (outcome abandon_run (boot abc_heap [])).2) = 2%nat
  ∧ length (dispatch_order (outcome abandon_run (boot abc_heap [])).2) = 1%nat.
Proof.
  split; [|split; vm_compute; reflexivity].
  rewrite (proj1 (stats_counts_undispatched abc_heap [] abandon_run
                    (outcome abandon_run (boot abc_heap [])).1
                    (outcome abandon_run (boot abc_heap [])).2
                    ltac:(vm_compute; reflexivity))).
  vm_compute. reflexivity.
Defined.

(** ** After the loop has returned *)

Section returned_loop.
Implicit Types (w : World) (l : Label) (evs e : list Event).

(** A step either leaves the loop as it is and does not report its return,
    or is the iteration in which the live loop sees [quit] closed. *)
Lemma step_looping l w w' e :
  step l w = Some (w', e) →
  (looping w' = looping w ∧ EvLoopReturned ∉ e)
  ∨ (looping w = true ∧ quit (eng w) = Closed ∧ looping w' = false
     ∧ e = [EvLoopReturned]).
Proof.
  destruct l as [req| | |i|c|c]; [rewrite step_enqueue|cbn [step]..].
  - intros [-> ->]%some_pair_inv. left. split; [by destruct req|].
    destruct req as [p|]; cbn [fst snd].
    + rewrite EnqueueTransfer_result. by intros ?%list_elem_of_singleton.
    + by intros ?%list_elem_of_singleton.
  - unfold Stop. destruct (quit (eng w)); [|done]. intros [= <- <-].
    left. split; [done|apply not_elem_of_nil].
  - intros [-> ->]%some_pair_inv. unfold loop_iter.
    destruct (looping w) eqn:El; [|left; split; [done|apply not_elem_of_nil]].
    destruct (quit (eng w)) eqn:Eq; [|by right].
    left. destruct (pending (eng w)); (split; [done|]).
    + apply not_elem_of_nil.
    + by intros ?%list_elem_of_singleton.
  - intros [-> ->]%some_pair_inv. left.
    destruct (wake_frame i w) as (_ & _ & ->). split; [done|].
    destruct (wake_cases i w) as [[_ ->]|(r & lat & _ & _ & Hsend)];
      [apply not_elem_of_nil|].
    destruct Hsend as [(c & ch & ch' & d & _ & _ & _ & _ & ->)|(_ & -> & _)];
      by intros ?%list_elem_of_singleton.
  - intros [-> ->]%some_pair_inv. left.
    destruct (receive_frame c w) as (_ & _ & -> & _). split; [done|].
    unfold receive. destruct (chans w !! c) as [ch|]; [|apply not_elem_of_nil].
    destruct (recv ch) as [ch' [v|]]; [|apply not_elem_of_nil].
    by intros ?%list_elem_of_singleton.
  - intros [-> ->]%some_pair_inv. left.
    destruct (cancel_frame c w) as (_ & _ & -> & _). split; [done|].
    rewrite cancel_silent. apply not_elem_of_nil.
Qed.

(** [quit] is never reopened. *)
Lemma step_quit_closed l w w' e :
  step l w = Some (w', e) → quit (eng w) = Closed → quit (eng w') = Closed.
Proof.
  intros Hstep Hq. destruct (decide (l = LStop)) as [->|Hl].
  - cbn in Hstep. unfold Stop in Hstep. by rewrite Hq in Hstep.
  - destruct (step_quit l w Hl) as (w1 & e1 & Hs & Hq').
    rewrite Hs in Hstep. injection Hstep as <- _. congruence.
Qed.

(** The loop is dead exactly when its return was reported, and then [quit]
    is closed. *)
Definition return_reported (w : World) (evs : list Event) : Prop :=
  (looping w = false ↔ EvLoopReturned ∈ evs)
  ∧ (looping w = false → quit (eng w) = Closed).

Lemma step_return_reported l w evs w' e :
  return_reported w evs → step l w = Some (w', e) → return_reported w' (evs ++ e).
Proof.
  intros [H1 H2] Hstep. unfold return_reported. rewrite elem_of_app.
  destruct (step_looping l w w' e Hstep) as [[-> He]|(Hl & Hq & -> & ->)].
  - split; [|intros Hl; eapply step_quit_closed; eauto].
    split; [intros Hl; left; by apply H1|].
    intros [Hin|Hin]; [by apply H1|done].
  - split; [|intros _; eapply step_quit_closed; eauto].
    split; [|done]. intros _. right. by apply list_elem_of_singleton.
Qed.

(** With the loop dead the queue only grows: it is the old queue and the
    submissions since; nothing is dispatched and the loop stays dead. *)
Lemma step_dead_loop (q : list loc) l w evs w' e :
  looping w = false ∧ dispatch_order evs = [] ∧ (EvLoopReturned ∉ evs)
  ∧ (pending (eng w) ≡ₚ q ++ submitted evs) →
  step l w = Some (w', e) →
  looping w' = false ∧ dispatch_order (evs ++ e) = [] ∧ (EvLoopReturned ∉ evs ++ e)
  ∧ (pending (eng w') ≡ₚ q ++ submitted (evs ++ e)).
Proof.
  intros (Hl & Hd & Hr & Hq) Hstep.
  destruct (step_looping l w w' e Hstep) as [[Hl' He]|(? & _)]; [|congruence].
  split; [congruence|]. unfold dispatch_order, submitted in *.
  rewrite !omap_app, Hd, app_assoc, <- Hq, not_elem_of_app. clear Hq Hd.
  split_and!; try done.
  - destruct l as [req| | |i|c|c]; [rewrite step_enqueue in Hstep|(cbn [step] in Hstep)..].
    + apply some_pair_inv in Hstep as [-> ->]. apply dispatch_order_submit_event.
    + unfold Stop in Hstep. destruct (quit (eng w)); [|done]. by injection Hstep as <- <-.
    + apply some_pair_inv in Hstep as [-> ->]. unfold loop_iter. by rewrite Hl.
    + apply some_pair_inv in Hstep as [-> ->].
      destruct (wake_cases i w) as [[_ ->]|(r & lat & _ & _ & Hsend)]; [done|].
      by destruct Hsend as [(c & ch & ch' & d & _ & _ & _ & _ & ->)|(_ & -> & _)].
    + apply some_pair_inv in Hstep as [-> ->]. unfold receive.
      destruct (chans w !! c) as [ch|]; [|done]. by destruct (recv ch) as [ch' [v|]].
    + apply some_pair_inv in Hstep as [-> ->]. by rewrite cancel_silent.
  - destruct l as [[p|]| | |i|c|c]; [rewrite step_enqueue in Hstep; apply some_pair_inv in Hstep as [-> ->]..|cbn [step] in Hstep|cbn [step] in Hstep|cbn [step] in Hstep|cbn [step] in Hstep|cbn [step] in Hstep].
    + cbn [fst snd].
      by rewrite EnqueueTransfer_result, EnqueueTransfer_perm.
    + cbn. by rewrite app_nil_r.
    + unfold Stop in Hstep. destruct (quit (eng w)); [|done].
      injection Hstep as <- <-. cbn. by rewrite app_nil_r.
    + apply some_pair_inv in Hstep as [-> ->]. unfold loop_iter. rewrite Hl.
      cbn. by rewrite app_nil_r.
    + apply some_pair_inv in Hstep as [-> ->].
      destruct (wake_frame i w) as (_ & -> & _).
      destruct (wake_cases i w) as [[_ ->]|(r & lat & _ & _ & Hsend)];
        [cbn; by rewrite app_nil_r|].
      destruct Hsend as [(c & ch & ch' & d & _ & _ & _ & _ & ->)|(_ & -> & _)];
        cbn; by rewrite app_nil_r.
    + apply some_pair_inv in Hstep as [-> ->].
      destruct (receive_frame c w) as (_ & -> & _). unfold receive.
      destruct (chans w !! c) as [ch|]; [|cbn; by rewrite app_nil_r].
      destruct (recv ch) as [ch' [v|]]; cbn; by rewrite app_nil_r.
    + apply some_pair_inv in Hstep as [-> ->].
      destruct (cancel_frame c w) as (_ & -> & _).
      rewrite cancel_silent. cbn. by rewrite app_nil_r.
Qed.

End returned_loop.

(** X10. In every run of a new engine the dispatch loop has returned exactly
    when its return was reported, which happens only with [quit] closed.
    From then on, however the run goes on, the loop stays dead and reports
    no second return, nothing is dispatched, and the queue is the queue of
    that moment together with every request accepted since: submissions
    still succeed but are never served. *)
Theorem nothing_dispatched_after_return
  (h : loc → TransferRequest) (cs : list Chan) (ls : list Label)
  (w : World) (evs : list Event) :
  run ls (boot h cs) = Some (w, evs) →
  (looping w = false ↔ EvLoopReturned ∈ evs)
  ∧ (looping w = false → quit (eng w) = Closed)
  ∧ (looping w = false → ∀ ls' w' evs', run ls' w = Some (w', evs') →
       looping w' = false ∧ dispatch_order evs' = [] ∧ (EvLoopReturned ∉ evs')
       ∧ (pending (eng w') ≡ₚ pending (eng w) ++ submitted evs')).
Proof.
  intros Hrun.
  assert (return_reported w evs) as [H1 H2].
  { apply (run_invariant (λ _ _, True) return_reported
             (λ l w evs w' e HA _, step_return_reported l w evs w' e HA)
             ls (boot h cs) [] w evs); [|apply throughout_True|done].
    split; [|done]. split; [done|by intros ?%elem_of_nil]. }
  split_and!; [done..|]. intros Hl ls' w' evs' Hrun'.
  apply (run_invariant (λ _ _, True)
           (λ w' evs', looping w' = false ∧ dispatch_order evs' = []
                       ∧ (EvLoopReturned ∉ evs')
                       ∧ (pending (eng w') ≡ₚ pending (eng w) ++ submitted evs'))
           (λ l w0 evs0 w1 e HA _, step_dead_loop (pending (eng w)) l w0 evs0 w1 e HA)
           ls' w [] w' evs'); [|apply throughout_True|done].
  split_and!; [done|done|apply not_elem_of_nil|]. cbn. by rewrite app_nil_r.
Qed.

Lemma nothing_dispatched_after_return_witness :
  looping (outcome abandon_run (boot abc_heap [])).1 = false
  ∧ EvLoopReturned ∈ (outcome abandon_run (boot abc_heap [])).2
  ∧ quit (eng (outcome abandon_run (boot abc_heap [])).1) = Closed.
Proof.
  destruct (nothing_dispatched_after_return abc_heap [] abandon_run
              (outcome abandon_run (boot abc_heap [])).1
              (outcome abandon_run (boot abc_heap [])).2) as (H1 & H2 & _).
  - vm_compute. reflexivity.
  - assert (looping (outcome abandon_run (boot abc_heap [])).1 = false) as Hl
      by (vm_compute; reflexivity).
    split; [done|]. split; [by apply H1|by apply H2].
Defined.

(** ** More on the service time *)

Lemma service_latency_exact (e : PMEngine) (r : TransferRequest) :
  0 ≤ SizeBytes r < 2 ^ 64 → 0 ≤ interval e →
  interval e + (SizeBytes r / MiB) * Millisecond < 2 ^ 63 →
  service_latency e r
  = if decide (Priority r ≤ 0)
    then (interval e + (SizeBytes r / MiB) * Millisecond) / 2
    else interval e + (SizeBytes r / MiB) * Millisecond.
Proof.
  intros Hsize Hbase Hfit. unfold service_latency. cbn zeta.
  assert (0 ≤ SizeBytes r / MiB < 2 ^ 44) as Hq.
  { rewrite MiB_value. split; [apply Z.div_pos; lia|].
    apply Z.div_lt_upper_bound; lia. }
  unfold Millisecond in *.
  rewrite (wrap64_small (SizeBytes r / MiB)) by lia.
  rewrite Z.mul_1_r, (wrap64_small (SizeBytes r / MiB)) by lia.
  rewrite (wrap64_small (SizeBytes r / MiB * 1000000)) by lia.
  rewrite wrap64_small by lia.
  destruct (Z.leb_spec (Priority r) 0); case_decide; try lia.
  apply Z.quot_div_nonneg; lia.
Qed.

(** The service time reads only the base latency, the size and the
    priority. *)
Lemma service_latency_ext (e e' : PMEngine) (r r' : TransferRequest) :
  interval e = interval e' → SizeBytes r = SizeBytes r' → Priority r = Priority r' →
  service_latency e r = service_latency e' r'.
Proof. unfold service_latency. by intros -> -> ->. Qed.

(** X11. As long as the nanosecond count does not overflow, a request that
    is no larger than another and in the halved tier (priority at most 0)
    whenever the other is, is served no slower than the other; and no
    service time is negative. *)
Theorem service_latency_monotone (e : PMEngine) (r r' : TransferRequest) :
  0 ≤ SizeBytes r ≤ SizeBytes r' → SizeBytes r' < 2 ^ 64 →
  0 ≤ interval e →
  interval e + (SizeBytes r' / MiB) * Millisecond < 2 ^ 63 →
  (Priority r' ≤ 0 → Priority r ≤ 0) →
  0 ≤ service_latency e r ≤ service_latency e r'.
Proof.
  intros Hsz Hsz' Hbase Hfit Hprio.
  assert (0 ≤ SizeBytes r / MiB ≤ SizeBytes r' / MiB) as Hq.
  { rewrite MiB_value. split; [apply Z.div_pos; lia|apply Z.div_le_mono; lia]. }
  unfold Millisecond in *.
  rewrite (service_latency_exact e r), (service_latency_exact e r')
    by (unfold Millisecond; lia).
  unfold Millisecond.
  set (t := interval e + SizeBytes r / MiB * 1000000).
  set (t' := interval e + SizeBytes r' / MiB * 1000000).
  assert (0 ≤ t ≤ t') by (unfold t, t'; lia).
  assert (0 ≤ t / 2 ≤ t) by (split; [apply Z.div_pos; lia|apply Z.div_le_upper_bound; lia]).
  assert (t / 2 ≤ t' / 2) by (apply Z.div_le_mono; lia).
  repeat case_decide; lia.
Qed.

Lemma service_latency_monotone_witness :
  0 ≤ service_latency NewPMEngine (mkReq "a" 0 1 (3 * MiB) 0 "" None)
    ≤ service_latency NewPMEngine (mkReq "b" 0 1 (5 * MiB + 7) 4 "" None).
Proof.
  apply (service_latency_monotone NewPMEngine
           (mkReq "a" 0 1 (3 * MiB) 0 "" None)
           (mkReq "b" 0 1 (5 * MiB + 7) 4 "" None));
    vm_compute; try split; congruence.
Defined.

(** ** What the engine never writes *)

Section writes.
Implicit Types (w : World) (l : Label) (evs e : list Event).

Lemma set_Done_set_Done r a b : set_Done (set_Done r a) b = set_Done r b.
Proof. done. Qed.

(** Against the requests [h] of the start: only [Done] differs, requests
    never accepted are untouched, the engine's base latency and [active] are
    the ones [NewPMEngine] set, and every dispatch used the service time of
    the request as it was at the start. *)
Definition only_done_written (h : loc → TransferRequest) (w : World)
  (evs : list Event) : Prop :=
  (∀ p, set_Done (heap w p) (Done (h p)) = h p)
  ∧ (∀ p, p ∉ submitted evs → heap w p = h p)
  ∧ interval (eng w) = 2 * Millisecond ∧ active (eng w) = false
  ∧ (∀ p lat, EvDispatched p lat ∈ evs → lat = service_latency NewPMEngine (h p)).

Lemma only_done_written_silent h w w' evs e :
  only_done_written h w evs →
  heap w' = heap w → interval (eng w') = interval (eng w) →
  active (eng w') = active (eng w) →
  (∀ p lat, EvDispatched p lat ∉ e) →
  only_done_written h w' (evs ++ e).
Proof.
  intros (H1 & H2 & H3 & H4 & H5) Hh Hi Ha He. unfold only_done_written.
  rewrite Hh, Hi, Ha. split_and!; try done.
  - intros p Hp. apply H2. intros Hin. apply Hp. unfold submitted.
    rewrite omap_app. apply elem_of_app. by left.
  - intros p lat [Hin|Hin]%elem_of_app; [by apply H5|by apply He in Hin].
Qed.

Lemma step_only_done_written h l w evs w' e :
  only_done_written h w evs → step l w = Some (w', e) →
  only_done_written h w' (evs ++ e).
Proof.
  intros HI Hstep.
  destruct l as [[p|]| | |i|c|c];
    [rewrite step_enqueue in Hstep..|cbn [step] in Hstep|cbn [step] in Hstep
    |cbn [step] in Hstep|cbn [step] in Hstep|cbn [step] in Hstep].
  - apply some_pair_inv in Hstep as [-> ->]. cbn [fst snd].
    rewrite EnqueueTransfer_result. destruct HI as (H1 & H2 & H3 & H4 & H5).
    unfold only_done_written. split_and!; try done.
    + intros x. cbn [EnqueueTransfer fst heap].
      destruct (decide (p = x)) as [->|Hne].
      * by rewrite fn_lookup_insert, set_Done_set_Done.
      * by rewrite fn_lookup_insert_ne.
    + intros x Hx. cbn [EnqueueTransfer fst heap].
      unfold submitted in Hx. rewrite omap_app in Hx. cbn [omap] in Hx.
      apply not_elem_of_app in Hx as [Hx Hxp].
      rewrite fn_lookup_insert_ne; [by apply H2|].
      intros ->. apply Hxp. by apply list_elem_of_singleton.
    + intros x lat [Hin|Hin]%elem_of_app; [by apply H5|].
      by apply list_elem_of_singleton in Hin.
  - apply some_pair_inv in Hstep as [-> ->].
    apply (only_done_written_silent h w); try done.
    intros p lat. by intros ?%list_elem_of_singleton.
  - unfold Stop in Hstep. destruct (quit (eng w)); [|done].
    injection Hstep as <- <-.
    apply (only_done_written_silent h w); try done.
    intros p lat. apply not_elem_of_nil.
  - apply some_pair_inv in Hstep as [-> ->]. unfold loop_iter.
    destruct (looping w);
      [|apply (only_done_written_silent h w); try done; intros ??; apply not_elem_of_nil].
    destruct (quit (eng w)).
    + destruct (pending (eng w)) as [|req rest];
        [apply (only_done_written_silent h w); try done; intros ??; apply not_elem_of_nil|].
      destruct HI as (H1 & H2 & H3 & H4 & H5).
      unfold only_done_written. cbn [fst snd heap eng interval active].
      split_and!; try done.
      * intros p Hp. apply H2. intros Hin. apply Hp. unfold submitted.
        rewrite omap_app. apply elem_of_app. by left.
      * intros p lat [Hin|Hin]%elem_of_app; [by apply H5|].
        apply list_elem_of_singleton in Hin as [= -> ->].
        rewrite <- (H1 req). by apply service_latency_ext.
    + apply (only_done_written_silent h w); try done.
      intros p lat. by intros ?%list_elem_of_singleton.
  - apply some_pair_inv in Hstep as [-> ->].
    destruct (wake_frame i w) as (Hh & He & _).
    apply (only_done_written_silent h w); try done; [by rewrite He..|].
    intros p lat.
    destruct (wake_cases i w) as [[_ ->]|(r & lat' & _ & _ & Hsend)];
      [apply not_elem_of_nil|].
    destruct Hsend as [(c & ch & ch' & d & _ & _ & _ & _ & ->)|(_ & -> & _)];
      by intros ?%list_elem_of_singleton.
  - apply some_pair_inv in Hstep as [-> ->].
    destruct (receive_frame c w) as (Hh & He & _).
    apply (only_done_written_silent h w); try done; [by rewrite He..|].
    intros p lat. unfold receive.
    destruct (chans w !! c) as [ch|]; [|apply not_elem_of_nil].
    destruct (recv ch) as [ch' [v|]]; [|apply not_elem_of_nil].
    by intros ?%list_elem_of_singleton.
  - apply some_pair_inv in Hstep as [-> ->].
    destruct (cancel_frame c w) as (Hh & He & _).
    apply (only_done_written_silent h w); try done; [by rewrite He..|].
    intros p lat. rewrite cancel_silent. apply not_elem_of_nil.
Qed.

End writes.

(** X12. In every run of a new engine the engine writes nothing of a
    request but its [Done]: every other field is as the caller set it, and a
    request that was never accepted is untouched. The base latency stays the
    2 ms of [NewPMEngine] and [active] stays false, so every dispatch is
    given the service time computed from the request's size and priority as
    the caller set them. *)
Theorem engine_writes_only_done
  (h : loc → TransferRequest) (cs : list Chan) (ls : list Label)
  (w : World) (evs : list Event) :
  run ls (boot h cs) = Some (w, evs) →
  (∀ p, set_Done (heap w p) (Done (h p)) = h p)
  ∧ (∀ p, p ∉ submitted evs → heap w p = h p)
  ∧ interval (eng w) = 2 * Millisecond ∧ active (eng w) = false
  ∧ (∀ p lat, EvDispatched p lat ∈ evs → lat = service_latency NewPMEngine (h p)).
Proof.
  intros Hrun.
  apply (run_invariant (λ _ _, True) (only_done_written h)
           (λ l w evs w' e HA _, step_only_done_written h l w evs w' e HA)
           ls (boot h cs) [] w evs); [|apply throughout_True|done].
  unfold only_done_written. split_and!; [|done..|].
  - intros p. cbn. by destruct (h p).
  - intros p lat. by intros ?%elem_of_nil.
Qed.

Lemma engine_writes_only_done_witness :
  heap (outcome abandon_run (boot abc_heap [])).1 2%nat = abc_heap 2%nat
  ∧ set_Done (heap (outcome abandon_run (boot abc_heap [])).1 1%nat) None
    = abc_heap 1%nat
  ∧ Done (heap (outcome abandon_run (boot abc_heap [])).1 1%nat) = Some 1%nat.
Proof.
  destruct (engine_writes_only_done abc_heap [] abandon_run
              (outcome abandon_run (boot abc_heap [])).1
              (outcome abandon_run (boot abc_heap [])).2) as (H1 & H2 & _).
  - vm_compute. reflexivity.
  - split_and!; [|apply (H1 1%nat)|vm_compute; reflexivity].
    apply H2. refine (bool_decide_unpack _ _). vm_compute. exact I.
Defined.

(** ** The channels the engine makes *)

Section made_channels.
Variable n : nat.
Implicit Types (w : World) (l : Label) (evs e : list Event) (c : chan).

(** A channel of capacity 1 that holds at most one value, which is nil. *)
Definition nil_slot (ch : Chan) : Prop :=
  cap ch = 1%nat ∧ (length (buf ch) ≤ 1)%nat ∧ Forall (λ v, v = None) (buf ch).

(** With [n] channels made before the engine: one more channel per accepted
    submission, each a [nil_slot], and only nil was received from them. *)
Definition channels_ok (w : World) (evs : list Event) : Prop :=
  length (chans w) = (n + length (submitted evs))%nat
  ∧ (∀ c ch, (n ≤ c)%nat → chans w !! c = Some ch → nil_slot ch)
  ∧ (∀ c v, (n ≤ c)%nat → v ∈ received_on c evs → v = None).

Lemma received_on_app c evs e :
  received_on c (evs ++ e) = received_on c evs ++ received_on c e.
Proof. apply omap_app. Qed.

Lemma received_on_received c c' v :
  received_on c [EvReceived c' v] = if decide (c' = c) then [v] else [].
Proof. unfold received_on. cbn. by case_decide. Qed.

Lemma nil_slot_try_send ch ch' d : nil_slot ch → try_send ch None = Some (ch', d) → nil_slot ch'.
Proof.
  intros (Hc & Hl & Hb). unfold try_send.
  destruct (0 <? receivers ch)%nat; [by intros [= <- _]|].
  destruct (length (buf ch) <? cap ch)%nat eqn:E; [|done]. intros [= <- _].
  apply Nat.ltb_lt in E. rewrite Hc in E. unfold nil_slot. cbn.
  rewrite length_app. cbn. split_and!; [done|lia|].
  apply Forall_app. split; [done|]. by constructor.
Qed.

Lemma nil_slot_recv ch : nil_slot ch → nil_slot (recv ch).1 ∧ ∀ v, (recv ch).2 = Some v → v = None.
Proof.
  intros (Hc & Hl & Hb). unfold recv, nil_slot.
  destruct (buf ch) as [|v rest]; cbn in *; [by split_and!|].
  apply Forall_cons in Hb as [-> Hb]. split; [split_and!; [done|lia|done]|].
  by intros v [= <-].
Qed.

Lemma channels_ok_silent w w' evs e :
  channels_ok w evs →
  length (chans w') = length (chans w) →
  (∀ c ch', (n ≤ c)%nat → chans w' !! c = Some ch' →
     ∃ ch, chans w !! c = Some ch ∧ (nil_slot ch → nil_slot ch')) →
  submitted e = [] →
  (∀ c v, (n ≤ c)%nat → v ∈ received_on c e → v = None) →
  channels_ok w' (evs ++ e).
Proof.
  intros (H1 & H2 & H3) Hlen Hch Hsub Hrec.
  unfold channels_ok, submitted, received_on in *.
  rewrite Hlen, !omap_app, Hsub, app_nil_r. split_and!; [done| |].
  - intros c ch' Hc Hc'. destruct (Hch c ch' Hc Hc') as (ch & Hch0 & Hslot).
    apply Hslot. by eapply H2.
  - intros c v Hc. rewrite omap_app.
    intros [Hin|Hin]%elem_of_app; [by eapply H3|by eapply Hrec].
Qed.

Lemma chans_same w c (ch' : Chan) :
  chans w !! c = Some ch' →
  ∃ ch, chans w !! c = Some ch ∧ (nil_slot ch → nil_slot ch').
Proof. intros H. by exists ch'. Qed.

Lemma chans_insert w c0 (ch0 ch1 : Chan) c (ch' : Chan) :
  chans w !! c0 = Some ch0 → (nil_slot ch0 → nil_slot ch1) →
  <[c0 := ch1]> (chans w) !! c = Some ch' →
  ∃ ch, chans w !! c = Some ch ∧ (nil_slot ch → nil_slot ch').
Proof.
  intros H0 Hslot [(-> & -> & _)|[_ H]]%list_lookup_insert_Some.
  - by exists ch0.
  - by exists ch'.
Qed.

Lemma step_channels_ok l w evs w' e :
  channels_ok w evs → step l w = Some (w', e) → channels_ok w' (evs ++ e).
Proof.
  intros HI Hstep.
  destruct l as [[p|]| | |i|c|c];
    [rewrite step_enqueue in Hstep..|cbn [step] in Hstep|cbn [step] in Hstep
    |cbn [step] in Hstep|cbn [step] in Hstep|cbn [step] in Hstep].
  - apply some_pair_inv in Hstep as [-> ->]. cbn [fst snd].
    rewrite EnqueueTransfer_result. destruct HI as (H1 & H2 & H3).
    unfold channels_ok.
    rewrite chans_enqueue, submitted_app, !length_app.
    change (submitted (submit_event _ _)) with [p].
    cbn [length]. split_and!; [lia| |].
    + intros c ch Hc [Hl|[_ [_ <-]%list_lookup_singleton_Some]]%lookup_app_Some.
      * by eapply H2.
      * unfold nil_slot. cbn. split_and!; [done|lia|constructor].
    + intros c v Hc. rewrite received_on_app.
      change (received_on c (submit_event _ _)) with (@nil (option error)).
      rewrite app_nil_r. by apply H3.
  - apply some_pair_inv in Hstep as [-> ->].
    apply (channels_ok_silent w); try done; [by intros; apply chans_same|].
    intros c v _. by intros ?%elem_of_nil.
  - unfold Stop in Hstep. destruct (quit (eng w)); [|done].
    injection Hstep as <- <-.
    apply (channels_ok_silent w); try done; [by intros; apply chans_same|].
    intros c v _. by intros ?%elem_of_nil.
  - apply some_pair_inv in Hstep as [-> ->].
    apply (channels_ok_silent w).
    + done.
    + by rewrite loop_iter_chans.
    + rewrite loop_iter_chans. by intros; apply chans_same.
    + unfold loop_iter. destruct (looping w); [|done].
      destruct (quit (eng w)); [|done]. by destruct (pending (eng w)).
    + intros c v _. unfold loop_iter. destruct (looping w); [|by intros ?%elem_of_nil].
      destruct (quit (eng w)); [|by intros ?%elem_of_nil].
      destruct (pending (eng w)); by intros ?%elem_of_nil.
  - apply some_pair_inv in Hstep as [-> ->].
    destruct (wake_cases i w) as [[_ ->]|(r & lat & _ & _ & Hsend)].
    { apply (channels_ok_silent w); try done; [by intros; apply chans_same|].
      intros c v _. by intros ?%elem_of_nil. }
    destruct Hsend as [(c & ch & ch' & d & _ & Hc & Hs & Hch & Hev)|(Hch & Hev & _)].
    + apply (channels_ok_silent w); rewrite ?Hch, ?Hev; try done.
      * apply length_insert.
      * intros c0 ch0 _. apply (chans_insert w c ch ch' c0 ch0 Hc).
        intros Hslot. by eapply nil_slot_try_send.
      * intros c0 v _. by intros ?%elem_of_nil.
    + apply (channels_ok_silent w); rewrite ?Hch, ?Hev; try done;
        [by intros; apply chans_same|].
      intros c v _. by intros ?%elem_of_nil.
  - apply some_pair_inv in Hstep as [-> ->]. unfold receive.
    destruct (chans w !! c) as [ch|] eqn:Hc.
    + destruct (recv ch) as [ch' got] eqn:Er.
      apply (channels_ok_silent w); cbn [fst snd chans].
      * done.
      * apply length_insert.
      * intros c0 ch0 _. apply (chans_insert w c ch ch' c0 ch0 Hc).
        intros Hslot. apply nil_slot_recv in Hslot as [Hslot _]. by rewrite Er in Hslot.
      * by destruct got.
      * intros c0 v Hc0. destruct got as [v0|]; [|by intros ?%elem_of_nil].
        rewrite received_on_received. case_decide as E; [|by intros ?%elem_of_nil].
        subst c0. intros ->%list_elem_of_singleton.
        destruct HI as (_ & H2 & _).
        destruct (nil_slot_recv ch (H2 c ch Hc0 Hc)) as [_ Hv].
        apply Hv. by rewrite Er.
    + apply (channels_ok_silent w); try done; [by intros; apply chans_same|].
      intros c0 v _. by intros ?%elem_of_nil.
  - apply some_pair_inv in Hstep as [-> ->]. unfold Engine.cancel.
    destruct (chans w !! c) as [ch|] eqn:Hc.
    + apply (channels_ok_silent w); cbn [fst snd chans]; try done.
      * apply length_insert.
      * intros c0 ch0 _. by apply (chans_insert w c ch (abandon ch) c0 ch0 Hc).
      * intros c0 v _. by intros ?%elem_of_nil.
    + apply (channels_ok_silent w); try done; [by intros; apply chans_same|].
      intros c0 v _. by intros ?%elem_of_nil.
Qed.

End made_channels.

(** X13. In every run of a new engine there is one channel more for every
    accepted submission and none for a rejected one; every channel the
    engine made has capacity 1 and never holds more than one value; and
    every value it holds, and every value a caller ever received from it,
    is nil: the engine reports no transfer error. *)
Theorem engine_channels_carry_one_nil
  (h : loc → TransferRequest) (cs : list Chan) (ls : list Label)
  (w : World) (evs : list Event) :
  run ls (boot h cs) = Some (w, evs) →
  length (chans w) = (length cs + length (submitted evs))%nat
  ∧ (∀ c ch, (length cs ≤ c)%nat → chans w !! c = Some ch →
       cap ch = 1%nat ∧ (length (buf ch) ≤ 1)%nat ∧ Forall (λ v, v = None) (buf ch))
  ∧ (∀ c v, (length cs ≤ c)%nat → v ∈ received_on c evs → v = None).
Proof.
  intros Hrun.
  apply (run_invariant (λ _ _, True) (channels_ok (length cs))
           (λ l w evs w' e HA _, step_channels_ok (length cs) l w evs w' e HA)
           ls (boot h cs) [] w evs); [|apply throughout_True|done].
  unfold channels_ok. cbn. split_and!; [lia| |].
  - intros c ch Hc Hl. apply lookup_lt_Some in Hl. lia.
  - intros c v _. by intros ?%elem_of_nil.
Qed.

Lemma engine_channels_carry_one_nil_witness :
  length (chans (outcome (LEnqueue None :: abandon_run) (boot abc_heap [])).1) = 2%nat
  ∧ received_on 1%nat
      (outcome (abandon_run ++ [LReceive 1%nat]) (boot abc_heap [])).2 = [None].
Proof.
  split.
  - rewrite (proj1 (engine_channels_carry_one_nil abc_heap []
                      (LEnqueue None :: abandon_run)
                      (outcome (LEnqueue None :: abandon_run) (boot abc_heap [])).1
                      (outcome (LEnqueue None :: abandon_run) (boot abc_heap [])).2
                      ltac:(vm_compute; reflexivity))).
    vm_compute. reflexivity.
  - vm_compute. reflexivity.
Defined.

(** ** Where a submission lands *)

(** X14. In every world a run of a new engine reaches, [EnqueueTransfer]
    keeps the queued requests in the order they have and puts the new one
    behind every queued request whose priority value is at most its own and
    in front of every queued request whose priority value is greater. *)
Theorem enqueue_lands_behind_its_tier (w : World) (p : loc) :
  reachable w →
  ∃ a b,
    pending (eng w) = a ++ b
    ∧ pending (eng (EnqueueTransfer (Some p) w).1) = a ++ p :: b
    ∧ Forall (λ y, prio w y ≤ prio w p) a
    ∧ Forall (λ y, prio w p < prio w y) b.
Proof.
  intros Hreach. destruct (reachable_queue_ok w Hreach) as (_ & Hs & _).
  destruct (EnqueueTransfer_pending w p) as (a & b & Hq & Hq' & Hb & Ha).
  exists a, b. split_and!; [done..| |done].
  rewrite Hq in Hs. apply StronglySorted_app_1_l in Hs.
  destruct a as [|y a' _] using rev_ind; [constructor|].
  apply Forall_forall. intros z Hz.
  eapply (ascending_all_le (prio w)); [exact Hs| |exact Hz]. by eapply Ha.
Qed.

Lemma enqueue_lands_behind_its_tier_witness :
  ∃ a b,
    pending (eng (outcome (submissions [0; 1]%nat) (boot abc_heap [])).1) = a ++ b
    ∧ pending (eng (EnqueueTransfer (Some 2%nat)
                      (outcome (submissions [0; 1]%nat) (boot abc_heap [])).1).1)
      = a ++ 2%nat :: b
    ∧ Forall (λ y, prio (outcome (submissions [0; 1]%nat) (boot abc_heap [])).1 y
                   ≤ prio (outcome (submissions [0; 1]%nat) (boot abc_heap [])).1 2%nat) a
    ∧ Forall (λ y, prio (outcome (submissions [0; 1]%nat) (boot abc_heap [])).1 2%nat
                   < prio (outcome (submissions [0; 1]%nat) (boot abc_heap [])).1 y) b.
Proof.
  apply (enqueue_lands_behind_its_tier
           (outcome (submissions [0; 1]%nat) (boot abc_heap [])).1 2%nat).
  exists abc_heap, [], (submissions [0; 1]%nat),
    (outcome (submissions [0; 1]%nat) (boot abc_heap [])).2.
  vm_compute. reflexivity.
Defined.

(** * SubmitWithContext (pm_engine.go) *)

(** Where a caller of [SubmitWithContext] is. The call is not one step: the
    rest of the program runs between its own steps. *)
Inductive Call :=
| AtSelect (done : option chan)   (* EnqueueTransfer returned; the select is next *)
| Parked (done : option chan)     (* blocked in the select, as a receiver of done *)
| Returned (err : option error).

(** [done, err := e.EnqueueTransfer(req); if err != nil { return err }] *)
Definition SubmitWithContext_enqueue (req : option loc) (w : World) : World * Call :=
  let '(w', (done, err)) := EnqueueTransfer req w in
  match err with
  | Some e => (w', Returned (Some e))
  | None => (w', AtSelect done)
  end.

(** The caller reaches
    [select { case <-ctx.Done(): return ctx.Err(); case err := <-done: return err }].
    [ctx] is [Some e] when [ctx.Done()] is closed, [e] being [ctx.Err()]. A
    receive from a nil channel is never ready. When both cases are ready Go
    takes either one: [ctx_first] says which. When none is, the caller
    blocks, registered as a receiver of [done]. *)
Definition SubmitWithContext_select (ctx : option error) (ctx_first : bool)
  (done : option chan) (w : World) : World * Call :=
  match done with
  | None =>
      match ctx with
      | Some e => (w, Returned (Some e))
      | None => (w, Parked None)
      end
  | Some c =>
      match ctx, (ch ← chans w !! c; head (buf ch)) with
      | Some e, Some v =>
          if ctx_first then (w, Returned (Some e)) else ((receive c w).1, Returned v)
      | Some e, None => (w, Returned (Some e))
      | None, Some v => ((receive c w).1, Returned v)
      | None, None => ((receive c w).1, Parked done)
      end
  end.

(** The blocked caller is woken because [ctx.Done()] was closed: it is no
    longer a receiver of [done] and returns [ctx.Err()]. *)
Definition SubmitWithContext_ctx_done (e : error) (done : option chan) (w : World)
  : World * Call :=
  (match done with Some c => (Engine.cancel c w).1 | None => w end, Returned (Some e)).

(** The blocked caller, the only receiver of its channel, after the events
    of a step of the rest of the program: a send handed over on the channel
    wakes it with the value sent, which [wake] sends as nil. *)
Definition SubmitWithContext_woken (call : Call) (e : list Event) : Call :=
  match call with
  | Parked (Some c) =>
      if decide (c ∈ omap (λ ev, match ev with
                                 | EvSignalled _ c' Handed => Some c'
                                 | _ => None
                                 end) e)
      then Returned None else call
  | _ => call
  end.

Section submit_with_context.
Implicit Types (w : World) (l : Label) (evs e : list Event) (c : chan).

Lemma run_channels_ok h cs ls w evs :
  run ls (boot h cs) = Some (w, evs) → channels_ok (length cs) w evs.
Proof.
  intros Hrun.
  apply (run_invariant (λ _ _, True) (channels_ok (length cs))
           (λ l w evs w' e HA _, step_channels_ok (length cs) l w evs w' e HA)
           ls (boot h cs) [] w evs); [|apply throughout_True|done].
  unfold channels_ok. cbn. split_and!; [lia| |].
  - intros c ch Hc Hl. apply lookup_lt_Some in Hl. lia.
  - intros c v _. by intros ?%elem_of_nil.
Qed.

(** Parking on a channel with an empty buffer and leaving again gives back
    the world. *)
Lemma park_and_leave w c ch :
  chans w !! c = Some ch → buf ch = [] →
  (Engine.cancel c (receive c w).1).1 = w.
Proof.
  intros Hc Hb. unfold receive. rewrite Hc. unfold recv. rewrite Hb.
  unfold Engine.cancel. cbn [fst chans].
  rewrite list_lookup_insert_eq by (by eapply lookup_lt_Some).
  cbn [fst heap chans eng looping sleepers]. rewrite list_insert_insert_eq.
  unfold abandon. cbn [cap buf receivers Nat.pred].
  destruct w as [hp chs en lo sl]. cbn in *. f_equal.
  apply list_insert_id. destruct ch as [k b r]. cbn in *. by subst b.
Qed.

End submit_with_context.

Section submit_with_context_more.
Implicit Types (w : World) (l : Label) (evs e : list Event) (c : chan).

Lemma handed_signalled c e :
  c ∈ omap (λ ev, match ev with EvSignalled _ c' Handed => Some c' | _ => None end) e →
  c ∈ signalled e.
Proof.
  unfold signalled. rewrite !list_elem_of_omap.
  intros ([| | |p c' [|]| | |] & Hin & Heq); try done.
  injection Heq as ->. by exists (EvSignalled p c Handed).
Qed.

Lemma signals_on_0 c e : signals_on c e = 0%nat → c ∉ signalled e.
Proof.
  unfold signals_on. intros Hl Hin.
  assert (c ∈ filter (λ c', c' = c) (signalled e)) as Hf
    by (by apply list_elem_of_filter).
  destruct (filter _ _); [by apply elem_of_nil in Hf|done].
Qed.

End submit_with_context_more.

(** X15. In a run in which no request is submitted while the engine holds
    it, let a request be dispatched and its latency not yet elapsed, and no
    caller parked on its channel. A caller of [SubmitWithContext] with a
    live context gets nil whether it reaches the select after the completion
    goroutine has run (the signal waits in the buffer) or before (it parks,
    and the goroutine hands the signal over). *)
Theorem submit_with_context_returns_nil
  (h : loc → TransferRequest) (cs : list Chan) (ls : list Label)
  (w : World) (evs : list Event) (i : nat) (p : loc) (lat : Z) :
  run ls (boot h cs) = Some (w, evs) →
  throughout submits_once ls (boot h cs) →
  sleepers w !! i = Some (p, lat) →
  ∃ c ch,
    Done (heap w p) = Some c ∧ chans w !! c = Some ch
    ∧ (receivers ch = 0%nat → ∀ b,
         (SubmitWithContext_select None b (Some c) (wake i w).1).2 = Returned None
         ∧ (SubmitWithContext_select None b (Some c) w).2 = Parked (Some c)
         ∧ SubmitWithContext_woken (Parked (Some c))
             (wake i (SubmitWithContext_select None b (Some c) w).1).2
           = Returned None).
Proof.
  intros Hrun Hok Hi.
  pose proof (run_once_ok h cs ls w evs Hrun Hok) as HK.
  destruct (once_ok_wake_sends w evs i p lat HK Hi)
    as (c & ch & Hd & Hc & Hcap & Hbuf & Hs & Hch & Hev).
  exists c, ch. split_and!; [done..|]. intros Hr b.
  rewrite Hr in Hch. cbn in Hch.
  assert (c < length (chans w))%nat as Hlt by (by eapply lookup_lt_Some).
  assert (SubmitWithContext_select None b (Some c) w
          = ((receive c w).1, Parked (Some c))) as Hpark.
  { unfold SubmitWithContext_select. rewrite Hc. cbn [mbind option_bind].
    by rewrite Hbuf. }
  split_and!.
  - unfold SubmitWithContext_select. rewrite Hch, list_lookup_insert_eq by done. done.
  - by rewrite Hpark.
  - rewrite Hpark. cbn [fst].
    destruct (receive_frame c w) as (Hh & _ & _ & Hsl).
    assert (chans (receive c w).1 !! c = Some (mkChan (cap ch) [] (S (receivers ch))))
      as Hc'.
    { unfold receive. rewrite Hc. unfold recv. rewrite Hbuf. cbn [fst chans].
      by apply list_lookup_insert_eq. }
    unfold wake. rewrite Hsl, Hi, Hh, Hd, Hc'. unfold try_send.
    cbn [receivers Nat.ltb Nat.leb snd SubmitWithContext_woken].
    rewrite decide_True; [done|]. cbn. by apply list_elem_of_singleton.
Qed.

Lemma submit_with_context_returns_nil_witness :
  (SubmitWithContext_select None true (Some 0%nat)
     (wake 0 (outcome [LEnqueue (Some 0%nat); LLoop] (boot abc_heap [])).1).1).2
  = Returned None
  ∧ SubmitWithContext_woken (Parked (Some 0%nat))
      (wake 0 (SubmitWithContext_select None true (Some 0%nat)
                 (outcome [LEnqueue (Some 0%nat); LLoop] (boot abc_heap [])).1).1).2
    = Returned None.
Proof.
  destruct (submit_with_context_returns_nil abc_heap []
              [LEnqueue (Some 0%nat); LLoop]
              (outcome [LEnqueue (Some 0%nat); LLoop] (boot abc_heap [])).1
              (outcome [LEnqueue (Some 0%nat); LLoop] (boot abc_heap [])).2
              0%nat 0%nat 2000000)
    as (c & ch & Hd & Hc & H).
  - vm_compute. reflexivity.
  - refine (bool_decide_unpack _ _). vm_compute. exact I.
  - vm_compute. reflexivity.
  - assert (c = 0%nat) as -> by (vm_compute in Hd; congruence).
    assert (ch = mkChan 1 [] 0) as -> by (vm_compute in Hc; congruence).
    destruct (H eq_refl true) as (H1 & _ & H3). by split.
Defined.

(** X16. In such a run, for a request the engine holds: a caller whose
    context is already done when it reaches the select returns [ctx.Err()]
    at once; a caller that parks and is then woken by its context returns
    [ctx.Err()] and leaves the world exactly as it was before the select.
    The request stays where it was, queued or in flight; nothing of the
    engine is cancelled. *)
Theorem submit_with_context_cancel_leaves_request
  (h : loc → TransferRequest) (cs : list Chan) (ls : list Label)
  (w : World) (evs : list Event) (p : loc) :
  run ls (boot h cs) = Some (w, evs) →
  throughout submits_once ls (boot h cs) →
  p ∈ in_engine w →
  ∃ c,
    Done (heap w p) = Some c
    ∧ ∀ b e,
        SubmitWithContext_select (Some e) b (Some c) w = (w, Returned (Some e))
        ∧ (SubmitWithContext_select None b (Some c) w).2 = Parked (Some c)
        ∧ SubmitWithContext_ctx_done e (Some c)
            (SubmitWithContext_select None b (Some c) w).1
          = (w, Returned (Some e)).
Proof.
  intros Hrun Hok Hp.
  pose proof (run_once_ok h cs ls w evs Hrun Hok) as (_ & K2 & _).
  destruct (K2 p Hp) as (c & ch & Hd & Hc & Hcap & Hbuf & Hs).
  exists c. split; [done|]. intros b e.
  unfold SubmitWithContext_select, SubmitWithContext_ctx_done.
  rewrite Hc. cbn [mbind option_bind]. rewrite Hbuf. cbn [head fst snd].
  split_and!; [done..|]. f_equal. by eapply park_and_leave.
Qed.

Lemma submit_with_context_cancel_leaves_request_witness :
  SubmitWithContext_ctx_done "context canceled" (Some 0%nat)
    (SubmitWithContext_select None true (Some 0%nat)
       (outcome [LEnqueue (Some 0%nat)] (boot abc_heap [])).1).1
  = ((outcome [LEnqueue (Some 0%nat)] (boot abc_heap [])).1,
     Returned (Some "context canceled"%string)).
Proof.
  destruct (submit_with_context_cancel_leaves_request abc_heap []
              [LEnqueue (Some 0%nat)]
              (outcome [LEnqueue (Some 0%nat)] (boot abc_heap [])).1
              (outcome [LEnqueue (Some 0%nat)] (boot abc_heap [])).2 0%nat)
    as (c & Hd & H).
  - vm_compute. reflexivity.
  - refine (bool_decide_unpack _ _). vm_compute. exact I.
  - refine (bool_decide_unpack _ _). vm_compute. exact I.
  - assert (c = 0%nat) as -> by (vm_compute in Hd; congruence).
    apply (H true "context canceled"%string).
Defined.

(** X17. Once the dispatch loop has returned, a request that is then
    submitted through [SubmitWithContext] is accepted, but however the run
    goes on (with no request submitted while the engine holds it) its
    channel stays empty and no send is handed over on it: with a context
    that is never done the call stays parked in the select for ever. *)
Theorem submit_with_context_after_return_never_returns
  (h : loc → TransferRequest) (cs : list Chan) (ls : list Label)
  (w : World) (evs : list Event) (p : loc) :
  run ls (boot h cs) = Some (w, evs) →
  throughout submits_once ls (boot h cs) →
  looping w = false → p ∉ in_engine w →
  (SubmitWithContext_enqueue (Some p) w).2 = AtSelect (Some (length (chans w)))
  ∧ ∀ ls' w' evs',
      throughout submits_once ls' (SubmitWithContext_enqueue (Some p) w).1 →
      run ls' (SubmitWithContext_enqueue (Some p) w).1 = Some (w', evs') →
      (∀ b, (SubmitWithContext_select None b (Some (length (chans w))) w').2
            = Parked (Some (length (chans w))))
      ∧ SubmitWithContext_woken (Parked (Some (length (chans w)))) evs'
        = Parked (Some (length (chans w))).
Proof.
  intros Hrun Hok Hl Hp.
  assert (SubmitWithContext_enqueue (Some p) w
          = ((EnqueueTransfer (Some p) w).1, AtSelect (Some (length (chans w))))) as Henq.
  { unfold SubmitWithContext_enqueue.
    rewrite (surjective_pairing (EnqueueTransfer (Some p) w)), EnqueueTransfer_result.
    done. }
  rewrite Henq. cbn [fst snd]. split; [done|]. intros ls' w' evs' Hok' Hrun'.
  set (c := length (chans w)). set (w1 := (EnqueueTransfer (Some p) w).1) in *.
  assert (run (ls ++ [LEnqueue (Some p)]) (boot h cs)
          = Some (w1, evs ++ [EvSubmitted p c])) as Hrun1.
  { rewrite run_app, Hrun. cbn [run]. rewrite step_enqueue. cbn [fst snd].
    rewrite EnqueueTransfer_result. by rewrite app_nil_r. }
  assert (throughout submits_once (ls ++ [LEnqueue (Some p)]) (boot h cs)) as Hok1.
  { eapply throughout_app; [done..|]. cbn [throughout]. split; [done|].
    by rewrite step_enqueue. }
  assert (once_ok w' ((evs ++ [EvSubmitted p c]) ++ evs')) as (_ & K2 & _).
  { apply (run_once_ok h cs ((ls ++ [LEnqueue (Some p)]) ++ ls')).
    - by rewrite run_app, Hrun1, Hrun'.
    - by eapply throughout_app. }
  destruct (queued_stays ls' w1 w' evs' p c) as [Hp' Hd']; try done.
  { unfold w1. rewrite EnqueueTransfer_perm. apply elem_of_app. right.
    by apply list_elem_of_singleton. }
  { unfold w1. by rewrite Done_enqueue, decide_True. }
  destruct (K2 p) as (c' & ch & Hd'' & Hc & _ & Hbuf & Hs).
  { unfold in_engine. apply elem_of_app. by left. }
  assert (c' = c) as -> by congruence.
  split.
  - intros b. unfold SubmitWithContext_select. rewrite Hc.
    cbn [mbind option_bind]. by rewrite Hbuf.
  - unfold SubmitWithContext_woken. rewrite decide_False; [done|].
    intros Hin%handed_signalled. rewrite signals_on_app in Hs.
    assert (signals_on c evs' = 0%nat) as Hs' by lia.
    by apply signals_on_0 in Hs'.
Qed.

Lemma submit_with_context_after_return_never_returns_witness :
  length (chans (outcome abandon_run (boot abc_heap [])).1) = 2%nat
  ∧ (SubmitWithContext_select None true
       (Some (length (chans (outcome abandon_run (boot abc_heap [])).1)))
       (outcome [LLoop; LLoop; LWake 0]
          (SubmitWithContext_enqueue (Some 2%nat)
             (outcome abandon_run (boot abc_heap [])).1).1).1).2
    = Parked (Some (length (chans (outcome abandon_run (boot abc_heap [])).1))).
Proof.
  split; [vm_compute; reflexivity|].
  destruct (submit_with_context_after_return_never_returns abc_heap []
              abandon_run
              (outcome abandon_run (boot abc_heap [])).1
              (outcome abandon_run (boot abc_heap [])).2 2%nat)
    as [_ H2].
  - vm_compute. reflexivity.
  - refine (bool_decide_unpack _ _). vm_compute. exact I.
  - vm_compute. reflexivity.
  - refine (bool_decide_unpack _ _). vm_compute. exact I.
  - apply (H2 [LLoop; LLoop; LWake 0]
             (outcome [LLoop; LLoop; LWake 0]
                (SubmitWithContext_enqueue (Some 2%nat)
                   (outcome abandon_run (boot abc_heap [])).1).1).1
             (outcome [LLoop; LLoop; LWake 0]
                (SubmitWithContext_enqueue (Some 2%nat)
                   (outcome abandon_run (boot abc_heap [])).1).1).2).
    + refine (bool_decide_unpack _ _). vm_compute. exact I.
    + vm_compute. reflexivity.
Defined.

(** X18. [SubmitWithContext] returns no error of the engine's own but
    "nil request": the call returns before the select only for a nil
    request, with that error and the world unchanged; and in every run of a
    new engine a select on a channel the engine made returns either nil or
    the error of a context that is done. *)
Theorem submit_with_context_errors
  (h : loc → TransferRequest) (cs : list Chan) (ls : list Label)
  (w : World) (evs : list Event) :
  run ls (boot h cs) = Some (w, evs) →
  (∀ req w' err, SubmitWithContext_enqueue req w = (w', Returned err) →
     req = None ∧ err = Some "nil request"%string ∧ w' = w)
  ∧ (∀ ctx b (c : chan) w' e, (length cs ≤ c)%nat →
       SubmitWithContext_select ctx b (Some c) w = (w', Returned (Some e)) →
       ctx = Some e).
Proof.
  intros Hrun. split.
  - intros [p|] w' err; unfold SubmitWithContext_enqueue.
    + rewrite (surjective_pairing (EnqueueTransfer (Some p) w)), EnqueueTransfer_result.
      done.
    + cbn [EnqueueTransfer]. intros H. by simplify_eq.
  - intros ctx b c w' e Hc. unfold SubmitWithContext_select.
    destruct (run_channels_ok h cs ls w evs Hrun) as (_ & H2 & _).
    destruct ctx as [e0|]; cbv beta iota;
      (destruct (chans w !! c) as [ch|] eqn:Ech; cbn [mbind option_bind];
       [|intros H; by simplify_eq]);
      destruct (H2 c ch Hc Ech) as (_ & _ & Hnil);
      (destruct (buf ch) as [|v rest]; cbn [head]; [intros H; by simplify_eq|]);
      apply Forall_cons in Hnil as [-> _].
    + destruct b; intros H; by simplify_eq.
    + intros H; by simplify_eq.
Qed.

Lemma submit_with_context_errors_witness :
  SubmitWithContext_enqueue None (outcome abandon_run (boot abc_heap [])).1
  = ((outcome abandon_run (boot abc_heap [])).1, Returned (Some "nil request"%string))
  ∧ (SubmitWithContext_select (Some "context deadline exceeded"%string) false
       (Some 1%nat) (outcome abandon_run (boot abc_heap [])).1).2
    = Returned None.
Proof.
  split; [reflexivity|].
  pose proof (submit_with_context_errors abc_heap [] abandon_run
                (outcome abandon_run (boot abc_heap [])).1
                (outcome abandon_run (boot abc_heap [])).2
                ltac:(vm_compute; reflexivity)) as [_ H].
  destruct (SubmitWithContext_select _ false (Some 1%nat) _) as [w' call] eqn:E.
  vm_compute in E. injection E as _ <-. reflexivity.
Defined.

(** * The driver's controller (flame_integration.go) *)

(** [&flame.TransferRequest{ID: fmt.Sprintf("tx-%d-%d-%d", srcGPU, dstGPU, now), ...}],
    [now] being [time.Now().UnixNano()]; [Done] is left nil. *)
Definition new_request (now srcGPU dstGPU sizeBytes priority : Z) (meta : string)
  : TransferRequest :=
  mkReq ("tx-" +:+ pretty srcGPU +:+ "-" +:+ pretty dstGPU +:+ "-" +:+ pretty now)
        srcGPU dstGPU sizeBytes priority meta None.

(** [PMEngineController] with the engine it points to, in its world, and the
    allocator of requests: every location from [brk] on is free. *)
Record PMEngineController := mkController { world : World; brk : loc }.

(** [NewPMEngineController]: [Engine: flame.NewPMEngine()]. *)
Definition NewPMEngineController (h : loc → TransferRequest) (cs : list Chan)
  : PMEngineController :=
  mkController (boot h cs) 0%nat.

(** [RequestFragmentTransfer] up to the select of [SubmitWithContext]: the
    request is allocated, at a location of its own, and submitted. The rest
    of the call is [SubmitWithContext]'s. *)
Definition RequestFragmentTransfer_enqueue
  (now srcGPU dstGPU sizeBytes priority : Z) (meta : string)
  (k : PMEngineController) : PMEngineController * Call :=
  let req := brk k in
  let w := world k in
  let w0 := mkWorld (<[req := new_request now srcGPU dstGPU sizeBytes priority meta]>
                       (heap w))
                    (chans w) (eng w) (looping w) (sleepers w) in
  let '(w1, call) := SubmitWithContext_enqueue (Some req) w0 in
  (mkController w1 (S req), call).

(** What happens in a program whose transfers all go through the
    controller. *)
Inductive Action :=
| ARequest (now srcGPU dstGPU sizeBytes priority : Z) (meta : string)
| AStop
| ALoop
| AWake (i : nat)
| AReceive (c : chan)
| ACancel (c : chan).

Definition engine_step (l : Label) (k : PMEngineController)
  : option (PMEngineController * list Event) :=
  (λ r, (mkController r.1 (brk k), r.2)) <$> step l (world k).

Definition act (a : Action) (k : PMEngineController)
  : option (PMEngineController * list Event) :=
  match a with
  | ARequest now srcGPU dstGPU sizeBytes priority meta =>
      let '(k', call) :=
        RequestFragmentTransfer_enqueue now srcGPU dstGPU sizeBytes priority meta k in
      Some (k', match call with
                | AtSelect (Some c) => [EvSubmitted (brk k) c]
                | Returned (Some e) => [EvRejected e]
                | _ => []
                end)
  | AStop => engine_step LStop k
  | ALoop => engine_step LLoop k
  | AWake i => engine_step (LWake i) k
  | AReceive c => engine_step (LReceive c) k
  | ACancel c => engine_step (LCancel c) k
  end.

Fixpoint perform (acts : list Action) (k : PMEngineController)
  : option (PMEngineController * list Event) :=
  match acts with
  | [] => Some (k, [])
  | a :: acts' =>
      match act a k with
      | None => None
      | Some (k1, e1) =>
          match perform acts' k1 with
          | None => None
          | Some (k2, e2) => Some (k2, e1 ++ e2)
          end
      end
  end.

(** The events that report a rejected submission. *)
Definition rejected (evs : list Event) : list error :=
  omap (λ e, match e with EvRejected err => Some err | _ => None end) evs.

Section controller.
Implicit Types (k : PMEngineController) (w : World) (evs e : list Event).

(** Writing a request the engine does not hold changes nothing for it. *)
Lemma once_ok_heap_fresh w evs p r :
  once_ok w evs → p ∉ in_engine w →
  once_ok (mkWorld (<[p := r]> (heap w)) (chans w) (eng w) (looping w) (sleepers w)) evs.
Proof.
  intros (K1 & K2 & K3 & K4 & K5 & K6 & K7) Hp.
  assert (∀ x, x ∈ in_engine w → (<[p := r]> (heap w)) x = heap w x) as Hh.
  { intros x Hx. apply fn_lookup_insert_ne. by intros ->. }
  unfold once_ok, held_ok, in_engine in *. cbn [heap chans eng sleepers].
  split_and!; try done.
  - intros x Hx. rewrite (Hh x Hx). by apply K2.
  - intros x y Hx Hy. rewrite (Hh x Hx), (Hh y Hy). by apply K3.
  - intros x c Hxc. destruct (K7 x c Hxc) as [[Hx Hd]|Hs]; [left|by right].
    split; [done|]. by rewrite (Hh x Hx).
Qed.

Lemma RequestFragmentTransfer_enqueue_eq now s d sz pr m k :
  RequestFragmentTransfer_enqueue now s d sz pr m k
  = (mkController
       (EnqueueTransfer (Some (brk k))
          (mkWorld (<[brk k := new_request now s d sz pr m]> (heap (world k)))
                   (chans (world k)) (eng (world k)) (looping (world k))
                   (sleepers (world k)))).1
       (S (brk k)),
     AtSelect (Some (length (chans (world k))))).
Proof.
  unfold RequestFragmentTransfer_enqueue, SubmitWithContext_enqueue. cbn zeta.
  match goal with |- context [EnqueueTransfer ?r ?w0] =>
    rewrite (surjective_pairing (EnqueueTransfer r w0)), (EnqueueTransfer_result w0)
  end.
  done.
Qed.

(** The invariant of a program that submits through the controller only. *)
Definition controller_ok k evs : Prop :=
  once_ok (world k) evs
  ∧ (∀ p, p ∈ in_engine (world k) → (p < brk k)%nat)
  ∧ submitted evs = seq 0%nat (brk k)
  ∧ rejected evs = []
  ∧ (∀ p c, EvSubmitted p c ∈ evs → p ∈ in_engine (world k) →
       Done (heap (world k) p) = Some c).

Lemma submitted_elem p c evs : EvSubmitted p c ∈ evs → p ∈ submitted evs.
Proof.
  intros Hin. unfold submitted. apply list_elem_of_omap.
  by exists (EvSubmitted p c).
Qed.

Lemma submitted_nil_no_event p c e : submitted e = [] → EvSubmitted p c ∉ e.
Proof. intros He Hin%submitted_elem. rewrite He in Hin. by apply elem_of_nil in Hin. Qed.

Lemma engine_step_controller_ok l k evs k' e :
  (∀ req, l ≠ LEnqueue req) →
  controller_ok k evs → engine_step l k = Some (k', e) → controller_ok k' (evs ++ e).
Proof.
  intros Hl (HK & Hb & Hsub & Hrej & Hdone). unfold engine_step.
  destruct (step l (world k)) as [[w' e']|] eqn:Hstep; [|done].
  cbn. intros [= <- <-]. unfold controller_ok. cbn [world brk].
  assert (submits_once l (world k)) as Hok
    by (destruct l as [req| | | | |]; [by destruct (Hl req)|done..]).
  pose proof (step_once_ok l _ _ _ _ HK Hok Hstep) as HK'.
  assert (submitted e' = [] ∧ rejected e' = []
          ∧ (∀ p, p ∈ in_engine w' → p ∈ in_engine (world k))
          ∧ heap w' = heap (world k)) as (E1 & E2 & Hin & Hheap).
  { destruct l as [req| | |i|c|c]; [by destruct (Hl req)|cbn [step] in Hstep..].
    - unfold Stop in Hstep. destruct (quit (eng (world k))); [|done].
      by injection Hstep as <- <-.
    - apply some_pair_inv in Hstep as [-> ->].
      split_and!; [| |by intros p; rewrite in_engine_loop_iter|apply loop_iter_heap];
        unfold loop_iter; (destruct (looping (world k)); [|done]);
        (destruct (quit (eng (world k))); [|done]);
        by destruct (pending (eng (world k))).
    - apply some_pair_inv in Hstep as [-> ->].
      split_and!; [| |apply in_engine_wake|apply wake_frame];
        (destruct (wake_cases i (world k)) as [[_ ->]|(r & lat & _ & _ & Hsend)]; [done|]);
        by destruct Hsend as [(c & ch & ch' & d & _ & _ & _ & _ & ->)|(_ & -> & _)].
    - apply some_pair_inv in Hstep as [-> ->].
      destruct (receive_frame c (world k)) as (Hh & He & _ & Hs).
      split_and!; [| |unfold in_engine; by rewrite He, Hs|done];
        unfold receive; (destruct (chans (world k) !! c) as [ch|]; [|done]);
        by destruct (recv ch) as [ch' [v|]].
    - apply some_pair_inv in Hstep as [-> ->].
      destruct (cancel_frame c (world k)) as (Hh & He & _ & Hs).
      rewrite cancel_silent. split_and!; [done..| |done].
      unfold in_engine. by rewrite He, Hs. }
  unfold rejected in *. rewrite submitted_app, omap_app, E1, E2, Hrej, !app_nil_r.
  split_and!; [done| |done..|].
  - intros p Hp. by apply Hb, Hin.
  - intros p c [Hpc|Hpc]%elem_of_app Hp; [|by apply submitted_nil_no_event in Hpc].
    rewrite Hheap. by apply Hdone, Hin.
Qed.

Lemma act_controller_ok a k evs k' e :
  controller_ok k evs → act a k = Some (k', e) → controller_ok k' (evs ++ e).
Proof.
  intros HI. destruct a as [now s d sz pr m| | |i|c|c]; cbn [act];
    [|by apply engine_step_controller_ok..].
  rewrite RequestFragmentTransfer_enqueue_eq.
  destruct HI as (HK & Hb & Hsub & Hrej & Hdone).
  assert (brk k ∉ in_engine (world k)) as Hfresh.
  { intros Hin%Hb. lia. }
  pose proof (once_ok_enqueue _ evs (brk k)
                (once_ok_heap_fresh _ _ _ (new_request now s d sz pr m) HK Hfresh)
                Hfresh) as HK1.
  pose proof (in_engine_enqueue
                (mkWorld (<[brk k := new_request now s d sz pr m]> (heap (world k)))
                   (chans (world k)) (eng (world k)) (looping (world k))
                   (sleepers (world k))) (brk k)) as Hperm.
  pose proof (Done_enqueue
                (mkWorld (<[brk k := new_request now s d sz pr m]> (heap (world k)))
                   (chans (world k)) (eng (world k)) (looping (world k))
                   (sleepers (world k))) (brk k)) as Hdone1.
  cbn [chans heap] in HK1, Hdone1.
  remember (EnqueueTransfer (Some (brk k)) _).1 as w1 eqn:Ew1. clear Ew1.
  intros [= <- <-]. unfold controller_ok. cbn [world brk]. split_and!.
  - exact HK1.
  - intros p Hp. rewrite Hperm in Hp.
    apply elem_of_cons in Hp as [->|Hp]; [lia|]. apply Hb in Hp. lia.
  - rewrite submitted_app, Hsub, seq_S. done.
  - unfold rejected in *. by rewrite omap_app, Hrej.
  - intros p c Hpc Hp. rewrite Hdone1.
    apply elem_of_app in Hpc as [Hpc|Hpc].
    + assert (p < brk k)%nat as Hlt.
      { apply submitted_elem in Hpc. rewrite Hsub in Hpc.
        apply elem_of_seq in Hpc. lia. }
      rewrite decide_False by lia. rewrite fn_lookup_insert_ne by lia.
      apply Hdone; [done|]. rewrite Hperm in Hp.
      apply elem_of_cons in Hp as [->|Hp]; [lia|done].
    + apply list_elem_of_singleton in Hpc as [= -> ->]. by rewrite decide_True.
Qed.

Lemma perform_controller_ok acts k evs k' e :
  controller_ok k evs → perform acts k = Some (k', e) → controller_ok k' (evs ++ e).
Proof.
  revert k evs e. induction acts as [|a acts IH]; intros k evs e HI; cbn [perform].
  - intros [= <- <-]. by rewrite app_nil_r.
  - destruct (act a k) as [[k1 e1]|] eqn:Ha; [|done].
    destruct (perform acts k1) as [[k2 e2]|] eqn:Hp; [|done].
    intros [= <- <-]. rewrite app_assoc. eapply IH; [|done].
    by eapply act_controller_ok.
Qed.

End controller.

(** X19. In a program whose transfers all go through
    [RequestFragmentTransfer], whatever the interleaving of calls, loop
    iterations, completions, receives, cancellations and a [Stop]: every
    call submits a request of its own (the [n]-th call the [n]-th location),
    none is rejected, the queue never holds a request twice, no signal is
    dropped, no channel gets two signals, and the handle of a request has
    got exactly one signal once the engine no longer holds the request and
    none before. *)
Theorem controller_requests_signalled_once
  (h : loc → TransferRequest) (cs : list Chan) (acts : list Action)
  (k : PMEngineController) (evs : list Event) :
  perform acts (NewPMEngineController h cs) = Some (k, evs) →
  submitted evs = seq 0%nat (brk k) ∧ rejected evs = []
  ∧ NoDup (pending (eng (world k)))
  ∧ drops evs = []
  ∧ (∀ c, (signals_on c evs ≤ 1)%nat)
  ∧ (∀ p c, EvSubmitted p c ∈ evs →
       signals_on c evs = if decide (p ∈ in_engine (world k)) then 0%nat else 1%nat).
Proof.
  intros Hrun.
  assert (controller_ok k ([] ++ evs)) as (HK & _ & Hsub & Hrej & Hdone).
  { eapply perform_controller_ok; [|exact Hrun].
    split_and!; [apply boot_once_ok|by intros p ?%elem_of_nil|done|done|].
    intros p c. by intros ?%elem_of_nil. }
  cbn [app] in *. destruct HK as (K1 & K2 & _ & K4 & _ & K6 & K7).
  split_and!; [done|done| |done|done|].
  - unfold in_engine in K1. by apply NoDup_app in K1 as [? _].
  - intros p c Hpc. case_decide as Hp.
    + destruct (K2 p Hp) as (c' & ch & Hd & _ & _ & _ & Hs).
      rewrite (Hdone p c Hpc Hp) in Hd. by injection Hd as ->.
    + destruct (K7 p c Hpc) as [[? _]|?]; done.
Qed.

Lemma controller_requests_signalled_once_witness :
  submitted
    (default (NewPMEngineController abc_heap [], [])
       (perform [ARequest 17 0 1 4096 5 "k1"; ARequest 18 0 2 0 0 "k2"; ALoop;
                 AWake 0; AStop; ALoop]
          (NewPMEngineController abc_heap []))).2
  = [0; 1]%nat
  ∧ signals_on 1%nat
      (default (NewPMEngineController abc_heap [], [])
         (perform [ARequest 17 0 1 4096 5 "k1"; ARequest 18 0 2 0 0 "k2"; ALoop;
                   AWake 0; AStop; ALoop]
            (NewPMEngineController abc_heap []))).2
    = 1%nat.
Proof.
  split; [|vm_compute; reflexivity].
  refine (proj1 (controller_requests_signalled_once abc_heap []
                   [ARequest 17 0 1 4096 5 "k1"; ARequest 18 0 2 0 0 "k2"; ALoop;
                    AWake 0; AStop; ALoop]
                   (default (NewPMEngineController abc_heap [], [])
                      (perform [ARequest 17 0 1 4096 5 "k1"; ARequest 18 0 2 0 0 "k2";
                                ALoop; AWake 0; AStop; ALoop]
                         (NewPMEngineController abc_heap []))).1
                   _ _)).
  vm_compute. reflexivity.
Defined.

(** ** The request IDs of [RequestFragmentTransfer] *)

From Stdlib Require Import Ascii.

(** A string without the character '-'. *)
Fixpoint dashless (s : string) : Prop :=
  match s with
  | EmptyString => True
  | String c s' => c ≠ "-"%char ∧ dashless s'
  end.

Lemma pretty_N_go_dashless (x : N) (s : string) :
  dashless s → dashless (pretty_N_go x s).
Proof.
  revert s. induction (N.lt_wf_0 x) as [x _ IH]. intros s Hs.
  assert (x = 0 ∨ 0 < x)%N as [->|Hx] by lia; [by rewrite pretty_N_go_0|].
  rewrite pretty_N_go_step by done. apply IH; [by apply N.div_lt|].
  split; [|done]. unfold pretty_N_char. by repeat case_match.
Qed.

Lemma pretty_N_go_length (x : N) (s : string) :
  (String.length s ≤ String.length (pretty_N_go x s))%nat.
Proof.
  revert s. induction (N.lt_wf_0 x) as [x _ IH]. intros s.
  assert (x = 0 ∨ 0 < x)%N as [->|Hx] by lia; [by rewrite pretty_N_go_0|].
  rewrite pretty_N_go_step by done.
  etrans; [|apply IH; by apply N.div_lt]. cbn. lia.
Qed.

Lemma pretty_N_digits (x : N) :
  ∃ c s, pretty x = String c s ∧ c ≠ "-"%char ∧ dashless s.
Proof.
  unfold pretty, pretty_N. case_decide as Hx; [by exists "0"%char, ""%string|].
  pose proof (pretty_N_go_dashless x "" I) as Hd.
  pose proof (pretty_N_go_step x "" ltac:(lia)) as Hstep.
  pose proof (pretty_N_go_length (x `div` 10)
                (String (pretty_N_char (x `mod` 10)) "")) as Hlen.
  rewrite <-Hstep in Hlen.
  destruct (pretty_N_go x "") as [|c s]; [cbn in Hlen; lia|].
  destruct Hd as [? ?]. by exists c, s.
Qed.

Lemma dashless_split (a b x y : string) :
  dashless a → dashless b →
  a +:+ String "-" x = b +:+ String "-" y → a = b ∧ x = y.
Proof.
  revert b. induction a as [|c a IH]; intros [|c' b]; cbn.
  - by intros _ _ [= ->].
  - intros _ [Hc _] [= <- _]. done.
  - intros [Hc _] _ [= -> _]. done.
  - intros [_ Ha] [_ Hb] [= -> Heq].
    destruct (IH b Ha Hb Heq) as [-> ->]. done.
Qed.

Lemma pretty_Z_split (z z' : Z) (x y : string) :
  pretty z +:+ String "-" x = pretty z' +:+ String "-" y → z = z' ∧ x = y.
Proof.
  assert (∀ z : Z, ∃ (neg : bool) c s,
            pretty z = (if neg then String "-" (String c s) else String c s)
            ∧ c ≠ "-"%char ∧ dashless s) as Hshape.
  { intros [|p|p]; unfold pretty, pretty_Z.
    - by exists false, "0"%char, ""%string.
    - destruct (pretty_N_digits (N.pos p)) as (c & s & Hp & ? & ?).
      exists false, c, s. by rewrite <-Hp.
    - destruct (pretty_N_digits (N.pos p)) as (c & s & Hp & ? & ?).
      exists true, c, s. unfold pretty, pretty_positive. by rewrite Hp. }
  intros Heq.
  destruct (Hshape z) as (n & c & s & Hz & Hc & Hs).
  destruct (Hshape z') as (n' & c' & s' & Hz' & Hc' & Hs').
  assert (pretty z = pretty z' ∧ x = y) as [Hp ->]; [|by apply (inj pretty) in Hp].
  rewrite Hz, Hz' in *. destruct n, n'; cbn in Heq.
  - injection Heq as -> Heq.
    by destruct (dashless_split s s' x y Hs Hs' Heq) as [-> ->].
  - injection Heq as <- _. done.
  - injection Heq as -> _. done.
  - by destruct (dashless_split (String c s) (String c' s') x y
                   (conj Hc Hs) (conj Hc' Hs') Heq) as [[= -> ->] ->].
Qed.

(** X20. The ID [RequestFragmentTransfer] gives a request identifies the
    source GPU, the destination GPU and the clock reading, and nothing else:
    two calls build the same ID exactly when they name the same source and
    destination and read the same nanosecond, whatever their sizes,
    priorities and meta strings. *)
Theorem request_id_identifies_transfer
  (now srcGPU dstGPU sizeBytes priority : Z) (meta : string)
  (now' srcGPU' dstGPU' sizeBytes' priority' : Z) (meta' : string) :
  ID (new_request now srcGPU dstGPU sizeBytes priority meta)
  = ID (new_request now' srcGPU' dstGPU' sizeBytes' priority' meta')
  ↔ srcGPU = srcGPU' ∧ dstGPU = dstGPU' ∧ now = now'.
Proof.
  unfold new_request. cbn [ID]. split; [|by intros (-> & -> & ->)].
  change ("-" +:+ ?s)%string with (String "-" s).
  intros [= Heq].
  apply pretty_Z_split in Heq as [-> Heq].
  apply pretty_Z_split in Heq as [-> Heq].
  by apply (inj pretty) in Heq as ->.
Qed.
